(** * OrderForm: price normalisation, minimum-price derivation and the
      submission gate of [src/components/OrderForm.jsx]

    The development embeds the helper functions of the order form
    ([parseToNumber], [normalizeKey], [findFieldRecursive],
    [findPriceInObject], [calcPrecoMinFromBase], the [normalize] step of the
    catalogue loader, the row operations and [priceBelowMinExists]) and
    proves the properties stated for them. It then covers the rest of the
    form: the price search of the previous version of the component,
    [calcularTotal], [montarMensagem], the items that [enviarWhatsApp]
    posts, the postal-code button and [onSelectSuggestion].

    Conventions of the embedding.
    - A JavaScript number is [NaN], an infinity or an exact rational
      ([Fin q]): arithmetic is carried out exactly, the binary rounding of
      IEEE doubles and the sign of zero are not represented. The one place
      where the rounding of doubles decides the result, the cents of
      [calcPrecoMinFromBase], is also embedded on binary64 numbers, and
      the order properties of the derived minimum are proved there.
    - A JavaScript string is a [string] of 8-bit characters; the white space
      class [\s] is the ASCII one (tab, line feed, vertical tab, form feed,
      carriage return, space).
    - Containers live in a heap: a record is a reference into a list of
      objects, so that shared and cyclic records can be written down. The
      [seen] set of the two recursive searches is threaded explicitly. *)

From Stdlib Require Import ZArith QArith Qround Qpower Lqa Ascii String DecimalString List Lia Permutation.
From Stdlib Require Import SpecFloat.
From stdpp Require Import base decidable option list gmap sets strings.

Local Open Scope Z_scope.
Local Open Scope string_scope.
Local Open Scope list_scope.

(** ** JavaScript numbers *)

Inductive number : Type :=
| NaN
| Inf (negative : bool)
| Fin (q : Q).

Definition isNaN (n : number) : bool :=
  match n with NaN => true | _ => false end.

(** Truthiness of a number: [0] and [NaN] are falsy. *)
Definition truthyNumber (n : number) : bool :=
  match n with
  | NaN => false
  | Inf _ => true
  | Fin q => negb (Qeq_bool q 0)
  end.

(** [a < b] as JavaScript evaluates it; every comparison with [NaN] is false. *)
Definition jlt (a b : number) : bool :=
  match a, b with
  | NaN, _ | _, NaN => false
  | Inf true, Inf true => false
  | Inf true, _ => true
  | _, Inf true => false
  | Inf false, _ => false
  | Fin _, Inf false => true
  | Fin x, Fin y => if Qlt_le_dec x y then true else false
  end.

Definition jgt (a b : number) : bool := jlt b a.

(** [a <= b]. *)
Definition jle (a b : number) : bool :=
  match a, b with
  | NaN, _ | _, NaN => false
  | Inf true, _ => true
  | _, Inf true => false
  | _, Inf false => true
  | Inf false, Fin _ => false
  | Fin x, Fin y => if Qlt_le_dec y x then false else true
  end.

Definition jmul (a b : number) : number :=
  match a, b with
  | NaN, _ | _, NaN => NaN
  | Inf s, Inf t => Inf (xorb s t)
  | Inf s, Fin y | Fin y, Inf s =>
      if Qeq_bool y 0 then NaN
      else Inf (xorb s (if Qlt_le_dec y 0 then true else false))
  | Fin x, Fin y => Fin (Qred (x * y))
  end.

Definition jdiv (a b : number) : number :=
  match a, b with
  | NaN, _ | _, NaN => NaN
  | Inf _, Inf _ => NaN
  | Inf s, Fin y => Inf (xorb s (if Qlt_le_dec y 0 then true else false))
  | Fin _, Inf _ => Fin 0
  | Fin x, Fin y =>
      if Qeq_bool y 0 then
        (if Qeq_bool x 0 then NaN else Inf (if Qlt_le_dec x 0 then true else false))
      else Fin (Qred (x / y))
  end.

(** [Math.round]: the nearest integer, ties towards plus infinity. *)
Definition mathRound (a : number) : number :=
  match a with
  | Fin x => Fin (inject_Z (Qfloor (x + (1 # 2))))
  | _ => a
  end.

(** ** Strings *)

Definition isWhiteSpace (c : ascii) : bool :=
  let n := nat_of_ascii c in
  ((9 <=? n) && (n <=? 13) || (n =? 32))%nat.

Fixpoint trimStart (s : string) : string :=
  match s with
  | String c s' => if isWhiteSpace c then trimStart s' else s
  | EmptyString => EmptyString
  end.

Fixpoint allWhite (s : string) : bool :=
  match s with
  | String c s' => isWhiteSpace c && allWhite s'
  | EmptyString => true
  end.

Fixpoint trimEnd (s : string) : string :=
  match s with
  | String c s' => if allWhite s then EmptyString else String c (trimEnd s')
  | EmptyString => EmptyString
  end.

(** [String.prototype.trim]. *)
Definition trim (s : string) : string := trimEnd (trimStart s).

Fixpoint filterChars (keep : ascii -> bool) (s : string) : string :=
  match s with
  | String c s' =>
      if keep c then String c (filterChars keep s') else filterChars keep s'
  | EmptyString => EmptyString
  end.

Fixpoint hasChar (c : ascii) (s : string) : bool :=
  match s with
  | String d s' => if Ascii.eqb c d then true else hasChar c s'
  | EmptyString => false
  end.

(** [s.replace(c, d)] with a string pattern: only the first occurrence. *)
Fixpoint replaceFirst (c d : ascii) (s : string) : string :=
  match s with
  | String e s' => if Ascii.eqb c e then String d s' else String e (replaceFirst c d s')
  | EmptyString => EmptyString
  end.

Fixpoint startsWith (p s : string) : bool :=
  match p, s with
  | EmptyString, _ => true
  | String a p', String b s' => Ascii.eqb a b && startsWith p' s'
  | String _ _, EmptyString => false
  end.

Fixpoint dropChars (n : nat) (s : string) : string :=
  match n, s with
  | S n', String _ s' => dropChars n' s'
  | _, _ => s
  end.

(** [s.includes(t)]. *)
Fixpoint includes (s t : string) : bool :=
  startsWith t s ||
  match s with
  | String _ s' => includes s' t
  | EmptyString => false
  end.

Definition isUpper (c : ascii) : bool :=
  let n := nat_of_ascii c in ((65 <=? n) && (n <=? 90))%nat.

Definition isLower (c : ascii) : bool :=
  let n := nat_of_ascii c in ((97 <=? n) && (n <=? 122))%nat.

Definition isDigit (c : ascii) : bool :=
  let n := nat_of_ascii c in ((48 <=? n) && (n <=? 57))%nat.

Definition lowerChar (c : ascii) : ascii :=
  if isUpper c then ascii_of_nat (nat_of_ascii c + 32) else c.

Fixpoint toLowerCase (s : string) : string :=
  match s with
  | String c s' => String (lowerChar c) (toLowerCase s')
  | EmptyString => EmptyString
  end.

(** ** [Number(string)] and [parseFloat(string)] *)

Definition digitVal (c : ascii) : Z := Z.of_nat (nat_of_ascii c) - 48.

(** Reads the longest run of decimal digits: its value continuing [acc],
    the number of digits read, and the rest of the string. *)
Fixpoint takeDigits (s : string) (acc : Z) (count : nat) : Z * nat * string :=
  match s with
  | String c s' =>
      if isDigit c then takeDigits s' (acc * 10 + digitVal c) (S count)
      else (acc, count, s)
  | EmptyString => (acc, count, s)
  end.

Definition pow10 (e : Z) : Q :=
  if (0 <=? e)%Z then inject_Z (10 ^ e) else / inject_Z (10 ^ (- e)).

(** The optional exponent part: consumed only when it is well formed. *)
Definition takeExponent (s : string) : Z * string :=
  match s with
  | String c s' =>
      if Ascii.eqb c "e" || Ascii.eqb c "E" then
        let '(neg, s'') :=
          match s' with
          | String "+" t => (false, t)
          | String "-" t => (true, t)
          | _ => (false, s')
          end in
        let '(e, n, rest) := takeDigits s'' 0 O in
        match n with
        | O => (0, s)
        | S _ => (if neg then - e else e, rest)
        end
      else (0, s)
  | EmptyString => (0, s)
  end.

(** The longest prefix that is a [StrDecimalLiteral], with what follows it. *)
Definition scanDecimal (s : string) : option (number * string) :=
  let '(neg, s1) :=
    match s with
    | String "+" t => (false, t)
    | String "-" t => (true, t)
    | _ => (false, s)
    end in
  if startsWith "Infinity" s1 then
    Some (Inf neg, dropChars 8 s1)
  else
    let '(ip, ni, r1) := takeDigits s1 0 O in
    let '(m, nf, r2) :=
      match r1 with
      | String "." t => takeDigits t ip O
      | _ => (ip, O, r1)
      end in
    match ni, nf with
    | O, O => None
    | _, _ =>
        let '(e, r3) := takeExponent r2 in
        let q := Qred (inject_Z m * pow10 (e - Z.of_nat nf)) in
        Some (Fin (if neg then Qred (- q) else q), r3)
    end.

Definition radixDigit (radix : Z) (c : ascii) : option Z :=
  let n := Z.of_nat (nat_of_ascii c) in
  let v :=
    if isDigit c then n - 48
    else if isLower c then n - 87
    else if isUpper c then n - 55
    else radix in
  if (v <? radix)%Z then Some v else None.

Fixpoint radixValue (radix : Z) (s : string) (acc : Z) : option Z :=
  match s with
  | String c s' =>
      match radixDigit radix c with
      | Some v => radixValue radix s' (acc * radix + v)
      | None => None
      end
  | EmptyString => Some acc
  end.

Definition nonDecimal (radix : Z) (digits : string) : number :=
  match digits with
  | EmptyString => NaN
  | _ => match radixValue radix digits 0 with
         | Some v => Fin (inject_Z v)
         | None => NaN
         end
  end.

(** [Number(s)] for a string [s] (the [StringToNumber] grammar). *)
Definition stringToNumber (s : string) : number :=
  let t := trim s in
  match t with
  | EmptyString => Fin 0
  | String "0" (String x digits) =>
      if Ascii.eqb x "x" || Ascii.eqb x "X" then nonDecimal 16 digits
      else if Ascii.eqb x "o" || Ascii.eqb x "O" then nonDecimal 8 digits
      else if Ascii.eqb x "b" || Ascii.eqb x "B" then nonDecimal 2 digits
      else match scanDecimal t with
           | Some (n, EmptyString) => n
           | _ => NaN
           end
  | _ => match scanDecimal t with
         | Some (n, EmptyString) => n
         | _ => NaN
         end
  end.

(** [parseFloat(s)] for a string [s]: the longest decimal prefix. *)
Definition parseFloat (s : string) : number :=
  match scanDecimal (trimStart s) with
  | Some (n, _) => n
  | None => NaN
  end.

(** ** Values and the heap *)

Definition ref := nat.

Inductive jsvalue : Type :=
| VUndefined
| VNull
| VBool (b : bool)
| VNum (n : number)
| VStr (s : string)
| VRef (r : ref).

(** A container is a plain object (its own enumerable properties, in the
    order of [Object.keys]) or an array. *)
Inductive object : Type :=
| Obj (props : list (string * jsvalue))
| Arr (elems : list jsvalue).

(** The heap: the container that a reference denotes is the entry at its
    index. A reference past the end denotes no container, and the searches
    return [null] on it. *)
Abbreviation heap := (list object).

Definition indexKey (i : nat) : string := NilZero.string_of_uint (Nat.to_uint i).

Definition entries (o : object) : list (string * jsvalue) :=
  match o with
  | Obj props => props
  | Arr elems => imap (fun i v => (indexKey i, v)) elems
  end.

(** [Object.keys(obj)]. *)
Definition objectKeys (o : object) : list string := map fst (entries o).

(** [obj[k]]. *)
Definition getProp (o : object) (k : string) : jsvalue :=
  match List.find (fun kv => String.eqb (fst kv) k) (entries o) with
  | Some kv => snd kv
  | None => VUndefined
  end.

Definition isArray (o : object) : bool :=
  match o with Arr _ => true | Obj _ => false end.

Definition arrayElems (o : object) : list jsvalue :=
  match o with Arr elems => elems | Obj _ => [] end.

(** [val && typeof val === 'object']. *)
Definition isContainer (v : jsvalue) : bool :=
  match v with VRef _ => true | _ => false end.

(** [val === undefined || val === null || val === '']. *)
Definition isEmptyValue (v : jsvalue) : bool :=
  match v with
  | VUndefined | VNull | VStr EmptyString => true
  | _ => false
  end.

(** ** The searches thread the set of visited containers *)

(** A computation over the [seen] set; [None] means that the bounded
    recursion ran out of steps. *)
Definition Search (A : Type) : Type := gset ref -> option (A * gset ref).

Definition ret {A} (a : A) : Search A := fun seen => Some (a, seen).

Definition bind {A B} (m : Search A) (f : A -> Search B) : Search B :=
  fun seen =>
    match m seen with
    | Some (a, seen') => f a seen'
    | None => None
    end.

Definition outOfFuel {A} : Search A := fun _ => None.

Definition seenHas (r : ref) : Search bool :=
  fun seen => Some (bool_decide (r ∈ seen), seen).

Definition seenAdd (r : ref) : Search unit :=
  fun seen => Some (tt, {[r]} ∪ seen).

Notation "x <- m ;; k" := (bind m (fun x => k))
  (at level 100, m at next level, right associativity).

(** A [for] loop whose body may [return]: the first hit ends the loop. *)
Fixpoint firstHit {A B} (body : A -> Search (option B)) (l : list A) : Search (option B) :=
  match l with
  | [] => ret None
  | x :: l' =>
      r <- body x ;;
      match r with
      | Some b => ret (Some b)
      | None => firstHit body l'
      end
  end.

(** The same loop when the body does not touch [seen]. *)
Fixpoint firstSome {A B} (body : A -> option B) (l : list A) : option B :=
  match l with
  | [] => None
  | x :: l' =>
      match body x with
      | Some b => Some b
      | None => firstSome body l'
      end
  end.

Definition PRECO_MIN_FALLBACK : number := Fin 15.

Record Located : Type := { key : string; value : jsvalue; path : list string }.

Definition isAlnum (c : ascii) : bool := isDigit c || isLower c || isUpper c.

(** [normalizeKey]: keeps letters and digits, lower case. *)
Definition normalizeKey (k : string) : string :=
  match k with
  | EmptyString => EmptyString
  | _ => trim (toLowerCase (filterChars isAlnum k))
  end.

(** The test of the inner loop of [findFieldRecursive]: some normalised
    candidate equals, contains or is contained in the normalised key. *)
Definition keyMatches (targetNorms : list string) (k : string) : bool :=
  let kn := normalizeKey k in
  existsb (fun tn => String.eqb kn tn || includes kn tn || includes tn kn) targetNorms.

(** First loop of [findFieldRecursive]: the keys of the current level. *)
Fixpoint levelScan (o : object) (targetNorms : list string) (path : list string)
    (keys : list string) : option Located :=
  match keys with
  | [] => None
  | k :: keys' =>
      let val := getProp o k in
      if isEmptyValue val then levelScan o targetNorms path keys'
      else if keyMatches targetNorms k then
        Some {| key := k; value := val; path := path ++ [k] |}
      else levelScan o targetNorms path keys'
  end.

Fixpoint findFieldRecursive (fuel : nat) (h : heap) (obj : jsvalue) (names : list string)
    (path : list string) : Search (option Located) :=
  match obj with
  | VRef r =>
      match h !! r with
      | None => ret None
      | Some o =>
          match fuel with
          | O => outOfFuel
          | S fuel' =>
              visited <- seenHas r ;;
              if visited : bool then ret None else
              _ <- seenAdd r ;;
              let keys := objectKeys o in
              let targetNorms := map normalizeKey names in
              match levelScan o targetNorms path keys with
              | Some found => ret (Some found)
              | None =>
                  firstHit (fun k =>
                    let val := getProp o k in
                    if isContainer val
                    then findFieldRecursive fuel' h val names (path ++ [k])
                    else ret None) keys
              end
          end
      end
  | _ => ret None
  end.

Definition tabelaFields : list string := ["Preco_med_prod"; "Preco_ens"; "Preco_med_out"].

Definition priorityKeys : list string :=
  ["Preco_med_prod"; "Preco_ens"; "Preco_med_out"; "Preco_med"; "Preco"; "preco";
   "preco_med"; "preco_ens"; "valor"; "Valor"; "valor_unitario"; "price"; "Price";
   "valor_unitario"].

(** [/preco|valor|price/i.test(k)]. *)
Definition priceLike (k : string) : bool :=
  let l := toLowerCase k in
  includes l "preco" || includes l "valor" || includes l "price".

(** [p && p > 0 ? p : null]. *)
Definition positive (p : option number) : option number :=
  match p with
  | Some n => if truthyNumber n && jgt n (Fin 0) then Some n else None
  | None => None
  end.

Section Host.

(** [String(x)] for a container [x] ([Array.prototype.join] or
    ["[object Object]"]) is computed by the host and is not embedded. *)
Variable containerToString : ref -> string.

(** [x || null] for a number [x]. *)
Definition orNull (n : number) : option number :=
  if truthyNumber n then Some n else None.

(** [parseToNumber] from [const s = String(raw).trim()] on, given the
    string [String(raw)]. *)
Definition parseText (text : string) : option number :=
  let s := trim text in
  match s with
  | EmptyString => None
  | _ =>
      let cleaned :=
        filterChars (fun c => negb (Ascii.eqb c "R" || Ascii.eqb c "$" || isWhiteSpace c)) s in
      if hasChar "," cleaned && hasChar "." cleaned then
        orNull (stringToNumber
                  (replaceFirst "," "." (filterChars (fun c => negb (Ascii.eqb c ".")) cleaned)))
      else if hasChar "," cleaned && negb (hasChar "." cleaned) then
        orNull (stringToNumber (replaceFirst "," "." cleaned))
      else
        let n := stringToNumber cleaned in
        if isNaN n then None else Some n
  end.

Definition parseToNumber (raw : jsvalue) : option number :=
  match raw with
  | VNull | VUndefined => None
  | VNum n => Some n
  | VStr s => parseText s
  | VBool b => parseText (if b then "true" else "false")
  | VRef r => parseText (containerToString r)
  end.

(** Step 2 of [findPriceInObject] for one priority key. *)
Definition priorityLookup (o : object) (k : string) : option number :=
  match List.find (fun x => String.eqb x k || String.eqb (toLowerCase x) (toLowerCase k))
                  (objectKeys o) with
  | Some lk =>
      if negb (String.eqb lk EmptyString) && negb (isEmptyValue (getProp o lk))
      then positive (parseToNumber (getProp o lk))
      else None
  | None => None
  end.

(** Step 3 for one key of the current level. *)
Definition priceLikeLookup (o : object) (k : string) : option number :=
  if priceLike k then positive (parseToNumber (getProp o k)) else None.

Fixpoint findPriceInObject (fuel : nat) (h : heap) (obj : jsvalue) : Search (option number) :=
  match obj with
  | VNull | VUndefined => ret None
  | VNum n => ret (if jgt n (Fin 0) then Some n else None)
  | VStr _ => ret (positive (parseToNumber obj))
  | VBool _ => ret None
  | VRef r =>
      match h !! r with
      | None => ret None
      | Some o =>
          match fuel with
          | O => outOfFuel
          | S fuel' =>
              visited <- seenHas r ;;
              if visited : bool then ret None else
              _ <- seenAdd r ;;
              tabelaFound <- findFieldRecursive fuel h obj tabelaFields [] ;;
              match positive (match tabelaFound with
                              | Some found => parseToNumber (value found)
                              | None => None
                              end) with
              | Some parsedTabela => ret (Some parsedTabela)
              | None =>
              match firstSome (priorityLookup o) priorityKeys with
              | Some parsed => ret (Some parsed)
              | None =>
              match firstSome (priceLikeLookup o) (objectKeys o) with
              | Some parsed => ret (Some parsed)
              | None =>
                  inArray <-
                    (if isArray o
                     then firstHit (fun el =>
                            nested <- findPriceInObject fuel' h el ;;
                            ret (positive nested)) (arrayElems o)
                     else ret None) ;;
                  match inArray with
                  | Some nested => ret (Some nested)
                  | None =>
                      firstHit (fun k =>
                        let val := getProp o k in
                        if isContainer val then
                          nested <- findPriceInObject fuel' h val ;;
                          ret (positive nested)
                        else ret (positive (parseToNumber val))) (objectKeys o)
                  end
              end
              end
              end
          end
      end
  end.

(** [calcPrecoMinFromBase]: 115% of the base price, rounded to cents (in
    exact arithmetic; [calcPrecoMinFromBase_binary64] below is the same
    function on doubles). *)
Definition calcPrecoMinFromBase (base : jsvalue) : number :=
  match parseToNumber base with
  | None => PRECO_MIN_FALLBACK
  | Some b =>
      if negb (truthyNumber b) || jle b (Fin 0) then PRECO_MIN_FALLBACK
      else jdiv (mathRound (jmul (jmul b (Fin 1.15)) (Fin 100))) (Fin 100)
  end.

(** Enough steps for a search that starts with an empty [seen] set. *)
Definition searchFuel (h : heap) : nat := S (length h).

(** A top-level call: default [seen = new Set()], the final set dropped. *)
Definition run {A} (m : Search A) : option A := fst <$> m ∅.

(** The price part of the product that [normalize] builds (its
    [precoMin] is named [productPrecoMin] here, apart from the row's). *)
Record Product : Type := {
  precoBase : option number;
  productPrecoMin : number;
  precoBaseSource : option string;
  precoBasePath : option (list string)
}.

(** [null] and [undefined]: reading a property of these throws a
    [TypeError]. *)
Definition isNullish (v : jsvalue) : bool :=
  match v with VNull | VUndefined => true | _ => false end.

Definition needsGenericSearch (precoBaseFound : option number) : bool :=
  match precoBaseFound with
  | None => true
  | Some n => negb (truthyNumber n) || jle n (Fin 0)
  end.

(** [normalize], the price part. There is no product ([None]) for [null]
    and [undefined], on which the source throws a [TypeError] at [it.id];
    on every other value the two searches return (with [searchFuel] steps
    they never run out, see [normalize_returns]) and a product is built.
    The [precoMin] of the product is computed in exact arithmetic. *)
Definition normalize (h : heap) (it : jsvalue) : option Product :=
  if isNullish it then None else
  match run (findFieldRecursive (searchFuel h) h it tabelaFields []) with
  | None => None
  | Some tabelaFound =>
      let precoBaseFound :=
        match tabelaFound with Some f => parseToNumber (value f) | None => None end in
      let precoBaseSource := key <$> tabelaFound in
      let precoBasePath := path <$> tabelaFound in
      let finish (base : option number) source pth :=
        {| precoBase := base;
           productPrecoMin := match positive base with
                       | Some b => calcPrecoMinFromBase (VNum b)
                       | None => PRECO_MIN_FALLBACK
                       end;
           precoBaseSource := source;
           precoBasePath := pth |} in
      if needsGenericSearch precoBaseFound then
        match run (findPriceInObject (searchFuel h) h it) with
        | None => None
        | Some nested =>
            match nested with
            | Some n =>
                if truthyNumber n
                then Some (finish nested (Some "(found by generic search)") None)
                else Some (finish precoBaseFound precoBaseSource precoBasePath)
            | None => Some (finish precoBaseFound precoBaseSource precoBasePath)
            end
        end
      else Some (finish precoBaseFound precoBaseSource precoBasePath)
  end.

(** The price extractor: the base price that [normalize] settles on. *)
Definition extractBasePrice (h : heap) (it : jsvalue) : option (option number) :=
  precoBase <$> normalize h it.

End Host.

(** ** Order lines *)

Record Row : Type := {
  id : string;
  produtoId : option string;
  produtoNome : string;
  quantidade : number;
  precoUnit : string;
  precoMin : number
}.

(** [addRow(selectedProduct = null, qty = 1)]; the generated identifier is
    supplied by the caller, and a selected product is given by its [id],
    [nome] and [precoMin]. *)
Definition addRow (newId : string) (selectedProduct : option (string * string * number))
    (qty : number) (rows : list Row) : list Row :=
  rows ++ [{| id := newId;
              produtoId := (fun p => fst (fst p)) <$> selectedProduct;
              produtoNome := match selectedProduct with
                             | Some p => snd (fst p)
                             | None => EmptyString
                             end;
              quantidade := qty;
              precoUnit := EmptyString;
              precoMin := match selectedProduct with
                          | Some p => snd p
                          | None => PRECO_MIN_FALLBACK
                          end |}].

(** The call that the form makes: [addRow()]. *)
Definition addRowDefault (newId : string) (rows : list Row) : list Row :=
  addRow newId None (Fin 1) rows.

Definition removeRow (rowId : string) (rows : list Row) : list Row :=
  List.filter (fun r => negb (String.eqb (id r) rowId)) rows.

(** [moveRowUp(index)] and [moveRowDown(index)] for the position of a
    rendered row ([index < rows.length], the only indices that the form
    passes; past the end JavaScript would write an [undefined] entry, which a
    list of rows does not have). *)
Definition moveRowUp (index : nat) (rows : list Row) : list Row :=
  match index with
  | O => rows
  | S i =>
      match rows !! i, rows !! index with
      | Some a, Some b => <[i := b]> (<[index := a]> rows)
      | _, _ => rows
      end
  end.

Definition moveRowDown (index : nat) (rows : list Row) : list Row :=
  if (length rows - 1 <=? index)%nat then rows
  else
    match rows !! index, rows !! S index with
    | Some a, Some b => <[S index := a]> (<[index := b]> rows)
    | _, _ => rows
    end.

Definition onQuantidadeChange (rowId : string) (q : number) (rows : list Row) : list Row :=
  map (fun r =>
         if String.eqb (id r) rowId then
           {| id := id r; produtoId := produtoId r; produtoNome := produtoNome r;
              quantidade := q; precoUnit := precoUnit r; precoMin := precoMin r |}
         else r) rows.

(** The quantity field: [onQuantidadeChange(r.id, Number(e.target.value || 1))]. *)
Definition quantidadeInput (rowId : string) (text : string) (rows : list Row) : list Row :=
  onQuantidadeChange rowId
    (match text with EmptyString => Fin 1 | _ => stringToNumber text end) rows.

Definition onPrecoUnitChange (rowId : string) (preco : string) (rows : list Row) : list Row :=
  map (fun r =>
         if String.eqb (id r) rowId then
           {| id := id r; produtoId := produtoId r; produtoNome := produtoNome r;
              quantidade := quantidade r; precoUnit := preco; precoMin := precoMin r |}
         else r) rows.

(** The end of [onSelectSuggestion]:
    [if (!precoMinCalc || precoMinCalc <= 0) precoMinCalc = PRECO_MIN_FALLBACK]. *)
Definition guardPrecoMin (precoMinCalc : option number) : number :=
  match precoMinCalc with
  | Some n => if negb (truthyNumber n) || jle n (Fin 0) then PRECO_MIN_FALLBACK else n
  | None => PRECO_MIN_FALLBACK
  end.

(** The state update that ends [onSelectSuggestion]; [precoMinCalc] is what
    the local derivation and the price lookups have found, if anything. *)
Definition selectProduct (rowId : string) (produtoIdStr nomeProduto : string)
    (precoMinCalc : option number) (rows : list Row) : list Row :=
  map (fun r =>
         if String.eqb (id r) rowId then
           {| id := id r; produtoId := Some produtoIdStr; produtoNome := nomeProduto;
              quantidade := quantidade r; precoUnit := precoUnit r;
              precoMin := guardPrecoMin precoMinCalc |}
         else r) rows.

(** Choosing the empty option of the product list. *)
Definition clearProduct (rowId : string) (rows : list Row) : list Row :=
  map (fun r =>
         if String.eqb (id r) rowId then
           {| id := id r; produtoId := None; produtoNome := EmptyString;
              quantidade := quantidade r; precoUnit := precoUnit r;
              precoMin := PRECO_MIN_FALLBACK |}
         else r) rows.

(** The product list when the chosen option is no product of the
    catalogue: [{ ...row, produtoId: String(id), produtoNome: selectedText }]. *)
Definition selectUnlisted (rowId : string) (optionValue selectedText : string)
    (rows : list Row) : list Row :=
  map (fun r =>
         if String.eqb (id r) rowId then
           {| id := id r; produtoId := Some optionValue; produtoNome := selectedText;
              quantidade := quantidade r; precoUnit := precoUnit r; precoMin := precoMin r |}
         else r) rows.

(** The drafts of the form: [rows] starts as the empty list and changes
    only through the calls of [setRows], which are the operations above
    (a row is moved by the buttons of a rendered row, so at an index below
    the number of rows; [onSelectSuggestion] ends in [selectProduct] with
    whatever minimum it has found). *)
Inductive formDraft : list Row -> Prop :=
| draft_initial : formDraft []
| draft_addRow (newId : string) (rows : list Row) :
    formDraft rows -> formDraft (addRowDefault newId rows)
| draft_removeRow (rowId : string) (rows : list Row) :
    formDraft rows -> formDraft (removeRow rowId rows)
| draft_moveRowUp (index : nat) (rows : list Row) :
    (index < length rows)%nat -> formDraft rows -> formDraft (moveRowUp index rows)
| draft_moveRowDown (index : nat) (rows : list Row) :
    (index < length rows)%nat -> formDraft rows -> formDraft (moveRowDown index rows)
| draft_quantidade (rowId text : string) (rows : list Row) :
    formDraft rows -> formDraft (quantidadeInput rowId text rows)
| draft_precoUnit (rowId preco : string) (rows : list Row) :
    formDraft rows -> formDraft (onPrecoUnitChange rowId preco rows)
| draft_select (rowId produtoIdStr nomeProduto : string) (precoMinCalc : option number)
    (rows : list Row) :
    formDraft rows -> formDraft (selectProduct rowId produtoIdStr nomeProduto precoMinCalc rows)
| draft_clear (rowId : string) (rows : list Row) :
    formDraft rows -> formDraft (clearProduct rowId rows)
| draft_unlisted (rowId optionValue selectedText : string) (rows : list Row) :
    formDraft rows -> formDraft (selectUnlisted rowId optionValue selectedText rows).

(** ** The submission gate *)

(** [parseFloat(r.precoUnit || 0)]. *)
Definition enteredPrice (r : Row) : number :=
  match precoUnit r with
  | EmptyString => Fin 0
  | s => parseFloat s
  end.

(** [Number(r.precoMin) || PRECO_MIN_FALLBACK]. *)
Definition effectiveMin (r : Row) : number :=
  if truthyNumber (precoMin r) then precoMin r else PRECO_MIN_FALLBACK.

Definition belowMin (r : Row) : bool :=
  let val := enteredPrice r in
  jgt val (Fin 0) && jlt val (effectiveMin r).

Definition priceBelowMinExists (rows : list Row) : bool := existsb belowMin rows.

Inductive GateState : Type := valid | blocked.

(** [enviarWhatsApp] returns early, and the button is disabled, exactly
    when [priceBelowMinExists()]. *)
Definition gate (rows : list Row) : GateState :=
  if priceBelowMinExists rows then blocked else valid.

(** ** Definitions used to state the properties *)

(** A host conversion for the concrete examples: every container is a
    plain object. *)
Definition plainHost : ref -> string := fun _ => "[object Object]".

(** [r] is the number [q]. *)
Definition returnsNumber (r : option number) (q : Q) : Prop :=
  exists x, r = Some (Fin x) /\ Qeq x q.


(** The inputs that the contract of the numeric parser lists. *)
Inductive ParserInput : Type :=
| Absent
| NotDefined
| NumberInput (n : number)
| StringInput (s : string).

Definition inputValue (i : ParserInput) : jsvalue :=
  match i with
  | Absent => VNull
  | NotDefined => VUndefined
  | NumberInput n => VNum n
  | StringInput s => VStr s
  end.

Definition isNoValueOrNumber (r : option number) : bool :=
  match r with
  | Some NaN => false
  | _ => true
  end.

(** The rules of the numeric parser as its description words them: the
    number that the cleaned text converts to under the comma and dot rules,
    and no value only when the conversion is not a number. *)
Definition parseTextAsDescribed (text : string) : option number :=
  let s := trim text in
  match s with
  | EmptyString => None
  | _ =>
      let cleaned :=
        filterChars (fun c => negb (Ascii.eqb c "R" || Ascii.eqb c "$" || isWhiteSpace c)) s in
      let n :=
        if hasChar "," cleaned && hasChar "." cleaned then
          stringToNumber
            (replaceFirst "," "." (filterChars (fun c => negb (Ascii.eqb c ".")) cleaned))
        else if hasChar "," cleaned && negb (hasChar "." cleaned) then
          stringToNumber (replaceFirst "," "." cleaned)
        else stringToNumber cleaned in
      if isNaN n then None else Some n
  end.

(** Rounding to two decimal places, half away from zero, as the
    description of the minimum-price deriver words it. *)
Definition roundHalfAwayFromZero2 (x : Q) : Q :=
  if Qlt_le_dec x 0
  then - (inject_Z (Qfloor (- x * 100 + (1 # 2))) / 100)
  else inject_Z (Qfloor (x * 100 + (1 # 2))) / 100.

(** An absent ([null]) or non-positive base price. *)
Definition absentOrNonPositive (p : option number) : bool :=
  match p with
  | None => true
  | Some n => jle n (Fin 0)
  end.

(** A line of the draft with the given entered price and stored minimum. *)
Definition lineWith (entered : string) (minimum : number) : Row :=
  {| id := "l1"; produtoId := Some "7"; produtoNome := "MILHO 48 KG";
     quantidade := Fin 1; precoUnit := entered; precoMin := minimum |}.

(** The entered price is positive and below the stored minimum of the line. *)
Definition belowStoredMin (r : Row) : bool :=
  jgt (enteredPrice r) (Fin 0) && jlt (enteredPrice r) (precoMin r).

(** The minimum that counts for a line: the stored one, or 15.0 when the
    stored one is 0 or not a number. *)
Definition minimumOrFallback (r : Row) : number :=
  match precoMin r with
  | NaN => Fin 15
  | Inf s => Inf s
  | Fin q => if Qeq_bool q 0 then Fin 15 else Fin q
  end.

(** The stored minimum is 0 or not a number. *)
Definition zeroOrNaN (n : number) : bool :=
  match n with
  | NaN => true
  | Inf _ => false
  | Fin q => Qeq_bool q 0
  end.

(** The invariant of an order line: quantity at least 1. *)
Definition quantityOk (r : Row) : bool := jle (Fin 1) (quantidade r).

(** The cents of the derived minimum of a finite positive base price. *)
Definition derivedCents (b : Q) : Z :=
  Qfloor (Qred (Qred (b * 1.15) * 100) + (1 # 2)).

(** The references that denote a container of the heap. *)
Definition heapRefs (h : heap) : gset ref := list_to_set (seq 0 (length h)).

(** The number of containers of the heap that a search has not visited. *)
Definition unseen (h : heap) (seen : gset ref) : nat := size (heapRefs h ∖ seen).

(** [reachable h v r]: the container [r] is [v] or lies at some depth
    below it. *)
Inductive reachable (h : heap) : jsvalue -> ref -> Prop :=
| reach_here (r : ref) : reachable h (VRef r) r
| reach_step (r : ref) (o : object) (k : string) (r' : ref) :
    h !! r = Some o -> In k (objectKeys o) ->
    reachable h (getProp o k) r' -> reachable h (VRef r) r'.

(** The normalised tabela candidates. *)
Definition tabelaNorms : list string := map normalizeKey tabelaFields.



(** A property that the first loop of the locator passes over: its value
    is empty or its key matches no candidate. *)
Definition passedOver (targetNorms : list string) (kv : string * jsvalue) : bool :=
  isEmptyValue (snd kv) || negb (keyMatches targetNorms (fst kv)).

(** What [findPriceInObject] returns for a value that is not a container. *)
Definition scalarPrice (containerToString : ref -> string) (v : jsvalue) : option number :=
  match v with
  | VNum n => if jgt n (Fin 0) then Some n else None
  | VStr _ => positive (parseToNumber containerToString v)
  | _ => None
  end.

(** A value met by a finished visit: a container of the heap has been
    visited, anything else gave no hit. *)
Definition childDone (h : heap) (seen : gset ref) (v : jsvalue)
    (scalarResult : option number) : Prop :=
  match v with
  | VRef r => is_Some (h !! r) -> r ∈ seen
  | _ => scalarResult = None
  end.

(** The visited containers that do not enclose the current one have been
    searched to the end without a hit: no key of theirs matches, and their
    containers have been visited. *)
Definition fieldDone (h : heap) (names : list string) (seen enclosing : gset ref) : Prop :=
  forall (b : ref) (o : object),
    b ∈ seen -> b ∉ enclosing -> h !! b = Some o ->
    levelScan o (map normalizeKey names) [] (objectKeys o) = None /\
    (forall k, In k (objectKeys o) -> childDone h seen (getProp o k) None).

Definition priceDone (containerToString : ref -> string) (h : heap)
    (seen enclosing : gset ref) : Prop :=
  forall (b : ref) (o : object),
    b ∈ seen -> b ∉ enclosing -> h !! b = Some o ->
    firstSome (priorityLookup containerToString o) priorityKeys = None /\
    firstSome (priceLikeLookup containerToString o) (objectKeys o) = None /\
    (isArray o = true ->
     forall el, In el (arrayElems o) ->
                childDone h seen el (positive (scalarPrice containerToString el))) /\
    (forall k, In k (objectKeys o) ->
               childDone h seen (getProp o k)
                 (positive (parseToNumber containerToString (getProp o k)))).

(** ** The search of the unfolded record

    The reference searches below are the same algorithms run on the
    unfolding of the record into a tree: a reference is not followed only
    when it points to a container that encloses the current one (a genuine
    cycle), so every cycle-free part of the record is searched in full,
    shared containers as often as they occur. *)

Fixpoint firstOf {A B} (body : A -> option (option B)) (l : list A) : option (option B) :=
  match l with
  | [] => Some None
  | x :: l' =>
      match body x with
      | None => None
      | Some (Some b) => Some (Some b)
      | Some None => firstOf body l'
      end
  end.

Fixpoint findFieldUnfolded (fuel : nat) (h : heap) (obj : jsvalue) (names : list string)
    (path : list string) (enclosing : gset ref) : option (option Located) :=
  match obj with
  | VRef r =>
      match h !! r with
      | None => Some None
      | Some o =>
          match fuel with
          | O => None
          | S fuel' =>
              if bool_decide (r ∈ enclosing) then Some None else
              match levelScan o (map normalizeKey names) path (objectKeys o) with
              | Some found => Some (Some found)
              | None =>
                  firstOf (fun k =>
                    let val := getProp o k in
                    if isContainer val
                    then findFieldUnfolded fuel' h val names (path ++ [k]) ({[r]} ∪ enclosing)
                    else Some None) (objectKeys o)
              end
          end
      end
  | _ => Some None
  end.

Section HostUnfolded.

Variable containerToString : ref -> string.

Fixpoint findPriceUnfolded (fuel : nat) (h : heap) (obj : jsvalue)
    (enclosing : gset ref) : option (option number) :=
  match obj with
  | VNull | VUndefined => Some None
  | VNum n => Some (if jgt n (Fin 0) then Some n else None)
  | VStr _ => Some (positive (parseToNumber containerToString obj))
  | VBool _ => Some None
  | VRef r =>
      match h !! r with
      | None => Some None
      | Some o =>
          match fuel with
          | O => None
          | S fuel' =>
              if bool_decide (r ∈ enclosing) then Some None else
              match findFieldUnfolded fuel h obj tabelaFields [] ({[r]} ∪ enclosing) with
              | None => None
              | Some tabelaFound =>
              match positive (match tabelaFound with
                              | Some found => parseToNumber containerToString (value found)
                              | None => None
                              end) with
              | Some parsedTabela => Some (Some parsedTabela)
              | None =>
              match firstSome (priorityLookup containerToString o) priorityKeys with
              | Some parsed => Some (Some parsed)
              | None =>
              match firstSome (priceLikeLookup containerToString o) (objectKeys o) with
              | Some parsed => Some (Some parsed)
              | None =>
                  match (if isArray o
                         then firstOf (fun el =>
                                positive <$> findPriceUnfolded fuel' h el ({[r]} ∪ enclosing))
                                (arrayElems o)
                         else Some None) with
                  | None => None
                  | Some (Some nested) => Some (Some nested)
                  | Some None =>
                      firstOf (fun k =>
                        let val := getProp o k in
                        if isContainer val
                        then positive <$> findPriceUnfolded fuel' h val ({[r]} ∪ enclosing)
                        else Some (positive (parseToNumber containerToString val)))
                        (objectKeys o)
                  end
              end
              end
              end
              end
          end
      end
  end.

End HostUnfolded.

(** ** The minimum-price formula on IEEE-754 doubles

    [calcPrecoMinFromBase] multiplies and divides JavaScript numbers, that
    is binary64 floating-point numbers, each operation rounded to nearest
    (ties to even). This section embeds the function on the binary64 numbers
    of the standard library's specification of IEEE-754, to evaluate it
    where the rounding of the products matters. *)

Definition prec64 : Z := 53.
Definition emax64 : Z := 1024.

(** The double nearest to [m * 2^e]. *)
Definition doubleOfZ (m e : Z) : spec_float := binary_normalize prec64 emax64 m e false.

Definition doubleOfInt (n : Z) : spec_float := doubleOfZ n 0.

Definition doubleMul : spec_float -> spec_float -> spec_float := SFmul prec64 emax64.
Definition doubleDiv : spec_float -> spec_float -> spec_float := SFdiv prec64 emax64.

(** The literal [1.15]: the double nearest to 115/100. *)
Definition double_1_15 : spec_float := doubleDiv (doubleOfInt 115) (doubleOfInt 100).

(** [Math.round] on a double: the nearest integer, ties towards plus
    infinity; a double with a non-negative exponent is an integer. *)
Definition doubleRound (x : spec_float) : spec_float :=
  match x with
  | S754_finite s m e =>
      if (0 <=? e)%Z then x
      else
        let q := Qmake (if s then Z.neg m else Z.pos m) (Z.to_pos (2 ^ (- e))) in
        let n := Qfloor (q + (1 # 2)) in
        if (n =? 0)%Z then S754_zero s else doubleOfInt n
  | _ => x
  end.

Definition doubleTruthy (x : spec_float) : bool :=
  match x with
  | S754_zero _ | S754_nan => false
  | _ => true
  end.

(** [calcPrecoMinFromBase] on a base price that is already a number. *)
Definition calcPrecoMinFromBase_binary64 (b : spec_float) : spec_float :=
  if negb (doubleTruthy b) || SFleb b (S754_zero false) then doubleOfInt 15
  else doubleDiv (doubleRound (doubleMul (doubleMul b double_1_15) (doubleOfInt 100)))
                 (doubleOfInt 100).

(** ** Rounding on binary64 *)

(** The notions below describe the rounding of [SpecFloat] in terms of
    rationals; they serve the proofs about
    [calcPrecoMinFromBase_binary64], whose statements do not mention them. *)

(** [m * 2^e]. *)
Definition scaled (m e : Z) : Q := (inject_Z m * 2 ^ e)%Q.

(** The real [x] lies at location [l] of the interval of the multiples
    [m] and [m + 1] of [2^e]. *)
Definition placed (x : Q) (m e : Z) (l : location) : Prop :=
  match l with
  | loc_Exact => (x == scaled m e)%Q
  | loc_Inexact Lt => (scaled m e < x /\ 2 * x < scaled (2 * m + 1) e)%Q
  | loc_Inexact Eq => (2 * x == scaled (2 * m + 1) e)%Q
  | loc_Inexact Gt => (scaled (2 * m + 1) e < 2 * x /\ x < scaled (m + 1) e)%Q
  end.

(** [x] lies in the binade below [2^D]. *)
Definition mag (x : Q) (D : Z) : Prop := (2 ^ (D - 1) <= x /\ x < 2 ^ D)%Q.

(** What normalisation returns for the multiple [n] of [2^E]. *)
Definition outcome (n E : Z) (out : spec_float) : Prop :=
  (n = 0 /\ out = S754_zero false) \/
  (0 < n /\
   ((exists mo eo, out = S754_finite false mo eo /\ bounded prec64 emax64 mo eo = true /\
        (scaled (Z.pos mo) eo == scaled n E)%Q) \/
    (out = S754_infinity false /\ (2 ^ 1024 <= scaled n E)%Q))).

(** [out] is the binary64 number nearest to the positive real [x]. *)
Definition roundsTo (x : Q) (out : spec_float) : Prop :=
  exists (D m1 : Z) (l1 : location),
    mag x D /\ placed x m1 (fexp prec64 emax64 D) l1 /\ 0 <= m1 /\
    outcome (round_nearest_even m1 l1) (fexp prec64 emax64 D) out.

(** [+0], [+infinity] and the positive canonical numbers that [dom]
    admits. *)
Definition inClass (dom : BinNums.positive -> Z -> Prop) (x : spec_float) : Prop :=
  x = S754_zero false \/
  (exists m e, x = S754_finite false m e /\ bounded prec64 emax64 m e = true /\ dom m e) \/
  x = S754_infinity false.

Definition anyNumber (m : BinNums.positive) (e : Z) : Prop := True.

(** The numbers from 1 on. *)
Definition atLeastOne (m : BinNums.positive) (e : Z) : Prop := 1 <= Z.pos (digits2_pos m) + e.

Definition nonNegative (out : spec_float) : Prop := inClass anyNumber out.

(** [Math.round] of the value [v] is the double [out]. *)
Definition roundedTo (v : Q) (out : spec_float) : Prop :=
  (Qfloor (v + (1 # 2)) = 0 /\ out = S754_zero false) \/
  (0 < Qfloor (v + (1 # 2)) /\
   exists mo eo, out = S754_finite false mo eo /\ bounded prec64 emax64 mo eo = true /\
     (scaled (Z.pos mo) eo == inject_Z (Qfloor (v + (1 # 2))))%Q).

(** The divisor [100] as a double. *)
Definition hundred : BinNums.positive := 7036874417766400.

(** ** Records of the examples *)

(** [{a: {b: {Preco_ens: "50,00"}}}]. *)
Definition nestedEns : heap :=
  [Obj [("a", VRef 1%nat)]; Obj [("b", VRef 2%nat)]; Obj [("Preco_ens", VStr "50,00")]].

(** [{Preco_ens: "", a: {Preco_ens: "50,00"}}]. *)
Definition emptyFirstLevel : heap :=
  [Obj [("Preco_ens", VStr ""); ("a", VRef 1%nat)]; Obj [("Preco_ens", VStr "50,00")]].


Definition valorThenTabela : heap :=
  [Obj [("valor", VStr "999"); ("Preco_med_prod", VStr "80")]].

(** [{valor: "999", sub: {Preco_med_prod: "80"}}]. *)
Definition valorAboveTabela : heap :=
  [Obj [("valor", VStr "999"); ("sub", VRef 1%nat)]; Obj [("Preco_med_prod", VStr "80")]].





(** A record that contains itself:
    [o = {self: o, itens: [o, {valor: "12,50", dono: o}]}]. *)
Definition cyclicRecord : heap :=
  [Obj [("self", VRef 0%nat); ("itens", VRef 1%nat)];
   Arr [VRef 0%nat; VRef 2%nat];
   Obj [("valor", VStr "12,50"); ("dono", VRef 0%nat)]].

(** The same record with every reference back to [o] replaced by an empty
    object: [{self: {}, itens: [{}, {valor: "12,50", dono: {}}]}]. *)
Definition cyclicRecordCut : heap :=
  [Obj [("self", VRef 3%nat); ("itens", VRef 1%nat)];
   Arr [VRef 4%nat; VRef 2%nat];
   Obj [("valor", VStr "12,50"); ("dono", VRef 5%nat)];
   Obj []; Obj []; Obj []].

(** ** The price search of the previous version of the component

    The file keeps the previous version of the component, whose
    [findPriceInObject] goes straight from the [seen] bookkeeping to the
    priority keys: it has no tabela step. *)

Module Previous.

Section Host.

Variable containerToString : ref -> string.

Fixpoint findPriceInObject (fuel : nat) (h : heap) (obj : jsvalue) : Search (option number) :=
  match obj with
  | VNull | VUndefined => ret None
  | VNum n => ret (if jgt n (Fin 0) then Some n else None)
  | VStr _ => ret (positive (parseToNumber containerToString obj))
  | VBool _ => ret None
  | VRef r =>
      match h !! r with
      | None => ret None
      | Some o =>
          match fuel with
          | O => outOfFuel
          | S fuel' =>
              visited <- seenHas r ;;
              if visited : bool then ret None else
              _ <- seenAdd r ;;
              match firstSome (priorityLookup containerToString o) priorityKeys with
              | Some parsed => ret (Some parsed)
              | None =>
              match firstSome (priceLikeLookup containerToString o) (objectKeys o) with
              | Some parsed => ret (Some parsed)
              | None =>
                  inArray <-
                    (if isArray o
                     then firstHit (fun el =>
                            nested <- findPriceInObject fuel' h el ;;
                            ret (positive nested)) (arrayElems o)
                     else ret None) ;;
                  match inArray with
                  | Some nested => ret (Some nested)
                  | None =>
                      firstHit (fun k =>
                        let val := getProp o k in
                        if isContainer val then
                          nested <- findPriceInObject fuel' h val ;;
                          ret (positive nested)
                        else ret (positive (parseToNumber containerToString val)))
                        (objectKeys o)
                  end
              end
              end
          end
      end
  end.

End Host.

End Previous.

(** ** Totals, the warning of a line and the postal-code lookup *)

(** [a + b]. *)
Definition jadd (a b : number) : number :=
  match a, b with
  | NaN, _ | _, NaN => NaN
  | Inf s, Inf t => if Bool.eqb s t then Inf s else NaN
  | Inf s, Fin _ | Fin _, Inf s => Inf s
  | Fin x, Fin y => Fin (Qred (x + y))
  end.

(** [Number(r.quantidade || 1)]. *)
Definition billedQuantity (r : Row) : number :=
  if truthyNumber (quantidade r) then quantidade r else Fin 1.

(** The callback of the [reduce] of [calcularTotal]. *)
Definition addLine (acc : number) (r : Row) : number :=
  let preco := enteredPrice r in
  let q := billedQuantity r in
  if jgt preco (Fin 0) then jadd acc (jmul preco q) else acc.

Definition calcularTotal (rows : list Row) : number := fold_left addLine rows (Fin 0).

(** The condition under which the price field of a line is drawn in red
    with the text "Preço abaixo do mínimo":
    [r.precoUnit && parseFloat(r.precoUnit) > 0 &&
     parseFloat(r.precoUnit) < (Number(r.precoMin) || PRECO_MIN_FALLBACK)]. *)
Definition showsWarning (r : Row) : bool :=
  match precoUnit r with
  | EmptyString => false
  | s => jgt (parseFloat s) (Fin 0) && jlt (parseFloat s) (effectiveMin r)
  end.

(** What the "Buscar" button of the postal code does with the text of the
    field: one of two alerts, or the request of the address. *)
Inductive CepAction : Type :=
| AlertCepMissing
| AlertCepInvalid
| FetchCep (url : string).

Definition buscarCep (cepText : string) : CepAction :=
  let raw := filterChars isDigit cepText in
  match raw with
  | EmptyString => AlertCepMissing
  | _ =>
      if negb (String.length raw =? 8)%nat then AlertCepInvalid
      else FetchCep ("https://viacep.com.br/ws/" ++ raw ++ "/json/")%string
  end.

Fixpoint allChars (p : ascii -> bool) (s : string) : bool :=
  match s with
  | String c s' => p c && allChars p s'
  | EmptyString => true
  end.

(** ** The message and the order that is posted

    Texts outside ASCII are the UTF-8 bytes of the source file. *)

(** The fields of the form other than the lines. *)
Record Form : Type := {
  nome : string;
  cep : string;
  rua : string;
  numero : string;
  bairro : string;
  cidade : string;
  complemento : string;
  pagamento : string
}.

(** [s || d] for a string [s]. *)
Definition orElse (s d : string) : string :=
  match s with EmptyString => d | _ => s end.

(** [if (s) parts.push(prefix + s)]. *)
Definition pushIf (prefix s : string) : list string :=
  match s with EmptyString => [] | _ => [(prefix ++ s)%string] end.

Definition enderecoParts (f : Form) : list string :=
  pushIf "" (rua f) ++ pushIf "nº " (numero f) ++ pushIf "Compl: " (complemento f) ++
  pushIf "" (bairro f) ++ pushIf "" (cidade f).

Definition endereco (f : Form) : string :=
  match enderecoParts f with
  | [] => "[endereço não informado]"
  | parts => String.concat " - " parts
  end.

Definition hasProduct (r : Row) : bool := negb (String.eqb (produtoNome r) EmptyString).

Section Preview.

(** [num.toLocaleString('pt-BR', { style: 'currency', currency: 'BRL' })]
    and the conversion of a number in a template are computed by the host. *)
Variable toLocaleString : number -> string.
Variable numberToString : number -> string.

Definition formatCurrency (n : number) : string :=
  toLocaleString (if truthyNumber n then n else Fin 0).

(** The line of a row that has a product, with its number [idx]. *)
Definition itemLine (idx : nat) (r : Row) : string :=
  let q := billedQuantity r in
  let preco := enteredPrice r in
  let line :=
    (indexKey idx ++ ". " ++ produtoNome r ++ " — " ++ numberToString q ++ "x")%string in
  if jgt preco (Fin 0) then
    (line ++ " @ " ++ formatCurrency preco ++ " cada = " ++ formatCurrency (jmul preco q))%string
  else
    (line ++ " @ preço não informado (mínimo " ++ formatCurrency (precoMin r) ++ ")")%string.

(** The [forEach] of [montarMensagem], [idx] being its counter. *)
Fixpoint itemLines (idx : nat) (rows : list Row) : list string :=
  match rows with
  | [] => []
  | r :: rows' =>
      if hasProduct r then itemLine idx r :: itemLines (S idx) rows'
      else itemLines idx rows'
  end.

Definition messageLines (f : Form) (rows : list Row) : list string :=
  ["*Novo pedido*"; ("Nome: " ++ orElse (nome f) "[não informado]")%string] ++
  match rows with
  | [] => ["Item: [não informado]"]
  | _ => "Itens:" :: itemLines 1 rows
  end ++
  [("Endereço: " ++ endereco f)%string] ++
  pushIf "CEP: " (cep f) ++
  [("Método de pagamento: " ++ orElse (pagamento f) "[não informado]")%string].

Definition montarMensagem (f : Form) (rows : list Row) : string :=
  String.concat (String "010" EmptyString) (messageLines f rows).

End Preview.

(** The items of the order that [enviarWhatsApp] posts. *)
Module Pedido.

Record Item : Type := {
  produtoId : option string;
  produtoNome : string;
  quantidade : number;
  precoUnitario : option number
}.

End Pedido.

Definition payloadItens (rows : list Row) : list Pedido.Item :=
  map (fun r =>
         {| Pedido.produtoId := produtoId r;
            Pedido.produtoNome := produtoNome r;
            Pedido.quantidade := billedQuantity r;
            Pedido.precoUnitario :=
              match precoUnit r with
              | EmptyString => None
              | s => Some (stringToNumber s)
              end |})
      (List.filter hasProduct rows).

(** ** The selection of a product *)

(** A product of the catalogue [produtosGlobais]: the identifier, name and
    code that [normalize] stores with the price part, and the record it was
    built from. *)
Record CatalogueProduct : Type := {
  productId : string;
  productNome : string;
  productCodigo : jsvalue;
  price : Product;
  raw : jsvalue
}.

(** Truthiness of a value. *)
Definition truthy (v : jsvalue) : bool :=
  match v with
  | VUndefined | VNull => false
  | VBool b => b
  | VNum n => truthyNumber n
  | VStr s => negb (String.eqb s EmptyString)
  | VRef _ => true
  end.

(** [v[k]] for a value [v] that is not [null] or [undefined]. *)
Definition readProp (h : heap) (v : jsvalue) (k : string) : jsvalue :=
  match v with
  | VRef r => match h !! r with Some o => getProp o k | None => VUndefined end
  | _ => VUndefined
  end.

(** [v.k1 ?? v.k2 ?? ... ?? null]. *)
Fixpoint firstDefined (h : heap) (v : jsvalue) (keys : list string) : jsvalue :=
  match keys with
  | [] => VNull
  | k :: keys' =>
      match readProp h v k with
      | VUndefined | VNull => firstDefined h v keys'
      | x => x
      end
  end.

(** [Math.round(n * 100) / 100]. *)
Definition roundCents (n : number) : number :=
  jdiv (mathRound (jmul n (Fin 100))) (Fin 100).

(** [!precoMinCalc || precoMinCalc <= 0]. *)
Definition unsetOrNonPositive (precoMinCalc : option number) : bool :=
  match precoMinCalc with
  | None => true
  | Some n => negb (truthyNumber n) || jle n (Fin 0)
  end.

(** [!precoMinCalc || precoMinCalc === PRECO_MIN_FALLBACK]. *)
Definition unsetOrFallback (precoMinCalc : option number) : bool :=
  match precoMinCalc with
  | None => true
  | Some n =>
      negb (truthyNumber n) ||
      match n with Fin q => Qeq_bool q 15 | _ => false end
  end.

Section Selection.

Variable containerToString : ref -> string.
Variable numberToString : number -> string.
Variable encodeURIComponent : string -> string.

(** [api.get(url)]: the [data] of the response, or nothing when the
    request fails. *)
Variable apiGet : string -> option jsvalue.

(** [String(v)]. *)
Definition toStr (v : jsvalue) : string :=
  match v with
  | VUndefined => "undefined"
  | VNull => "null"
  | VBool b => if b then "true" else "false"
  | VNum n => numberToString n
  | VStr s => s
  | VRef r => containerToString r
  end.

(** [String(produto.id || produto._id || produto.codigo || produto.Codigo || '')]. *)
Definition produtoIdStr (p : CatalogueProduct) : string :=
  match productId p with
  | EmptyString => if truthy (productCodigo p) then toStr (productCodigo p) else EmptyString
  | s => s
  end.

(** Steps 1 and 2 of [onSelectSuggestion]: the stored minimum of the
    product, then its stored base price. *)
Definition storedPrecoMin (p : CatalogueProduct) : option number :=
  let fromMin :=
    match positive (parseToNumber containerToString (VNum (productPrecoMin (price p)))) with
    | Some parsedPm => Some (roundCents parsedPm)
    | None => None
    end in
  if unsetOrNonPositive fromMin then
    match precoBase (price p) with
    | Some base =>
        if truthyNumber base then
          match positive (parseToNumber containerToString (VNum base)) with
          | Some parsedBase => Some (calcPrecoMinFromBase containerToString (VNum parsedBase))
          | None => fromMin
          end
        else fromMin
    | None => fromMin
    end
  else fromMin.

(** Step 3: the two searches in the record of the product. *)
Definition rawPrecoMin (h : heap) (p : CatalogueProduct) (precoMinCalc : option number) :
    option (option number) :=
  if unsetOrNonPositive precoMinCalc && truthy (raw p) then
    match run (findFieldRecursive (searchFuel h) h (raw p) tabelaFields []) with
    | None => None
    | Some tabelaFound =>
        match positive (match tabelaFound with
                        | Some found => parseToNumber containerToString (value found)
                        | None => None
                        end) with
        | Some parsedTabela =>
            Some (Some (calcPrecoMinFromBase containerToString (VNum parsedTabela)))
        | None =>
            match run (findPriceInObject containerToString (searchFuel h) h (raw p)) with
            | None => None
            | Some rawFound =>
                match positive rawFound with
                | Some found => Some (Some (calcPrecoMinFromBase containerToString (VNum found)))
                | None => Some precoMinCalc
                end
            end
        end
    end
  else Some precoMinCalc.

(** One request of step 4: the minimum of the backend replaces
    [precoMinCalc] when it parses to a positive number. *)
Definition backendPrecoMin (h : heap) (url : string) (keys : list string)
    (precoMinCalc : option number) : option number :=
  match apiGet url with
  | Some data =>
      if truthy data then
        match positive (parseToNumber containerToString (firstDefined h data keys)) with
        | Some n => Some (roundCents n)
        | None => precoMinCalc
        end
      else precoMinCalc
  | None => precoMinCalc
  end.

(** Step 4: the backend, by identifier and then by name. *)
Definition lookupPrecoMin (h : heap) (p : CatalogueProduct) (precoMinCalc : option number) :
    option number :=
  let byId :=
    if unsetOrFallback precoMinCalc && negb (String.eqb (produtoIdStr p) EmptyString) then
      backendPrecoMin h ("/precomin?produtoId=" ++ encodeURIComponent (produtoIdStr p))%string
        ["precoMin"; "Preco_min"; "precomin"; "PrecoMin"] precoMinCalc
    else precoMinCalc in
  if unsetOrFallback byId && negb (String.eqb (productNome p) EmptyString) then
    backendPrecoMin h ("/precomin?produto=" ++ encodeURIComponent (productNome p))%string
      ["precoMin"; "Preco_min"; "precomin"] byId
  else byId.

(** [onSelectSuggestion(rowId, produto)] for a product of the catalogue. *)
Definition onSelectSuggestion (h : heap) (rowId : string) (p : CatalogueProduct)
    (rows : list Row) : option (list Row) :=
  match rawPrecoMin h p (storedPrecoMin p) with
  | None => None
  | Some precoMinCalc =>
      Some (selectProduct rowId (produtoIdStr p) (productNome p)
              (lookupPrecoMin h p precoMinCalc) rows)
  end.

End Selection.

(** [obj[k1][k2]...] along a path. *)
Fixpoint followPath (h : heap) (v : jsvalue) (p : list string) : option jsvalue :=
  match p with
  | [] => Some v
  | k :: p' =>
      match v with
      | VRef r =>
          match h !! r with
          | Some o => followPath h (getProp o k) p'
          | None => None
          end
      | _ => None
      end
  end.

(** ** The numeric parser *)

Section Parser.

Variable containerToString : ref -> string.
Let parse := parseToNumber containerToString.

Lemma returnsNumber_intro (r : option number) (x q : Q) :
  r = Some (Fin x) -> Qeq x q -> returnsNumber r q.
Proof. intros -> Hq. exists x. split; [reflexivity | exact Hq]. Qed.

Lemma orNull_not_NaN (n : number) : isNoValueOrNumber (orNull n) = true.
Proof.
  destruct n as [| neg | q]; try reflexivity.
  unfold orNull, truthyNumber. destruct (Qeq_bool q 0); reflexivity.
Qed.

Lemma parseText_not_NaN (s : string) : isNoValueOrNumber (parseText s) = true.
Proof.
  unfold parseText. destruct (trim s); [reflexivity |].
  destruct (_ && _); [apply orNull_not_NaN |].
  destruct (_ && _); [apply orNull_not_NaN |].
  destruct (stringToNumber _); reflexivity.
Qed.

(** C5. The numeric parser gives the required results:
    ["R$ 1.234,56"] is 1234.56, ["19,9"], ["19.9"] and ["19.90"] are 19.9
    and the empty string is no value. On every input of its contract
    (absent, empty string, number, string) it is defined without the
    host conversion of containers, the only step of [String(raw)] that is
    not a total function of the value, and for every string it returns no
    value or a number, never [NaN]. *)
Theorem parseToNumber_examples :
  returnsNumber (parse (VStr "R$ 1.234,56")) 1234.56 /\
  returnsNumber (parse (VStr "19,9")) 19.9 /\
  returnsNumber (parse (VStr "19.9")) 19.9 /\
  returnsNumber (parse (VStr "19.90")) 19.9 /\
  parse (VStr "") = None /\
  (forall (i : ParserInput) (otherHost : ref -> string),
      parse (inputValue i) = parseToNumber otherHost (inputValue i)) /\
  (forall s : string, isNoValueOrNumber (parse (VStr s)) = true).
Proof.
  split; [| split; [| split; [| split; [| split; [| split]]]]].
  - apply (returnsNumber_intro _ (30864 # 25)); [vm_compute; reflexivity | reflexivity].
  - apply (returnsNumber_intro _ (199 # 10)); [vm_compute; reflexivity | reflexivity].
  - apply (returnsNumber_intro _ (199 # 10)); [vm_compute; reflexivity | reflexivity].
  - apply (returnsNumber_intro _ (199 # 10)); [vm_compute; reflexivity | reflexivity].
  - reflexivity.
  - intros [| | n | s] otherHost; reflexivity.
  - intros s. apply parseText_not_NaN.
Qed.

Lemma orNull_as_described (n : number) :
  orNull n = (if isNaN n then None else Some n) \/
  (exists q, n = Fin q /\ Qeq q 0 /\ orNull n = None).
Proof.
  destruct n as [| neg | q]; try (left; reflexivity).
  unfold orNull, truthyNumber. destruct (Qeq_bool q 0) eqn:E; [| left; reflexivity].
  right. exists q. apply Qeq_bool_iff in E. auto.
Qed.

(** The parser and its description differ only where a text with a
    decimal comma converts to 0. *)
Lemma parseText_as_described (text : string) :
  parseText text = parseTextAsDescribed text \/
  (exists q, parseTextAsDescribed text = Some (Fin q) /\ Qeq q 0 /\ parseText text = None).
Proof.
  unfold parseText, parseTextAsDescribed. destruct (trim text) as [| c rest]; [left; reflexivity |].
  cbv zeta.
  destruct (_ && _).
  - destruct (orNull_as_described (stringToNumber
               (replaceFirst "," "."
                  (filterChars (fun c0 => negb (Ascii.eqb c0 "."))
                     (filterChars
                        (fun c0 => negb (Ascii.eqb c0 "R" || Ascii.eqb c0 "$" || isWhiteSpace c0))
                        (String c rest))))))
      as [H | (q & Hn & Hq & Hnull)].
    + left. exact H.
    + right. exists q. rewrite Hn in *. auto.
  - destruct (_ && _).
    + destruct (orNull_as_described (stringToNumber
                 (replaceFirst "," "."
                    (filterChars
                       (fun c0 => negb (Ascii.eqb c0 "R" || Ascii.eqb c0 "$" || isWhiteSpace c0))
                       (String c rest)))))
        as [H | (q & Hn & Hq & Hnull)].
      * left. exact H.
      * right. exists q. rewrite Hn in *. auto.
    + left. reflexivity.
Qed.

(** C6. A string that denotes zero with a decimal comma is parsed to no
    value: ["0,00"] and ["0,0"] give [null], although the rewritten text
    ["0.00"] converts to the number 0, the described rules give 0, and the
    same text written with a dot is parsed to 0. *)
Theorem parseToNumber_comma_zero_is_null :
  parse (VStr "0,00") = None /\
  parse (VStr "0,0") = None /\
  stringToNumber (replaceFirst "," "." "0,00") = Fin 0 /\
  parseTextAsDescribed "0,00" = Some (Fin 0) /\
  parse (VStr "0.00") = Some (Fin 0) /\
  parse (VStr "0") = Some (Fin 0).
Proof.
  split; [| split; [| split; [| split; [| split]]]]; vm_compute; reflexivity.
Qed.

End Parser.

(** ** The minimum-price deriver *)

Section Deriver.

Variable containerToString : ref -> string.
Let parse := parseToNumber containerToString.
Let deriveMinimum := calcPrecoMinFromBase containerToString.

Lemma Qeq_bool_pos (b : Q) : (0 < b)%Q -> Qeq_bool b 0 = false.
Proof.
  intros Hb. destruct (Qeq_bool b 0) eqn:E; [| reflexivity].
  apply Qeq_bool_iff in E. rewrite E in Hb. exfalso. revert Hb. apply Qlt_irrefl.
Qed.

Lemma calc_of_positive (base : jsvalue) (b : Q) :
  parse base = Some (Fin b) -> (0 < b)%Q ->
  deriveMinimum base = Fin (Qred (inject_Z (derivedCents b) / 100)).
Proof.
  intros Hp Hb. unfold deriveMinimum, calcPrecoMinFromBase. fold parse. rewrite Hp.
  unfold truthyNumber, jle. rewrite (Qeq_bool_pos b Hb).
  destruct (Qlt_le_dec 0 b) as [_ | Hle]; [| exfalso; lra].
  cbn [negb orb jmul mathRound]. unfold jdiv.
  change (Qeq_bool 100 0) with false. cbv iota. reflexivity.
Qed.

Lemma derivedCents_exact (b : Q) :
  derivedCents b = Qfloor (b * 1.15 * 100 + (1 # 2)).
Proof.
  unfold derivedCents. apply Qfloor_comp. rewrite !Qred_correct. reflexivity.
Qed.

Lemma calc_of_fallback (base : jsvalue) :
  absentOrNonPositive (parse base) = true -> deriveMinimum base = PRECO_MIN_FALLBACK.
Proof.
  unfold deriveMinimum, calcPrecoMinFromBase. fold parse.
  destruct (parse base) as [n |]; [| reflexivity].
  cbn [absentOrNonPositive]. intros ->. rewrite orb_true_r. reflexivity.
Qed.

(** In exact arithmetic [calcPrecoMinFromBase] returns the fallback
    constant 15.0 for every absent or non-positive base price, and for
    every strictly positive base price [b] it returns [b * 1.15] rounded to
    two decimal places, half away from zero. *)
Lemma calcPrecoMinFromBase_rounds (base : jsvalue) :
  PRECO_MIN_FALLBACK = Fin 15 /\
  (absentOrNonPositive (parse base) = true -> deriveMinimum base = Fin 15) /\
  (forall b : Q, parse base = Some (Fin b) -> (0 < b)%Q ->
      returnsNumber (Some (deriveMinimum base)) (roundHalfAwayFromZero2 (b * 1.15))).
Proof.
  split; [reflexivity |]. split; [apply calc_of_fallback |].
  intros b Hp Hb. rewrite (calc_of_positive base b Hp Hb).
  eapply returnsNumber_intro; [reflexivity |].
  rewrite Qred_correct, derivedCents_exact. unfold roundHalfAwayFromZero2.
  destruct (Qlt_le_dec (b * 1.15) 0) as [Hneg | _]; [exfalso; lra |].
  reflexivity.
Qed.

Lemma jle_Fin (x y : Q) : jle (Fin x) (Fin y) = true <-> (x <= y)%Q.
Proof.
  unfold jle. destruct (Qlt_le_dec y x); split; intros H; try easy; exfalso; lra.
Qed.

Lemma jlt_Fin (x y : Q) : jlt (Fin x) (Fin y) = true <-> (x < y)%Q.
Proof.
  unfold jlt. destruct (Qlt_le_dec x y); split; intros H; try easy; exfalso; lra.
Qed.

End Deriver.

(** No base price gives 15, and the base price 100 gives [100 * 1.15]
    rounded to two places. *)
Lemma calcPrecoMinFromBase_rounds_at_100 :
  calcPrecoMinFromBase plainHost VNull = Fin 15 /\
  returnsNumber (Some (calcPrecoMinFromBase plainHost (VNum (Fin 100))))
                (roundHalfAwayFromZero2 (100 * 1.15)).
Proof.
  split.
  - apply (proj1 (proj2 (calcPrecoMinFromBase_rounds plainHost VNull))). reflexivity.
  - apply (proj2 (proj2 (calcPrecoMinFromBase_rounds plainHost (VNum (Fin 100)))) 100%Q).
    + reflexivity.
    + reflexivity.
Qed.

(** C3. On doubles the minimum derived from the base price 0.5 is 0.57,
    not 0.58: the exact product [0.5 * 1.15 * 100] is 57.5, a tie that
    rounds half away from zero to 58, but the literal [1.15] is a double
    slightly below 1.15, the double product is [57.5 - 2^-47], and
    [Math.round] takes it down to 57. In the same way the base price 30.5
    gives 35.07, not 35.08. On the base price 100 the double result is 115,
    as in exact arithmetic, and the base price 0 gives the fallback 15. *)
Theorem calcPrecoMinFromBase_half_cent_binary64 :
  doubleMul (doubleMul (doubleOfZ 1 (-1)) double_1_15) (doubleOfInt 100)
  = S754_finite false 8092405580431359 (-47) /\
  doubleOfZ 115 (-1) = S754_finite false 8092405580431360 (-47) /\
  calcPrecoMinFromBase_binary64 (doubleOfZ 1 (-1))
  = doubleDiv (doubleOfInt 57) (doubleOfInt 100) /\
  SFeqb (calcPrecoMinFromBase_binary64 (doubleOfZ 1 (-1)))
        (doubleDiv (doubleOfInt 58) (doubleOfInt 100)) = false /\
  Qeq (roundHalfAwayFromZero2 (0.5 * 1.15)) 0.58 /\
  calcPrecoMinFromBase_binary64 (doubleOfZ 61 (-1))
  = doubleDiv (doubleOfInt 3507) (doubleOfInt 100) /\
  Qeq (roundHalfAwayFromZero2 (30.5 * 1.15)) 35.08 /\
  calcPrecoMinFromBase_binary64 (doubleOfInt 100) = doubleOfInt 115 /\
  calcPrecoMinFromBase_binary64 (S754_zero false) = doubleOfInt 15.
Proof.
  split; [| split; [| split; [| split; [| split; [| split; [| split; [| split]]]]]]];
    vm_compute; reflexivity.
Qed.

(** Counterexample to C4 as stated: 0 is at most 1, but the derived minimum
    of 0 is the fallback 15, above the derived minimum 1.15 of 1. *)
Lemma calcPrecoMinFromBase_not_monotone_at_zero :
  jle (Fin 0) (Fin 1) = true /\
  calcPrecoMinFromBase plainHost (VNum (Fin 0)) = Fin 15 /\
  calcPrecoMinFromBase plainHost (VNum (Fin 1)) = Fin (23 # 20) /\
  jle (calcPrecoMinFromBase plainHost (VNum (Fin 0)))
      (calcPrecoMinFromBase plainHost (VNum (Fin 1))) = false.
Proof.
  split; [| split; [| split]]; vm_compute; reflexivity.
Qed.

(** ** The derived minimum on binary64 *)

Section Binary64.

(** *** Powers of two *)

Lemma pow2_pos (e : Z) : (0 < 2 ^ e)%Q.
Proof. apply Qpower_0_lt. reflexivity. Qed.

Lemma pow2_add (a b : Z) : (2 ^ (a + b) == 2 ^ a * 2 ^ b)%Q.
Proof. apply Qpower_plus. discriminate. Qed.

Lemma pow2_succ (e : Z) : (2 ^ (e + 1) == 2 * 2 ^ e)%Q.
Proof. rewrite pow2_add. change (2 ^ 1)%Q with 2%Q. ring. Qed.

Lemma pow2_le (a b : Z) : a <= b -> (2 ^ a <= 2 ^ b)%Q.
Proof. intros H. apply Qpower_le_compat_l; [exact H | discriminate]. Qed.

Lemma pow2_lt (a b : Z) : a < b -> (2 ^ a < 2 ^ b)%Q.
Proof. intros H. apply Qpower_lt_compat_l; [exact H | reflexivity]. Qed.

Lemma pow2_lt_inv (a b : Z) : (2 ^ a < 2 ^ b)%Q -> a < b.
Proof. intros H. eapply Qpower_lt_compat_l_inv; [exact H | reflexivity]. Qed.

Lemma pow2_Z (k : Z) : 0 <= k -> (2 ^ k == inject_Z (2 ^ k))%Q.
Proof. intros H. rewrite (Zpower_Qpower 2 k H). reflexivity. Qed.

Lemma scaled_shift (m e k : Z) : 0 <= k -> (scaled m (e + k) == scaled (m * 2 ^ k) e)%Q.
Proof.
  intros Hk. unfold scaled. rewrite pow2_add, (pow2_Z k Hk), inject_Z_mult. ring.
Qed.

Lemma scaled_le (m n e : Z) : (scaled m e <= scaled n e)%Q <-> m <= n.
Proof.
  unfold scaled. pose proof (pow2_pos e) as Hp. rewrite Zle_Qle. split; intros H.
  - apply Qmult_le_r in H; assumption.
  - apply Qmult_le_r; assumption.
Qed.

Lemma scaled_lt (m n e : Z) : (scaled m e < scaled n e)%Q <-> m < n.
Proof.
  unfold scaled. pose proof (pow2_pos e) as Hp. rewrite Zlt_Qlt. split; intros H.
  - apply Qmult_lt_r in H; assumption.
  - apply Qmult_lt_r; assumption.
Qed.

(** *** Binary digits *)

Lemma pow2_Z_pred (d : Z) : 0 < d -> 2 ^ d = 2 * 2 ^ (d - 1).
Proof.
  intros H. replace d with (Z.succ (d - 1)) at 1 by lia. apply Z.pow_succ_r. lia.
Qed.

Lemma digits2_pos_spec (p : BinNums.positive) :
  2 ^ (Z.pos (digits2_pos p) - 1) <= Z.pos p < 2 ^ Z.pos (digits2_pos p).
Proof.
  induction p as [p IH | p IH |]; cbn [digits2_pos].
  - rewrite Pos2Z.inj_succ. pose proof (Pos2Z.inj_xI p) as Hx.
    pose proof (pow2_Z_pred (Z.pos (digits2_pos p)) eq_refl) as E.
    replace (Z.succ (Z.pos (digits2_pos p)) - 1) with (Z.pos (digits2_pos p)) by lia.
    rewrite Z.pow_succ_r by lia. lia.
  - rewrite Pos2Z.inj_succ. pose proof (Pos2Z.inj_xO p) as Hx.
    pose proof (pow2_Z_pred (Z.pos (digits2_pos p)) eq_refl) as E.
    replace (Z.succ (Z.pos (digits2_pos p)) - 1) with (Z.pos (digits2_pos p)) by lia.
    rewrite Z.pow_succ_r by lia. lia.
  - cbn. lia.
Qed.

Lemma digits2_unique (p : BinNums.positive) (d : Z) :
  2 ^ (d - 1) <= Z.pos p < 2 ^ d -> Z.pos (digits2_pos p) = d.
Proof.
  intros [Hlo Hhi]. pose proof (digits2_pos_spec p) as [Hlo' Hhi'].
  assert (Hd : 0 < d).
  { destruct (Z_lt_le_dec 0 d) as [H | H]; [exact H |].
    exfalso. destruct (Z.eq_dec d 0) as [-> | Hn]; [cbn in Hhi; lia |].
    rewrite Z.pow_neg_r in Hhi by lia. lia. }
  assert (H1 : Z.pos (digits2_pos p) - 1 < d).
  { apply (Z.pow_lt_mono_r_iff 2); lia. }
  assert (H2 : d - 1 < Z.pos (digits2_pos p)).
  { apply (Z.pow_lt_mono_r_iff 2); lia. }
  lia.
Qed.

(** *** Truncation with a location *)

Lemma scaled_double_succ (m e : Z) : (scaled (2 * m + 1) e == 2 * scaled m e + 2 ^ e)%Q.
Proof. unfold scaled. rewrite inject_Z_plus, inject_Z_mult. change (inject_Z 2) with 2%Q. change (inject_Z 1) with 1%Q. ring. Qed.

Lemma scaled_succ (m e : Z) : (scaled (m + 1) e == scaled m e + 2 ^ e)%Q.
Proof. unfold scaled. rewrite inject_Z_plus. change (inject_Z 1) with 1%Q. ring. Qed.

Lemma scaled_double (m e : Z) : (scaled (2 * m) e == 2 * scaled m e)%Q.
Proof. unfold scaled. rewrite inject_Z_mult. change (inject_Z 2) with 2%Q. ring. Qed.

Lemma scaled_next (m e : Z) : (scaled m (e + 1) == 2 * scaled m e)%Q.
Proof. unfold scaled. rewrite pow2_succ. ring. Qed.

Lemma scaled_0 (e : Z) : (scaled 0 e == 0)%Q.
Proof. unfold scaled. change (inject_Z 0) with 0%Q. ring. Qed.

Lemma scaled_1 (e : Z) : (scaled 1 e == 2 ^ e)%Q.
Proof. unfold scaled. change (inject_Z 1) with 1%Q. ring. Qed.

Lemma placed_bounds (x : Q) (m e : Z) (l : location) :
  placed x m e l -> (scaled m e <= x /\ x < scaled (m + 1) e)%Q.
Proof.
  pose proof (pow2_pos e) as Hp.
  pose proof (scaled_double_succ m e) as H1. pose proof (scaled_succ m e) as H2.
  destruct l as [| []]; cbn [placed]; intros H; lra.
Qed.

Lemma shr_1_placed (x : Q) (mrs : shr_record) (e : Z) :
  0 <= shr_m mrs ->
  placed x (shr_m mrs) e (loc_of_shr_record mrs) ->
  placed x (shr_m (shr_1 mrs)) (e + 1) (loc_of_shr_record (shr_1 mrs)) /\
  0 <= shr_m (shr_1 mrs).
Proof.
  destruct mrs as [m r s]. cbn [shr_m]. intros Hm H.
  pose proof (pow2_pos e) as Hp.
  assert (Hcase : m = 0 \/ m = 1 \/ (exists p, m = 2 * Z.pos p) \/ (exists p, m = 2 * Z.pos p + 1)).
  { destruct m as [| [p | p |] | p]; [auto | right; right; right; exists p; lia
      | right; right; left; exists p; lia | auto | lia]. }
  destruct Hcase as [-> | [-> | [[p ->] | [p ->]]]].
  - pose proof (scaled_0 e) as H0. pose proof (scaled_0 (e + 1)) as H0'.
    pose proof (scaled_1 e) as H1. pose proof (scaled_1 (e + 1)) as H1'.
    pose proof (pow2_succ e) as Hs.
    destruct r, s; cbn [shr_m loc_of_shr_record shr_1 orb placed] in H |- *;
      change (2 * 0 + 1) with 1 in *; change (0 + 1) with 1 in *; split; try lia; lra.
  - pose proof (scaled_0 (e + 1)) as H0'. pose proof (scaled_1 e) as H1.
    pose proof (scaled_1 (e + 1)) as H1'. pose proof (pow2_succ e) as Hs.
    pose proof (scaled_double_succ 1 e) as H3. pose proof (scaled_succ 1 e) as H2.
    destruct r, s; cbn [shr_m loc_of_shr_record shr_1 orb placed] in H |- *;
      change (2 * 0 + 1) with 1 in *; change (0 + 1) with 1 in *; split; try lia; lra.
  - replace (shr_1 {| shr_m := 2 * Z.pos p; shr_r := r; shr_s := s |})
      with {| shr_m := Z.pos p; shr_r := false; shr_s := r || s |} by reflexivity.
    pose proof (scaled_double (Z.pos p) e) as Hd.
    pose proof (scaled_next (Z.pos p) e) as Hn.
    pose proof (scaled_double_succ (Z.pos p) (e + 1)) as H1.
    pose proof (scaled_double_succ (2 * Z.pos p) e) as H2.
    pose proof (scaled_succ (2 * Z.pos p) e) as H3.
    pose proof (pow2_succ e) as Hs.
    destruct r, s; cbn [shr_m loc_of_shr_record orb placed] in H |- *; split; try lia; lra.
  - replace (shr_1 {| shr_m := 2 * Z.pos p + 1; shr_r := r; shr_s := s |})
      with {| shr_m := Z.pos p; shr_r := true; shr_s := r || s |} by reflexivity.
    pose proof (scaled_double_succ (Z.pos p) e) as Hd.
    pose proof (scaled_next (Z.pos p) e) as Hn.
    pose proof (scaled_double_succ (Z.pos p) (e + 1)) as H1.
    pose proof (scaled_succ (Z.pos p) (e + 1)) as H1'.
    pose proof (scaled_double_succ (2 * Z.pos p + 1) e) as H2.
    pose proof (scaled_succ (2 * Z.pos p + 1) e) as H3.
    pose proof (pow2_succ e) as Hs.
    destruct r, s; cbn [shr_m loc_of_shr_record orb placed] in H |- *; split; try lia; lra.
Qed.

Lemma iter_shr_1_placed (x : Q) (n : BinNums.positive) :
  forall (mrs : shr_record) (e : Z),
    0 <= shr_m mrs ->
    placed x (shr_m mrs) e (loc_of_shr_record mrs) ->
    placed x (shr_m (SpecFloat.iter_pos shr_1 n mrs)) (e + Z.pos n) (loc_of_shr_record (SpecFloat.iter_pos shr_1 n mrs)) /\
    0 <= shr_m (SpecFloat.iter_pos shr_1 n mrs).
Proof.
  induction n as [n IH | n IH |]; intros mrs e Hm H; cbn [SpecFloat.iter_pos].
  - destruct (shr_1_placed x mrs e Hm H) as [H1 Hm1].
    destruct (IH _ _ Hm1 H1) as [H2 Hm2].
    destruct (IH _ _ Hm2 H2) as [H3 Hm3].
    replace (e + Z.pos n~1) with (e + 1 + Z.pos n + Z.pos n) by lia. auto.
  - destruct (IH _ _ Hm H) as [H2 Hm2].
    destruct (IH _ _ Hm2 H2) as [H3 Hm3].
    replace (e + Z.pos n~0) with (e + Z.pos n + Z.pos n) by lia. auto.
  - apply shr_1_placed; assumption.
Qed.

Lemma fexp64_eq (e : Z) : fexp prec64 emax64 e = Z.max (e - 53) (-1074).
Proof. reflexivity. Qed.

Lemma shr_fexp_placed (x : Q) (m e : Z) (l : location) :
  0 <= m -> placed x m e l -> e <= fexp prec64 emax64 (Zdigits2 m + e) ->
  exists mrs, shr_fexp prec64 emax64 m e l = (mrs, fexp prec64 emax64 (Zdigits2 m + e)) /\
    placed x (shr_m mrs) (fexp prec64 emax64 (Zdigits2 m + e)) (loc_of_shr_record mrs) /\
    0 <= shr_m mrs.
Proof.
  intros Hm H He. unfold shr_fexp, shr.
  assert (H0 : placed x (shr_m (shr_record_of_loc m l)) e (loc_of_shr_record (shr_record_of_loc m l))).
  { destruct l as [| []]; exact H. }
  assert (Hm0 : 0 <= shr_m (shr_record_of_loc m l)) by (destruct l as [| []]; exact Hm).
  destruct (fexp prec64 emax64 (Zdigits2 m + e) - e) as [| k | k] eqn:Ek.
  - exists (shr_record_of_loc m l). replace (fexp prec64 emax64 (Zdigits2 m + e)) with e by lia. auto.
  - destruct (iter_shr_1_placed x k _ e Hm0 H0) as [H1 Hm1].
    exists (SpecFloat.iter_pos shr_1 k (shr_record_of_loc m l)).
    replace (fexp prec64 emax64 (Zdigits2 m + e)) with (e + Z.pos k) by lia. auto.
  - lia.
Qed.

(** *** Rounding to nearest, ties to even *)

Lemma pow2_scaled (k e : Z) : 0 <= k -> (2 ^ (e + k) == scaled (2 ^ k) e)%Q.
Proof. intros Hk. unfold scaled. rewrite pow2_add, (pow2_Z k Hk). ring. Qed.

Lemma mag_of_placed (x : Q) (p : BinNums.positive) (e : Z) (l : location) :
  placed x (Z.pos p) e l -> mag x (Zdigits2 (Z.pos p) + e).
Proof.
  intros H. apply placed_bounds in H. destruct H as [Hlo Hhi].
  pose proof (digits2_pos_spec p) as [Dlo Dhi]. cbn [Zdigits2].
  set (d := Z.pos (digits2_pos p)) in *. unfold mag. split.
  - replace (d + e - 1) with (e + (d - 1)) by lia. rewrite pow2_scaled by lia.
    apply Qle_trans with (scaled (Z.pos p) e); [apply scaled_le; exact Dlo | exact Hlo].
  - replace (d + e) with (e + d) by lia. rewrite pow2_scaled by lia.
    apply Qlt_le_trans with (scaled (Z.pos p + 1) e); [exact Hhi | apply scaled_le; lia].
Qed.

Lemma round_nearest_even_range (m : Z) (l : location) :
  m <= round_nearest_even m l <= m + 1.
Proof. destruct l as [| []]; cbn; try destruct (Z.even m); lia. Qed.

Lemma canonical_overflow (mo : BinNums.positive) (eo : Z) :
  canonical_mantissa prec64 emax64 mo eo = true -> 971 < eo ->
  (2 ^ 1024 <= scaled (Z.pos mo) eo)%Q.
Proof.
  unfold canonical_mantissa. rewrite fexp64_eq. intros Hc He.
  apply Z.eqb_eq in Hc. pose proof (digits2_pos_spec mo) as [Dlo _].
  assert (Hd : Z.pos (digits2_pos mo) = 53) by lia. rewrite Hd in Dlo.
  apply Qle_trans with (2 ^ (eo + 52))%Q; [apply pow2_le; lia |].
  rewrite pow2_scaled by lia. apply scaled_le. exact Dlo.
Qed.

Lemma normalise_exact (pn : BinNums.positive) (E : Z) :
  -1074 <= E ->
  fexp prec64 emax64 (Z.pos (digits2_pos pn) + E) = E \/
  (fexp prec64 emax64 (Z.pos (digits2_pos pn) + E) = E + 1 /\ exists q, pn = xO q) ->
  outcome (Z.pos pn) E
    (let '(mrs, e) := shr_fexp prec64 emax64 (Z.pos pn) E loc_Exact in
     match shr_m mrs with
     | Z0 => S754_zero false
     | Zpos m => if Z.leb e (emax64 - prec64) then S754_finite false m e else S754_infinity false
     | _ => S754_nan
     end).
Proof.
  intros HE [HT | [HT [q ->]]]; right; (split; [lia |]);
    unfold shr_fexp, shr; cbn [Zdigits2]; rewrite HT.
  - rewrite Z.sub_diag. cbn [shr_record_of_loc shr_m].
    assert (Hc : canonical_mantissa prec64 emax64 pn E = true).
    { unfold canonical_mantissa. apply Z.eqb_eq. exact HT. }
    change (emax64 - prec64) with 971.
    destruct (Z.leb E 971) eqn:Hb.
    + left. exists pn, E. split; [reflexivity |]. split; [| reflexivity].
      unfold bounded. rewrite Hc. exact Hb.
    + right. split; [reflexivity |]. apply canonical_overflow; [exact Hc |].
      apply Z.leb_gt in Hb. lia.
  - replace (E + 1 - E) with 1 by lia. cbn [SpecFloat.iter_pos shr_record_of_loc shr_1 shr_m orb].
    assert (Hc : canonical_mantissa prec64 emax64 q (E + 1) = true).
    { unfold canonical_mantissa. apply Z.eqb_eq. rewrite <- HT at 2. f_equal.
      cbn [digits2_pos]. lia. }
    assert (Hv : (scaled (Z.pos q) (E + 1) == scaled (Z.pos q~0) E)%Q).
    { rewrite scaled_next, <- scaled_double. reflexivity. }
    change (emax64 - prec64) with 971.
    destruct (Z.leb (E + 1) 971) eqn:Hb.
    + left. exists q, (E + 1). split; [reflexivity |]. split; [| exact Hv].
      unfold bounded. rewrite Hc. exact Hb.
    + right. split; [reflexivity |]. rewrite <- Hv. apply canonical_overflow; [exact Hc |].
      apply Z.leb_gt in Hb. lia.
Qed.

Lemma binary_round_aux_rounds (x : Q) (p : BinNums.positive) (e : Z) (l : location) :
  placed x (Z.pos p) e l ->
  e <= fexp prec64 emax64 (Zdigits2 (Z.pos p) + e) ->
  roundsTo x (binary_round_aux prec64 emax64 false (Z.pos p) e l).
Proof.
  intros H He. pose proof (mag_of_placed x p e l H) as Hmag.
  destruct (shr_fexp_placed x (Z.pos p) e l ltac:(lia) H He) as (mrs & Hshr & H1 & Hm1).
  set (D := Zdigits2 (Z.pos p) + e) in *.
  set (E := fexp prec64 emax64 D) in *.
  exists D, (shr_m mrs), (loc_of_shr_record mrs).
  split; [exact Hmag |]. split; [exact H1 |]. split; [exact Hm1 |].
  unfold binary_round_aux. rewrite Hshr.
  set (m1 := shr_m mrs) in *. set (l1 := loc_of_shr_record mrs) in *.
  pose proof (round_nearest_even_range m1 l1) as Hn.
  set (n := round_nearest_even m1 l1) in *.
  assert (HE : -1074 <= E) by (unfold E; rewrite fexp64_eq; lia).
  destruct n as [| pn | pn] eqn:En; [| | lia].
  - left. split; [reflexivity |].
    unfold shr_fexp, shr. cbn [Zdigits2]. rewrite fexp64_eq.
    destruct (Z.max (0 + E - 53) (-1074) - E) eqn:Ek; [reflexivity | lia | reflexivity].
  - apply normalise_exact; [exact HE |].
    apply placed_bounds in H1. destruct H1 as [Hlo Hhi]. destruct Hmag as [Mlo Mhi].
    pose proof (digits2_pos_spec pn) as [Nlo Nhi].
    destruct (Z.eq_dec m1 0) as [Hz | Hz].
    + (* below the least positive multiple *)
      assert (Hpn : pn = xH) by lia. subst pn.
      assert (HD : D - 1 < E).
      { apply pow2_lt_inv. apply Qle_lt_trans with x; [exact Mlo |].
        rewrite Hz in Hhi. change (0 + 1) with 1 in Hhi. rewrite scaled_1 in Hhi. exact Hhi. }
      left. cbn [digits2_pos]. unfold E in *. rewrite !fexp64_eq in *. lia.
    + assert (HED : E < D).
      { apply pow2_lt_inv. apply Qle_lt_trans with x; [| exact Mhi].
        apply Qle_trans with (scaled m1 E); [| exact Hlo].
        rewrite <- scaled_1. apply scaled_le. lia. }
      assert (Hk1 : m1 < 2 ^ (D - E)).
      { apply (scaled_lt _ _ E). rewrite <- pow2_scaled by lia.
        replace (E + (D - E)) with D by lia.
        apply Qle_lt_trans with x; assumption. }
      assert (Hk2 : 2 ^ (D - E - 1) < m1 + 1).
      { apply (scaled_lt _ _ E). rewrite <- pow2_scaled by lia.
        replace (E + (D - E - 1)) with (D - 1) by lia.
        apply Qle_lt_trans with x; assumption. }
      pose proof (pow2_Z_pred (D - E) ltac:(lia)) as Hpw.
      destruct (Z_lt_le_dec (Z.pos pn) (2 ^ (D - E))) as [Hlt | Hge].
      * left. rewrite (digits2_unique pn (D - E)) by lia.
        replace (D - E + E) with D by lia. reflexivity.
      * assert (Hpn : Z.pos pn = 2 ^ (D - E)) by lia.
        assert (Hdn : Z.pos (digits2_pos pn) = D - E + 1).
        { apply digits2_unique. replace (D - E + 1 - 1) with (D - E) by lia.
          rewrite (pow2_Z_pred (D - E + 1)) by lia.
          replace (D - E + 1 - 1) with (D - E) by lia. lia. }
        rewrite Hdn. replace (D - E + 1 + E) with (D + 1) by lia.
        unfold E in *. rewrite !fexp64_eq in *.
        destruct (Z_lt_le_dec (D - 53) (-1074)) as [Hs | Hs]; [left; lia |].
        right. split; [lia |].
        destruct pn as [q | q |]; [lia | exists q; reflexivity | lia].
Qed.

(** *** Order *)

Lemma roundsTo_nonNegative (x : Q) (out : spec_float) : roundsTo x out -> nonNegative out.
Proof.
  intros (D & m1 & l1 & _ & _ & _ & [[_ ->] | [_ [(mo & eo & -> & Hb & _) | [-> _]]]]).
  - left. reflexivity.
  - right. left. exists mo, eo. unfold anyNumber. auto.
  - right. right. reflexivity.
Qed.

Lemma bounded_canonical (m : BinNums.positive) (e : Z) :
  bounded prec64 emax64 m e = true ->
  -1074 <= e <= 971 /\ Z.pos (digits2_pos m) <= 53 /\ (-1074 < e -> Z.pos (digits2_pos m) = 53).
Proof.
  unfold bounded, canonical_mantissa. rewrite fexp64_eq. intros H.
  apply andb_true_iff in H. destruct H as [Hc Hb].
  apply Z.eqb_eq in Hc. apply Z.leb_le in Hb. change (emax64 - prec64) with 971 in Hb. lia.
Qed.

Lemma bounded_lt_next (m1 m2 : BinNums.positive) (e1 e2 : Z) :
  bounded prec64 emax64 m1 e1 = true -> bounded prec64 emax64 m2 e2 = true ->
  e1 < e2 -> (scaled (Z.pos m1) e1 < scaled (Z.pos m2) e2)%Q.
Proof.
  intros H1 H2 He. apply bounded_canonical in H1, H2.
  pose proof (digits2_pos_spec m1) as [_ D1]. pose proof (digits2_pos_spec m2) as [D2 _].
  destruct H1 as (He1 & Hd1 & _). destruct H2 as (He2 & _ & Hd2).
  rewrite Hd2 in D2 by lia. change (53 - 1) with 52 in D2.
  apply Qlt_le_trans with (2 ^ (e1 + 53))%Q.
  - rewrite pow2_scaled by lia. apply scaled_lt.
    apply Z.lt_le_trans with (2 ^ Z.pos (digits2_pos m1)); [exact D1 |].
    apply Z.pow_le_mono_r; lia.
  - apply Qle_trans with (2 ^ (e2 + 52))%Q; [apply pow2_le; lia |].
    rewrite pow2_scaled by lia. apply scaled_le. exact D2.
Qed.

Lemma bounded_below_overflow (m : BinNums.positive) (e : Z) :
  bounded prec64 emax64 m e = true -> (scaled (Z.pos m) e < 2 ^ 1024)%Q.
Proof.
  intros H. apply bounded_canonical in H. destruct H as (He & Hd & _).
  pose proof (digits2_pos_spec m) as [_ D1].
  apply Qlt_le_trans with (2 ^ (e + 53))%Q.
  - rewrite pow2_scaled by lia. apply scaled_lt.
    apply Z.lt_le_trans with (2 ^ Z.pos (digits2_pos m)); [exact D1 |].
    apply Z.pow_le_mono_r; lia.
  - apply pow2_le. lia.
Qed.

Lemma SFleb_finite (m1 m2 : BinNums.positive) (e1 e2 : Z) :
  bounded prec64 emax64 m1 e1 = true -> bounded prec64 emax64 m2 e2 = true ->
  (SFleb (S754_finite false m1 e1) (S754_finite false m2 e2) = true <->
   (scaled (Z.pos m1) e1 <= scaled (Z.pos m2) e2)%Q).
Proof.
  intros H1 H2. unfold SFleb, SFcompare.
  destruct (Z.compare_spec e1 e2) as [He | He | He].
  - subst e2. change (Pos.compare_cont Eq m1 m2) with (Pos.compare m1 m2).
    rewrite scaled_le.
    destruct (Pos.compare_spec m1 m2) as [Hm | Hm | Hm]; split; intros H; try reflexivity; try lia.
  - pose proof (bounded_lt_next m1 m2 e1 e2 H1 H2 He) as Hlt.
    split; intros _; [apply Qlt_le_weak; exact Hlt | reflexivity].
  - pose proof (bounded_lt_next m2 m1 e2 e1 H2 H1 He) as Hlt.
    split; intros H; [discriminate H | exfalso; lra].
Qed.

Lemma round_nearest_even_mono (x y : Q) (E m m' : Z) (l l' : location) :
  (x <= y)%Q -> placed x m E l -> placed y m' E l' ->
  round_nearest_even m l <= round_nearest_even m' l'.
Proof.
  intros Hxy Hx Hy.
  pose proof (round_nearest_even_range m l) as R. pose proof (round_nearest_even_range m' l') as R'.
  destruct (Z.lt_trichotomy m m') as [Hlt | [Heq | Hgt]]; [lia | |].
  - subst m'. pose proof (pow2_pos E) as Hp.
    pose proof (scaled_double_succ m E) as H1. pose proof (scaled_succ m E) as H2.
    destruct l as [| []], l' as [| []]; cbn [placed round_nearest_even] in *;
      try lia; try (destruct (Z.even m); lia); exfalso; lra.
  - exfalso. apply placed_bounds in Hx, Hy. destruct Hx as [Hx _]. destruct Hy as [_ Hy].
    assert (H : (scaled (m' + 1) E <= scaled m E)%Q) by (apply scaled_le; lia). lra.
Qed.

Lemma round_nearest_even_upper (x : Q) (m E k : Z) (l : location) :
  placed x m E l -> (x < 2 ^ k)%Q -> E <= k -> (scaled (round_nearest_even m l) E <= 2 ^ k)%Q.
Proof.
  intros H Hx Hk. apply placed_bounds in H. destruct H as [Hlo _].
  pose proof (round_nearest_even_range m l) as R.
  replace k with (E + (k - E)) by lia. rewrite pow2_scaled by lia. apply scaled_le.
  cut (m < 2 ^ (k - E)); [lia |].
  apply (scaled_lt _ _ E). rewrite <- pow2_scaled by lia. replace (E + (k - E)) with k by lia.
  lra.
Qed.

Lemma round_nearest_even_lower (x : Q) (m E k : Z) (l : location) :
  placed x m E l -> (2 ^ k <= x)%Q -> E <= k -> (2 ^ k <= scaled (round_nearest_even m l) E)%Q.
Proof.
  intros H Hx Hk. apply placed_bounds in H. destruct H as [_ Hhi].
  pose proof (round_nearest_even_range m l) as R.
  replace k with (E + (k - E)) by lia. rewrite pow2_scaled by lia. apply scaled_le.
  cut (2 ^ (k - E) < m + 1); [lia |].
  apply (scaled_lt _ _ E). rewrite <- pow2_scaled by lia. replace (E + (k - E)) with k by lia.
  lra.
Qed.

Lemma mag_mono (x y : Q) (Dx Dy : Z) : (x <= y)%Q -> mag x Dx -> mag y Dy -> Dx <= Dy.
Proof.
  intros Hxy [Hx _] [_ Hy]. cut (Dx - 1 < Dy); [lia |]. apply pow2_lt_inv. lra.
Qed.

Lemma rounded_value_mono (x y : Q) (Dx Dy mx my : Z) (lx ly : location) :
  (x <= y)%Q -> mag x Dx -> mag y Dy ->
  placed x mx (fexp prec64 emax64 Dx) lx -> placed y my (fexp prec64 emax64 Dy) ly ->
  (scaled (round_nearest_even mx lx) (fexp prec64 emax64 Dx) <=
   scaled (round_nearest_even my ly) (fexp prec64 emax64 Dy))%Q.
Proof.
  intros Hxy Mx My Px Py. pose proof (mag_mono x y Dx Dy Hxy Mx My) as HD.
  destruct (Z.eq_dec (fexp prec64 emax64 Dx) (fexp prec64 emax64 Dy)) as [He | He].
  - rewrite <- He in *. apply scaled_le. eapply round_nearest_even_mono; eassumption.
  - rewrite !fexp64_eq in *.
    apply Qle_trans with (2 ^ (Dy - 1))%Q.
    + eapply round_nearest_even_upper; [exact Px | | lia].
      apply Qlt_le_trans with (2 ^ Dx)%Q; [apply Mx | apply pow2_le; lia].
    + eapply round_nearest_even_lower; [exact Py | apply My | lia].
Qed.

Lemma SFleb_zero_nonNegative (out : spec_float) :
  nonNegative out -> SFleb (S754_zero false) out = true.
Proof. intros [-> | [(m & e & -> & _ & _) | ->]]; reflexivity. Qed.

Lemma roundsTo_mono (x y : Q) (ox oy : spec_float) :
  (x <= y)%Q -> roundsTo x ox -> roundsTo y oy -> SFleb ox oy = true.
Proof.
  intros Hxy Hx Hy. pose proof (roundsTo_nonNegative y oy Hy) as Hnn.
  destruct Hx as (Dx & mx & lx & Mx & Px & Hmx & Ox).
  destruct Hy as (Dy & my & ly & My & Py & Hmy & Oy).
  pose proof (rounded_value_mono x y Dx Dy mx my lx ly Hxy Mx My Px Py) as Hv.
  set (nx := round_nearest_even mx lx) in *. set (ny := round_nearest_even my ly) in *.
  set (Ex := fexp prec64 emax64 Dx) in *. set (Ey := fexp prec64 emax64 Dy) in *.
  assert (Hpos : forall n E, 0 < n -> (0 < scaled n E)%Q).
  { intros n E Hn. rewrite <- (scaled_0 E). apply scaled_lt. exact Hn. }
  destruct Ox as [[_ ->] | [Hnx Ox]]; [apply SFleb_zero_nonNegative; exact Hnn |].
  specialize (Hpos nx Ex Hnx).
  destruct Oy as [[Hny ->] | [Hny Oy]].
  { exfalso. rewrite Hny, scaled_0 in Hv. lra. }
  destruct Ox as [(m1 & e1 & -> & B1 & V1) | [-> V1]];
    destruct Oy as [(m2 & e2 & -> & B2 & V2) | [-> V2]].
  - apply SFleb_finite; [assumption | assumption |]. lra.
  - reflexivity.
  - exfalso. pose proof (bounded_below_overflow m2 e2 B2). lra.
  - reflexivity.
Qed.

(** *** Exact results *)

Lemma mag_unique (x : Q) (D D' : Z) : mag x D -> mag x D' -> D = D'.
Proof.
  intros H H'. pose proof (mag_mono x x D D' ltac:(lra) H H').
  pose proof (mag_mono x x D' D ltac:(lra) H' H). lia.
Qed.

Lemma scaled_inj (m n e : Z) : (scaled m e == scaled n e)%Q -> m = n.
Proof.
  intros H. apply Z.le_antisymm; apply (scaled_le _ _ e); lra.
Qed.

Lemma placed_multiple (x : Q) (k m E : Z) (l : location) :
  (x == scaled k E)%Q -> placed x m E l -> round_nearest_even m l = k.
Proof.
  intros Hx H. pose proof (placed_bounds x m E l H) as [Hlo Hhi].
  assert (Hm : m = k).
  { assert (m <= k) by (apply (scaled_le _ _ E); lra).
    assert (k < m + 1) by (apply (scaled_lt _ _ E); lra). lia. }
  subst m. pose proof (pow2_pos E) as Hp. pose proof (scaled_double_succ k E) as H1.
  destruct l as [| []]; cbn [placed round_nearest_even] in *; try reflexivity; exfalso; lra.
Qed.

Lemma roundsTo_exact (x : Q) (out : spec_float) (D k : Z) :
  roundsTo x out -> mag x D -> (x == scaled k (fexp prec64 emax64 D))%Q ->
  outcome k (fexp prec64 emax64 D) out.
Proof.
  intros (D' & m1 & l1 & M' & P & _ & O) M Hx.
  rewrite (mag_unique x D D' M M') in *.
  rewrite (placed_multiple x k m1 _ l1 Hx P) in O. exact O.
Qed.

Lemma iter_xO (p k : BinNums.positive) : Z.pos (Pos.iter xO p k) = Z.pos p * 2 ^ Z.pos k.
Proof.
  change (Pos.iter xO p k) with (shift_pos k p). rewrite shift_pos_correct.
  change (Z.pow_pos 2 k) with (2 ^ Z.pos k). lia.
Qed.

Lemma digits2_shift (p q : BinNums.positive) (k : Z) :
  0 <= k -> Z.pos q = Z.pos p * 2 ^ k -> Z.pos (digits2_pos q) = Z.pos (digits2_pos p) + k.
Proof.
  intros Hk Hq. pose proof (digits2_pos_spec p) as [Dlo Dhi].
  apply digits2_unique. rewrite Hq.
  replace (Z.pos (digits2_pos p) + k - 1) with (Z.pos (digits2_pos p) - 1 + k) by lia.
  rewrite !Z.pow_add_r by lia.
  assert (Hp : 0 < 2 ^ k) by (apply Z.pow_pos_nonneg; lia).
  split; [apply Z.mul_le_mono_nonneg_r; lia | apply Z.mul_lt_mono_pos_r; lia].
Qed.

Lemma binary_round_rounds (p : BinNums.positive) (e : Z) :
  roundsTo (scaled (Z.pos p) e) (binary_round prec64 emax64 false p e).
Proof.
  unfold binary_round, shl_align.
  destruct (fexp prec64 emax64 (Z.pos (digits2_pos p) + e) - e) as [| k | k] eqn:Ek.
  - apply binary_round_aux_rounds; [reflexivity | cbn [Zdigits2]; lia].
  - apply binary_round_aux_rounds; [reflexivity | cbn [Zdigits2]; lia].
  - set (E := fexp prec64 emax64 (Z.pos (digits2_pos p) + e)) in *.
    pose proof (iter_xO p k) as Hq.
    pose proof (digits2_shift p (Pos.iter xO p k) (Z.pos k) ltac:(lia) Hq) as Hd.
    apply binary_round_aux_rounds.
    + cbn [placed]. rewrite Hq. replace e with (E + Z.pos k) by lia.
      apply scaled_shift. lia.
    + cbn [Zdigits2]. rewrite Hd.
      replace (Z.pos (digits2_pos p) + Z.pos k + E) with (Z.pos (digits2_pos p) + e) by lia.
      fold E. lia.
Qed.

Lemma scaled_exp0 (m : Z) : (scaled m 0 == inject_Z m)%Q.
Proof. unfold scaled. change (2 ^ 0)%Q with 1%Q. ring. Qed.

Lemma doubleOfInt_exact (n : Z) :
  0 < n < 2 ^ 53 ->
  exists mo eo, doubleOfInt n = S754_finite false mo eo /\
    bounded prec64 emax64 mo eo = true /\ (scaled (Z.pos mo) eo == inject_Z n)%Q.
Proof.
  intros [Hn Hhi]. destruct n as [| p | p]; [lia | | lia].
  unfold doubleOfInt, doubleOfZ, binary_normalize.
  pose proof (binary_round_rounds p 0) as R.
  assert (M : mag (scaled (Z.pos p) 0) (Z.pos (digits2_pos p))).
  { replace (Z.pos (digits2_pos p)) with (Zdigits2 (Z.pos p) + 0) by (cbn [Zdigits2]; lia).
    apply (mag_of_placed _ p 0 loc_Exact). reflexivity. }
  pose proof (digits2_pos_spec p) as [Dlo Dhi].
  assert (Hd : Z.pos (digits2_pos p) <= 53).
  { cut (Z.pos (digits2_pos p) - 1 < 53); [lia |]. apply (Z.pow_lt_mono_r_iff 2); lia. }
  assert (HE : fexp prec64 emax64 (Z.pos (digits2_pos p)) = Z.pos (digits2_pos p) - 53).
  { rewrite fexp64_eq. lia. }
  set (d := Z.pos (digits2_pos p)) in *.
  assert (Hx : (scaled (Z.pos p) 0 == scaled (Z.pos p * 2 ^ (53 - d)) (fexp prec64 emax64 d))%Q).
  { rewrite HE. rewrite <- scaled_shift by lia. replace (d - 53 + (53 - d)) with 0 by lia. reflexivity. }
  pose proof (roundsTo_exact _ _ d _ R M Hx) as O.
  assert (Hk : 0 < Z.pos p * 2 ^ (53 - d)).
  { apply Z.mul_pos_pos; [lia | apply Z.pow_pos_nonneg; lia]. }
  destruct O as [[Hz _] | [_ [(mo & eo & Ho & Hb & Hv) | [_ Hv]]]]; [lia | |].
  - exists mo, eo. split; [exact Ho |]. split; [exact Hb |].
    rewrite Hv, <- Hx. apply scaled_exp0.
  - exfalso. rewrite <- Hx, scaled_exp0 in Hv.
    assert (H1 : (inject_Z (Z.pos p) < inject_Z (2 ^ 53))%Q) by (rewrite <- Zlt_Qlt; exact Hhi).
    rewrite <- pow2_Z in H1 by lia.
    pose proof (pow2_lt 53 1024 ltac:(lia)). lra.
Qed.

(** *** Multiplication *)

Lemma digits2_mul (p q : BinNums.positive) :
  Z.pos (digits2_pos p) + Z.pos (digits2_pos q) - 1 <= Z.pos (digits2_pos (p * q)).
Proof.
  pose proof (digits2_pos_spec p) as [Plo _]. pose proof (digits2_pos_spec q) as [Qlo _].
  pose proof (digits2_pos_spec (p * q)) as [_ Hhi].
  cut (Z.pos (digits2_pos p) - 1 + (Z.pos (digits2_pos q) - 1) < Z.pos (digits2_pos (p * q))); [lia |].
  apply (Z.pow_lt_mono_r_iff 2); [lia | lia |].
  rewrite Z.pow_add_r by lia. rewrite Pos2Z.inj_mul in Hhi.
  eapply Z.le_lt_trans; [| exact Hhi].
  apply Z.mul_le_mono_nonneg; try assumption; apply Z.pow_nonneg; lia.
Qed.

Lemma doubleMul_rounds (mx my : BinNums.positive) (ex ey : Z) :
  bounded prec64 emax64 mx ex = true -> bounded prec64 emax64 my ey = true ->
  roundsTo (scaled (Z.pos mx) ex * scaled (Z.pos my) ey)
           (doubleMul (S754_finite false mx ex) (S754_finite false my ey)).
Proof.
  intros Bx By. unfold doubleMul, SFmul. cbn [xorb].
  apply binary_round_aux_rounds.
  - cbn [placed]. unfold scaled. rewrite Pos2Z.inj_mul, inject_Z_mult, pow2_add. ring.
  - cbn [Zdigits2]. pose proof (digits2_mul mx my) as Hd.
    apply bounded_canonical in Bx, By. rewrite fexp64_eq. lia.
Qed.

(** *** Rounding to an integer *)

Lemma Qfloor_unique (x : Q) (z : Z) :
  (inject_Z z <= x)%Q -> (x < inject_Z (z + 1))%Q -> Qfloor x = z.
Proof.
  intros Hlo Hhi. pose proof (Qfloor_le x) as Flo. pose proof (Qlt_floor x) as Fhi.
  assert (z < Qfloor x + 1) by (rewrite Zlt_Qlt; lra).
  assert (Qfloor x < z + 1) by (rewrite Zlt_Qlt; lra). lia.
Qed.

Lemma doubleRound_finite (m : BinNums.positive) (e : Z) :
  bounded prec64 emax64 m e = true ->
  roundedTo (scaled (Z.pos m) e) (doubleRound (S754_finite false m e)).
Proof.
  intros B. unfold doubleRound. destruct (Z.leb 0 e) eqn:He.
  - apply Z.leb_le in He.
    assert (Hv : (scaled (Z.pos m) e == inject_Z (Z.pos m * 2 ^ e))%Q).
    { rewrite <- scaled_exp0, <- scaled_shift by lia. reflexivity. }
    assert (Hf : Qfloor (scaled (Z.pos m) e + (1 # 2)) = Z.pos m * 2 ^ e).
    { apply Qfloor_unique; [lra |]. rewrite inject_Z_plus. change (inject_Z 1) with 1%Q. lra. }
    right. rewrite Hf. split.
    + apply Z.mul_pos_pos; [lia | apply Z.pow_pos_nonneg; lia].
    + exists m, e. auto.
  - apply Z.leb_gt in He.
    assert (Hq : (Z.pos m # Z.to_pos (2 ^ (- e)) == scaled (Z.pos m) e)%Q).
    { rewrite Qmake_Qdiv. rewrite Z2Pos.id by (apply Z.pow_pos_nonneg; lia).
      rewrite <- pow2_Z by lia. unfold scaled, Qdiv. rewrite <- Qpower_opp.
      replace (- - e) with e by lia. reflexivity. }
    cbv zeta.
    rewrite (Qfloor_comp _ (scaled (Z.pos m) e + (1 # 2))) by (rewrite Hq; reflexivity).
    set (n := Qfloor (scaled (Z.pos m) e + (1 # 2))).
    assert (Hpos : (0 < scaled (Z.pos m) e)%Q).
    { rewrite <- (scaled_0 e). apply scaled_lt. lia. }
    assert (Hn0 : 0 <= n).
    { change 0 with (Qfloor 0). apply Qfloor_resp_le. lra. }
    destruct (Z.eqb n 0) eqn:Hz.
    + apply Z.eqb_eq in Hz. left. auto.
    + apply Z.eqb_neq in Hz. right. split; [lia |].
      apply doubleOfInt_exact. split; [lia |].
      apply bounded_canonical in B. destruct B as (_ & Hd & _).
      pose proof (digits2_pos_spec m) as [_ Dhi].
      assert (Hm : Z.pos m < 2 ^ 53).
      { eapply Z.lt_le_trans; [exact Dhi | apply Z.pow_le_mono_r; lia]. }
      assert (Hv : (scaled (Z.pos m) e < 2 ^ 52)%Q).
      { apply Qlt_le_trans with (2 ^ (e + 53))%Q; [| apply pow2_le; lia].
        rewrite pow2_scaled by lia. apply scaled_lt. exact Hm. }
      pose proof (Qfloor_le (scaled (Z.pos m) e + (1 # 2))) as Hfl. fold n in Hfl.
      rewrite (pow2_Z 52) in Hv by lia.
      assert (Hlt : n < 2 ^ 52 + 1).
      { rewrite Zlt_Qlt, inject_Z_plus. change (inject_Z 1) with 1%Q. lra. }
      assert (2 ^ 52 < 2 ^ 53) by (apply Z.pow_lt_mono_r; lia). lia.
Qed.

Lemma roundedTo_mono (v w : Q) (ov ow : spec_float) :
  (v <= w)%Q -> roundedTo v ov -> roundedTo w ow -> SFleb ov ow = true.
Proof.
  intros Hvw Hv Hw.
  assert (Hn : Qfloor (v + (1 # 2)) <= Qfloor (w + (1 # 2))) by (apply Qfloor_resp_le; lra).
  destruct Hv as [[_ ->] | [Hv (m1 & e1 & -> & B1 & V1)]].
  - destruct Hw as [[_ ->] | [_ (m2 & e2 & -> & _ & _)]]; reflexivity.
  - destruct Hw as [[Hw _] | [_ (m2 & e2 & -> & B2 & V2)]]; [lia |].
    apply SFleb_finite; [assumption | assumption |]. rewrite V1, V2, <- Zle_Qle. exact Hn.
Qed.

(** *** Division by 100 *)

Lemma scaled_times (a m e : Z) : (inject_Z a * scaled m e == scaled (a * m) e)%Q.
Proof. unfold scaled. rewrite inject_Z_mult. ring. Qed.

Lemma Qmult_lt_cancel (a x y : Q) : (0 < a)%Q -> (a * x < a * y)%Q -> (x < y)%Q.
Proof. intros Ha H. apply (Qmult_lt_l x y a Ha). exact H. Qed.

Lemma Qmult_eq_cancel (a x y : Q) : (0 < a)%Q -> (a * x == a * y)%Q -> (x == y)%Q.
Proof. intros Ha H. apply (Qmult_inj_l x y a); [lra | exact H]. Qed.

Lemma new_location_placed (v : Q) (c q r e : Z) :
  0 <= r < c ->
  (inject_Z c * v == scaled (c * q + r) e)%Q ->
  placed v q e (new_location c r).
Proof.
  intros Hr Hv.
  assert (Ha : (0 < inject_Z c)%Q) by (change 0%Q with (inject_Z 0); rewrite <- Zlt_Qlt; lia).
  pose proof (scaled_times c q e) as T0.
  pose proof (scaled_times c (2 * q + 1) e) as T1.
  pose proof (scaled_times c (q + 1) e) as T2.
  pose proof (scaled_double (c * q + r) e) as T3.
  assert (Hparity : Z.even c = false -> 2 * r <> c).
  { intros Hodd Heq. rewrite <- Heq, Z.even_mul in Hodd. discriminate Hodd. }
  assert (Exact : r = 0 -> (v == scaled q e)%Q).
  { intros ->. apply (Qmult_eq_cancel (inject_Z c)); [exact Ha |].
    rewrite Hv, T0. replace (c * q + 0) with (c * q) by lia. reflexivity. }
  assert (Above : 0 < r -> (scaled q e < v)%Q).
  { intros H. apply (Qmult_lt_cancel (inject_Z c)); [exact Ha |]. rewrite Hv, T0.
    apply scaled_lt. lia. }
  assert (Below : (v < scaled (q + 1) e)%Q).
  { apply (Qmult_lt_cancel (inject_Z c)); [exact Ha |]. rewrite Hv, T2.
    apply scaled_lt. lia. }
  assert (Low : 2 * r < c -> (2 * v < scaled (2 * q + 1) e)%Q).
  { intros H. apply (Qmult_lt_cancel (inject_Z c)); [exact Ha |].
    assert (L : (scaled (2 * (c * q + r)) e < scaled (c * (2 * q + 1)) e)%Q) by (apply scaled_lt; lia).
    lra. }
  assert (High : c < 2 * r -> (scaled (2 * q + 1) e < 2 * v)%Q).
  { intros H. apply (Qmult_lt_cancel (inject_Z c)); [exact Ha |].
    assert (L : (scaled (c * (2 * q + 1)) e < scaled (2 * (c * q + r)) e)%Q) by (apply scaled_lt; lia).
    lra. }
  assert (Mid : 2 * r = c -> (2 * v == scaled (2 * q + 1) e)%Q).
  { intros H. apply (Qmult_eq_cancel (inject_Z c)); [exact Ha |].
    assert (L : (scaled (c * (2 * q + 1)) e == scaled (2 * (c * q + r)) e)%Q).
    { replace (c * (2 * q + 1)) with (2 * (c * q + r)) by lia. reflexivity. }
    lra. }
  unfold new_location, new_location_even, new_location_odd.
  destruct (Z.even c) eqn:Ec; destruct (Z.eqb_spec r 0) as [Hz | Hz];
    try (cbn [placed]; apply Exact; exact Hz).
  - destruct (Z.compare_spec (2 * r) c) as [Hc | Hc | Hc]; cbn [placed].
    + apply Mid. exact Hc.
    + split; [apply Above; lia | apply Low; exact Hc].
    + split; [apply High; exact Hc | exact Below].
  - specialize (Hparity eq_refl).
    destruct (Z.compare_spec (2 * r + 1) c) as [Hc | Hc | Hc]; cbn [placed].
    + split; [apply Above; lia | apply Low; lia].
    + split; [apply Above; lia | apply Low; lia].
    + split; [apply High; lia | exact Below].
Qed.

Lemma doubleOfInt_100 : doubleOfInt 100 = S754_finite false hundred (-46).
Proof. vm_compute. reflexivity. Qed.

Lemma hundred_value : (inject_Z (Z.pos hundred) == 100 * 2 ^ 46)%Q.
Proof. vm_compute. reflexivity. Qed.

Lemma hundred_bounds : 2 ^ 52 <= Z.pos hundred < 2 ^ 53.
Proof. split; [apply Z.leb_le | apply Z.ltb_lt]; vm_compute; reflexivity. Qed.

Lemma doubleDiv_100_rounds (v : Q) (mx : BinNums.positive) (ex : Z) :
  bounded prec64 emax64 mx ex = true ->
  1 <= Z.pos (digits2_pos mx) + ex ->
  (100 * v == scaled (Z.pos mx) ex)%Q ->
  roundsTo v (doubleDiv (S754_finite false mx ex) (doubleOfInt 100)).
Proof.
  intros B Hone Hv. rewrite doubleOfInt_100. unfold doubleDiv, SFdiv, SFdiv_core_binary.
  cbn [xorb Zdigits2].
  change (Z.pos (digits2_pos hundred)) with 53.
  pose proof (bounded_canonical mx ex B) as (Hex & Hd & _).
  pose proof (digits2_pos_spec mx) as [Dlo _].
  pose proof hundred_bounds as [Clo Chi].
  set (d := Z.pos (digits2_pos mx)) in *.
  rewrite fexp64_eq.
  replace (Z.min (Z.max (d + ex - (53 + -46) - 53) (-1074)) (ex - -46)) with (d + ex - 60) by lia.
  replace (ex - -46 - (d + ex - 60)) with (106 - d) by lia.
  assert (Hs : 0 < 106 - d) by lia.
  assert (Hshift : match 106 - d with
                   | Z0 => Z.pos mx
                   | Zpos _ => Z.shiftl (Z.pos mx) (106 - d)
                   | Zneg _ => 0
                   end = Z.pos mx * 2 ^ (106 - d)).
  { destruct (106 - d) eqn:Es; [lia | | lia]. rewrite <- Es, Z.shiftl_mul_pow2 by lia. reflexivity. }
  rewrite Hshift. set (m' := Z.pos mx * 2 ^ (106 - d)).
  assert (Hm' : 2 ^ 105 <= m').
  { unfold m'. replace 105 with (d - 1 + (106 - d)) by lia. rewrite Z.pow_add_r by lia.
    apply Z.mul_le_mono_nonneg_r; [apply Z.pow_nonneg; lia | exact Dlo]. }
  pose proof (Z_div_mod m' (Z.pos hundred) eq_refl) as Hdiv.
  destruct (Z.div_eucl m' (Z.pos hundred)) as [q r]. destruct Hdiv as [Hqr Hr].
  assert (Hq : 2 ^ 52 <= q).
  { assert (H105 : 2 ^ 105 = 2 ^ 53 * 2 ^ 52) by reflexivity.
    destruct (Z_lt_le_dec q (2 ^ 52)) as [Hlt | Hge]; [exfalso | exact Hge].
    assert (Z.pos hundred * (q + 1) <= Z.pos hundred * 2 ^ 52) by (apply Z.mul_le_mono_nonneg_l; lia).
    assert (Z.pos hundred * 2 ^ 52 < 2 ^ 53 * 2 ^ 52) by (apply Z.mul_lt_mono_pos_r; [reflexivity | lia]).
    lia. }
  destruct q as [| pq | pq]; [exfalso; apply Hq; reflexivity | | exfalso; apply Hq; reflexivity].
  assert (Hdq : 53 <= Z.pos (digits2_pos pq)).
  { pose proof (digits2_pos_spec pq) as [_ Qhi].
    cut (52 < Z.pos (digits2_pos pq)); [lia |]. apply (Z.pow_lt_mono_r_iff 2); lia. }
  apply binary_round_aux_rounds.
  - apply new_location_placed; [exact Hr |]. rewrite <- Hqr. unfold m'.
    rewrite <- scaled_shift by lia. replace (d + ex - 60 + (106 - d)) with (ex + 46) by lia.
    rewrite hundred_value. unfold scaled in *. rewrite pow2_add.
    rewrite <- Qmult_assoc, (Qmult_comm (2 ^ 46)), Qmult_assoc, Hv. ring.
  - cbn [Zdigits2]. rewrite fexp64_eq. lia.
Qed.

(** *** The derived minimum on doubles *)

Lemma SFleb_inClass_infinity (dom : BinNums.positive -> Z -> Prop) (x : spec_float) :
  inClass dom x -> SFleb x (S754_infinity false) = true.
Proof. intros [-> | [(m & e & -> & _ & _) | ->]]; reflexivity. Qed.

Lemma SFleb_zero_inClass (dom : BinNums.positive -> Z -> Prop) (x : spec_float) :
  inClass dom x -> SFleb (S754_zero false) x = true.
Proof. intros [-> | [(m & e & -> & _ & _) | ->]]; reflexivity. Qed.

Lemma lift_mono (f : spec_float -> spec_float) (dom dom' : BinNums.positive -> Z -> Prop) :
  f (S754_zero false) = S754_zero false ->
  f (S754_infinity false) = S754_infinity false ->
  (forall m e, bounded prec64 emax64 m e = true -> dom m e ->
     inClass dom' (f (S754_finite false m e))) ->
  (forall m1 e1 m2 e2,
     bounded prec64 emax64 m1 e1 = true -> bounded prec64 emax64 m2 e2 = true ->
     dom m1 e1 -> dom m2 e2 ->
     (scaled (Z.pos m1) e1 <= scaled (Z.pos m2) e2)%Q ->
     SFleb (f (S754_finite false m1 e1)) (f (S754_finite false m2 e2)) = true) ->
  forall x y, inClass dom x -> inClass dom y -> SFleb x y = true ->
    inClass dom' (f x) /\ inClass dom' (f y) /\ SFleb (f x) (f y) = true.
Proof.
  intros Hzero Hinf Hclass Hfin x y Hx Hy Hle.
  assert (Hout : forall z, inClass dom z -> inClass dom' (f z)).
  { intros z [-> | [(m & e & -> & B & D) | ->]].
    - rewrite Hzero. left. reflexivity.
    - apply Hclass; assumption.
    - rewrite Hinf. right. right. reflexivity. }
  split; [apply Hout; exact Hx |]. split; [apply Hout; exact Hy |].
  pose proof (Hout y Hy) as Oy. pose proof (Hout x Hx) as Ox.
  destruct Hx as [-> | [(m1 & e1 & -> & B1 & D1) | ->]].
  - rewrite Hzero. apply (SFleb_zero_inClass dom'). exact Oy.
  - destruct Hy as [-> | [(m2 & e2 & -> & B2 & D2) | ->]].
    + discriminate Hle.
    + apply Hfin; try assumption. apply SFleb_finite; assumption.
    + rewrite Hinf. apply (SFleb_inClass_infinity dom'). exact Ox.
  - destruct Hy as [-> | [(m2 & e2 & -> & B2 & D2) | ->]]; try discriminate Hle.
    rewrite Hinf. reflexivity.
Qed.

Lemma scaled_pos (m : BinNums.positive) (e : Z) : (0 < scaled (Z.pos m) e)%Q.
Proof. rewrite <- (scaled_0 e). apply scaled_lt. lia. Qed.

Lemma doubleMul_mono (mc : BinNums.positive) (ec : Z) (x y : spec_float) :
  bounded prec64 emax64 mc ec = true ->
  nonNegative x -> nonNegative y -> SFleb x y = true ->
  nonNegative (doubleMul x (S754_finite false mc ec)) /\
  nonNegative (doubleMul y (S754_finite false mc ec)) /\
  SFleb (doubleMul x (S754_finite false mc ec)) (doubleMul y (S754_finite false mc ec)) = true.
Proof.
  intros Bc. apply (lift_mono (fun z => doubleMul z (S754_finite false mc ec)) anyNumber anyNumber).
  - reflexivity.
  - reflexivity.
  - intros m e B _. eapply roundsTo_nonNegative. apply doubleMul_rounds; assumption.
  - intros m1 e1 m2 e2 B1 B2 _ _ Hle.
    pose proof (scaled_pos mc ec) as Hc.
    eapply roundsTo_mono; [| apply doubleMul_rounds; assumption | apply doubleMul_rounds; assumption].
    apply Qmult_le_compat_r; [exact Hle | lra].
Qed.

Lemma value_below_digits (m : BinNums.positive) (e : Z) :
  (scaled (Z.pos m) e < 2 ^ (Z.pos (digits2_pos m) + e))%Q.
Proof.
  pose proof (digits2_pos_spec m) as [_ Dhi].
  replace (Z.pos (digits2_pos m) + e) with (e + Z.pos (digits2_pos m)) by lia.
  rewrite pow2_scaled by lia. apply scaled_lt. exact Dhi.
Qed.

Lemma roundedTo_inClass (v : Q) (out : spec_float) : roundedTo v out -> inClass atLeastOne out.
Proof.
  intros [[_ ->] | [Hn (mo & eo & -> & B & V)]]; [left; reflexivity |].
  right. left. exists mo, eo. split; [reflexivity |]. split; [exact B |].
  unfold atLeastOne. cut (0 < Z.pos (digits2_pos mo) + eo); [lia |].
  apply pow2_lt_inv. eapply Qle_lt_trans; [| apply value_below_digits].
  rewrite V. change (2 ^ 0)%Q with (inject_Z 1). rewrite <- Zle_Qle. lia.
Qed.

Lemma doubleRound_mono (x y : spec_float) :
  nonNegative x -> nonNegative y -> SFleb x y = true ->
  inClass atLeastOne (doubleRound x) /\ inClass atLeastOne (doubleRound y) /\
  SFleb (doubleRound x) (doubleRound y) = true.
Proof.
  apply (lift_mono doubleRound anyNumber atLeastOne).
  - reflexivity.
  - reflexivity.
  - intros m e B _. eapply roundedTo_inClass. apply doubleRound_finite. exact B.
  - intros m1 e1 m2 e2 B1 B2 _ _ Hle.
    eapply roundedTo_mono; [exact Hle | apply doubleRound_finite; assumption
                           | apply doubleRound_finite; assumption].
Qed.

Lemma doubleDiv_100_mono (x y : spec_float) :
  inClass atLeastOne x -> inClass atLeastOne y -> SFleb x y = true ->
  nonNegative (doubleDiv x (doubleOfInt 100)) /\ nonNegative (doubleDiv y (doubleOfInt 100)) /\
  SFleb (doubleDiv x (doubleOfInt 100)) (doubleDiv y (doubleOfInt 100)) = true.
Proof.
  apply (lift_mono (fun z => doubleDiv z (doubleOfInt 100)) atLeastOne anyNumber).
  - rewrite doubleOfInt_100. reflexivity.
  - rewrite doubleOfInt_100. reflexivity.
  - intros m e B D. apply (roundsTo_nonNegative (scaled (Z.pos m) e * (1 # 100))).
    apply doubleDiv_100_rounds; [exact B | exact D | ring].
  - intros m1 e1 m2 e2 B1 B2 D1 D2 Hle.
    apply (roundsTo_mono (scaled (Z.pos m1) e1 * (1 # 100)) (scaled (Z.pos m2) e2 * (1 # 100))).
    + lra.
    + apply doubleDiv_100_rounds; [exact B1 | exact D1 | ring].
    + apply doubleDiv_100_rounds; [exact B2 | exact D2 | ring].
Qed.

(** [b * 1.15 * 100], the argument of [Math.round]. *)
Lemma scaledPrice_mono (x y : spec_float) :
  nonNegative x -> nonNegative y -> SFleb x y = true ->
  nonNegative (doubleMul (doubleMul x double_1_15) (doubleOfInt 100)) /\
  nonNegative (doubleMul (doubleMul y double_1_15) (doubleOfInt 100)) /\
  SFleb (doubleMul (doubleMul x double_1_15) (doubleOfInt 100))
        (doubleMul (doubleMul y double_1_15) (doubleOfInt 100)) = true.
Proof.
  intros Hx Hy Hle.
  change double_1_15 with (S754_finite false 5179139571476070 (-52)).
  rewrite doubleOfInt_100.
  destruct (doubleMul_mono 5179139571476070 (-52) x y eq_refl Hx Hy Hle) as (H1 & H2 & H3).
  apply (doubleMul_mono hundred (-46) _ _ eq_refl H1 H2 H3).
Qed.

Lemma derived_mono (x y : spec_float) :
  nonNegative x -> nonNegative y -> SFleb x y = true ->
  nonNegative (doubleDiv (doubleRound (doubleMul (doubleMul x double_1_15) (doubleOfInt 100)))
                         (doubleOfInt 100)) /\
  SFleb (doubleDiv (doubleRound (doubleMul (doubleMul x double_1_15) (doubleOfInt 100)))
                   (doubleOfInt 100))
        (doubleDiv (doubleRound (doubleMul (doubleMul y double_1_15) (doubleOfInt 100)))
                   (doubleOfInt 100)) = true.
Proof.
  intros Hx Hy Hle.
  destruct (scaledPrice_mono x y Hx Hy Hle) as (H1 & H2 & H3).
  destruct (doubleRound_mono _ _ H1 H2 H3) as (R1 & R2 & R3).
  destruct (doubleDiv_100_mono _ _ R1 R2 R3) as (D1 & D2 & D3).
  split; assumption.
Qed.

Lemma positive_double (b : spec_float) :
  valid_binary prec64 emax64 b = true -> SFltb (S754_zero false) b = true ->
  nonNegative b /\
  calcPrecoMinFromBase_binary64 b =
  doubleDiv (doubleRound (doubleMul (doubleMul b double_1_15) (doubleOfInt 100))) (doubleOfInt 100).
Proof.
  intros Hv Hp. destruct b as [[|] | [|] | | [|] m e]; try discriminate Hp.
  - split; [right; right; reflexivity | reflexivity].
  - split; [| reflexivity]. right. left. exists m, e. unfold anyNumber. auto.
Qed.

Lemma SFleb_positive (b1 b2 : spec_float) :
  SFltb (S754_zero false) b1 = true -> SFleb b1 b2 = true -> SFltb (S754_zero false) b2 = true.
Proof.
  intros Hp Hle.
  destruct b1 as [[|] | [|] | | [|] m1 e1]; try discriminate Hp;
    destruct b2 as [[|] | [|] | | [|] m2 e2]; try discriminate Hle; reflexivity.
Qed.

Lemma derived_not_negative (b : spec_float) :
  valid_binary prec64 emax64 b = true ->
  SFleb (S754_zero false) (calcPrecoMinFromBase_binary64 b) = true.
Proof.
  intros Hv. destruct (SFltb (S754_zero false) b) eqn:Hp.
  - destruct (positive_double b Hv Hp) as [Hnn ->].
    assert (Hrefl : SFleb b b = true).
    { destruct b as [[|] | [|] | | [|] m e]; try discriminate Hp; [reflexivity |].
      apply SFleb_finite; try exact Hv. apply Qle_refl. }
    destruct (derived_mono b b Hnn Hnn Hrefl) as [Hd _].
    apply (SFleb_zero_inClass anyNumber). exact Hd.
  - destruct b as [[|] | [|] | | [|] m e]; try discriminate Hp; vm_compute; reflexivity.
Qed.

End Binary64.

(** C4 (amended). On doubles [calcPrecoMinFromBase] is monotonically
    increasing over the strictly positive base prices: for doubles
    [0 < b1 <= b2], plus infinity included, the derived minimum of [b1] is
    at most that of [b2]. The derived minimum of 100 is 115; 0 maps to the
    fallback constant 15, which is above the derived minimum of 1; and an
    absent base price maps to the fallback constant. *)
Theorem calcPrecoMinFromBase_binary64_monotone :
  (forall b1 b2 : spec_float,
      valid_binary prec64 emax64 b1 = true -> valid_binary prec64 emax64 b2 = true ->
      SFltb (S754_zero false) b1 = true -> SFleb b1 b2 = true ->
      SFleb (calcPrecoMinFromBase_binary64 b1) (calcPrecoMinFromBase_binary64 b2) = true) /\
  calcPrecoMinFromBase_binary64 (doubleOfInt 100) = doubleOfInt 115 /\
  calcPrecoMinFromBase_binary64 (S754_zero false) = doubleOfInt 15 /\
  SFleb (calcPrecoMinFromBase_binary64 (S754_zero false))
        (calcPrecoMinFromBase_binary64 (doubleOfInt 1)) = false /\
  (forall containerToString : ref -> string,
      calcPrecoMinFromBase containerToString VNull = PRECO_MIN_FALLBACK /\
      calcPrecoMinFromBase containerToString VUndefined = PRECO_MIN_FALLBACK).
Proof.
  split; [| split; [| split; [| split]]].
  - intros b1 b2 V1 V2 Hp Hle.
    pose proof (SFleb_positive b1 b2 Hp Hle) as Hp2.
    destruct (positive_double b1 V1 Hp) as [N1 ->].
    destruct (positive_double b2 V2 Hp2) as [N2 ->].
    apply derived_mono; assumption.
  - vm_compute. reflexivity.
  - vm_compute. reflexivity.
  - vm_compute. reflexivity.
  - intros containerToString. split; reflexivity.
Qed.

(** Witness of C4: the derived minimum of 100 is at most that of 200. *)
Lemma calcPrecoMinFromBase_binary64_monotone_witness :
  SFleb (calcPrecoMinFromBase_binary64 (doubleOfInt 100))
        (calcPrecoMinFromBase_binary64 (doubleOfInt 200)) = true.
Proof.
  apply (proj1 calcPrecoMinFromBase_binary64_monotone (doubleOfInt 100) (doubleOfInt 200)).
  - reflexivity.
  - reflexivity.
  - reflexivity.
  - reflexivity.
Defined.

(** ** The submission gate *)

Section Gate.

Lemma effectiveMin_spec (r : Row) : effectiveMin r = minimumOrFallback r.
Proof.
  unfold effectiveMin, minimumOrFallback, truthyNumber.
  destruct (precoMin r) as [| neg | q]; try reflexivity.
  destruct (Qeq_bool q 0); reflexivity.
Qed.

Lemma gate_blocked_exists (rows : list Row) :
  gate rows = blocked <-> exists r, In r rows /\ belowMin r = true.
Proof.
  unfold gate, priceBelowMinExists.
  destruct (existsb belowMin rows) eqn:E.
  - apply existsb_exists in E. split; [intros _; exact E | reflexivity].
  - split; [discriminate |]. intros Hex. apply existsb_exists in Hex. congruence.
Qed.

Lemma empty_price_not_below (r : Row) : precoUnit r = EmptyString -> belowMin r = false.
Proof. intros H. unfold belowMin, enteredPrice. rewrite H. reflexivity. Qed.

Lemma minimumOrFallback_stored (r : Row) :
  zeroOrNaN (precoMin r) = false -> minimumOrFallback r = precoMin r.
Proof.
  unfold minimumOrFallback, zeroOrNaN. destruct (precoMin r) as [| neg | q]; try easy.
  intros ->. reflexivity.
Qed.

(** C10. When the stored minimum of a line is 0 or [NaN], the gate uses
    15.0 in its place: a line of the draft whose stored minimum is 0 (or
    [NaN]) and whose entered price parses to a value strictly between 0
    and 15 blocks the gate, although the entered price is not below the
    stored minimum. *)
Theorem gate_zero_minimum_uses_fallback (rows : list Row) (r : Row) (v : Q) :
  In r rows ->
  zeroOrNaN (precoMin r) = true ->
  enteredPrice r = Fin v ->
  (0 < v)%Q -> (v < 15)%Q ->
  gate rows = blocked /\ effectiveMin r = Fin 15 /\ belowStoredMin r = false.
Proof.
  intros Hin Hz Hv H0 H15.
  assert (Hm : effectiveMin r = Fin 15).
  { rewrite effectiveMin_spec. unfold minimumOrFallback.
    destruct (precoMin r) as [| neg | q]; cbn in Hz; try discriminate; try reflexivity.
    rewrite Hz. reflexivity. }
  split; [| split; [exact Hm |]].
  - apply gate_blocked_exists. exists r. split; [exact Hin |].
    unfold belowMin, jgt. rewrite Hm, Hv.
    apply andb_true_intro. split; apply jlt_Fin; assumption.
  - unfold belowStoredMin. rewrite Hv.
    destruct (precoMin r) as [| neg | q]; cbn in Hz; try discriminate.
    + apply andb_false_r.
    + apply Qeq_bool_iff in Hz.
      destruct (jlt (Fin v) (Fin q)) eqn:E; [| apply andb_false_r].
      apply jlt_Fin in E. exfalso. lra.
Qed.

(** Witness of C10: price 10 against the stored minimum 0. *)
Lemma gate_zero_minimum_uses_fallback_witness :
  gate [lineWith "10" (Fin 0)] = blocked /\
  effectiveMin (lineWith "10" (Fin 0)) = Fin 15 /\
  belowStoredMin (lineWith "10" (Fin 0)) = false.
Proof.
  apply (gate_zero_minimum_uses_fallback [lineWith "10" (Fin 0)] (lineWith "10" (Fin 0)) 10%Q).
  - left. reflexivity.
  - reflexivity.
  - vm_compute. reflexivity.
  - reflexivity.
  - reflexivity.
Defined.

End Gate.

(** ** Order lines *)

Section OrderLines.

Lemma map_update_quantity_ok (f : Row -> Row) (rows : list Row) :
  (forall r, quantidade (f r) = quantidade r) ->
  forallb quantityOk rows = true -> forallb quantityOk (map f rows) = true.
Proof.
  intros Hf. induction rows as [| r rows IH]; [reflexivity |].
  cbn [map forallb]. intros H. apply andb_prop in H as [Hr Hrest].
  apply andb_true_intro. split; [| apply IH; exact Hrest].
  unfold quantityOk in *. rewrite Hf. exact Hr.
Qed.

Lemma forallb_lookup (P : Row -> bool) (rows : list Row) (i : nat) (r : Row) :
  forallb P rows = true -> rows !! i = Some r -> P r = true.
Proof.
  intros H Hi. rewrite forallb_forall in H. apply H.
  apply list_elem_of_In. eapply list_elem_of_lookup_2. exact Hi.
Qed.

Lemma forallb_insert (P : Row -> bool) (rows : list Row) (i : nat) (r : Row) :
  forallb P rows = true -> P r = true -> forallb P (<[i := r]> rows) = true.
Proof.
  revert i. induction rows as [| x rows IH]; intros i H Hr; [reflexivity |].
  cbn [forallb] in H. apply andb_prop in H as [Hx Hrest].
  destruct i as [| i]; cbn; apply andb_true_intro; split; auto.
Qed.

(** Moving a row keeps whatever holds of every row. *)
Lemma moveRow_forallb (P : Row -> bool) (index : nat) (rows : list Row) :
  forallb P rows = true ->
  forallb P (moveRowUp index rows) = true /\ forallb P (moveRowDown index rows) = true.
Proof.
  intros H. split.
  - destruct index as [| i]; [exact H |]. cbn [moveRowUp].
    destruct (rows !! i) as [a |] eqn:Ea; [| exact H].
    destruct (rows !! S i) as [b |] eqn:Eb; [| exact H].
    apply forallb_insert; [apply forallb_insert |]; eauto using forallb_lookup.
  - unfold moveRowDown. destruct (_ <=? _)%nat; [exact H |].
    destruct (rows !! index) as [a |] eqn:Ea; [| exact H].
    destruct (rows !! S index) as [b |] eqn:Eb; [| exact H].
    apply forallb_insert; [apply forallb_insert |]; eauto using forallb_lookup.
Qed.

(** The operations other than the quantity update keep every quantity. *)
Lemma other_operations_keep_quantity (rows : list Row) :
  forallb quantityOk rows = true ->
  (forall newId, forallb quantityOk (addRowDefault newId rows) = true) /\
  (forall rowId, forallb quantityOk (removeRow rowId rows) = true) /\
  (forall index, forallb quantityOk (moveRowUp index rows) = true) /\
  (forall index, forallb quantityOk (moveRowDown index rows) = true) /\
  (forall rowId preco, forallb quantityOk (onPrecoUnitChange rowId preco rows) = true) /\
  (forall rowId pid nome pm,
      forallb quantityOk (selectProduct rowId pid nome pm rows) = true) /\
  (forall rowId, forallb quantityOk (clearProduct rowId rows) = true).
Proof.
  intros H. split; [| split; [| split; [| split; [| split; [| split]]]]].
  - intros newId. unfold addRowDefault, addRow. rewrite forallb_app, H. reflexivity.
  - intros rowId. unfold removeRow. rewrite forallb_forall in *.
    intros r Hr. apply List.filter_In in Hr as [Hr _]. auto.
  - intros index. apply (moveRow_forallb quantityOk index rows H).
  - intros index. apply (moveRow_forallb quantityOk index rows H).
  - intros rowId preco. apply map_update_quantity_ok; [| exact H].
    intros r. destruct (String.eqb (id r) rowId); reflexivity.
  - intros rowId pid nome pm. apply map_update_quantity_ok; [| exact H].
    intros r. destruct (String.eqb (id r) rowId); reflexivity.
  - intros rowId. apply map_update_quantity_ok; [| exact H].
    intros r. destruct (String.eqb (id r) rowId); reflexivity.
Qed.

Lemma map_update_minimum_ok (f : Row -> Row) (rows : list Row) :
  (forall r, zeroOrNaN (precoMin (f r)) = false \/ precoMin (f r) = precoMin r) ->
  forallb (fun r => negb (zeroOrNaN (precoMin r))) rows = true ->
  forallb (fun r => negb (zeroOrNaN (precoMin r))) (map f rows) = true.
Proof.
  intros Hf. induction rows as [| r rows IH]; [reflexivity |].
  cbn [map forallb]. intros H. apply andb_prop in H as [Hr Hrest].
  apply andb_true_intro. split; [| apply IH; exact Hrest].
  destruct (Hf r) as [-> | ->]; [reflexivity | exact Hr].
Qed.

Lemma guardPrecoMin_nonzero (c : option number) : zeroOrNaN (guardPrecoMin c) = false.
Proof.
  destruct c as [[| [|] | q] |]; try reflexivity. unfold guardPrecoMin, truthyNumber.
  destruct (Qeq_bool q 0) eqn:E; [reflexivity |]. cbn [negb orb].
  destruct (jle (Fin q) (Fin 0)); [reflexivity | exact E].
Qed.

(** The operations of the form never store a minimum that is 0 or [NaN]:
    on the drafts that the form can reach, the minimum that the gate uses
    is the stored one. *)
Lemma operations_keep_minimum_nonzero (rows : list Row) :
  forallb (fun r => negb (zeroOrNaN (precoMin r))) rows = true ->
  (forall newId,
      forallb (fun r => negb (zeroOrNaN (precoMin r))) (addRowDefault newId rows) = true) /\
  (forall rowId,
      forallb (fun r => negb (zeroOrNaN (precoMin r))) (removeRow rowId rows) = true) /\
  (forall index,
      forallb (fun r => negb (zeroOrNaN (precoMin r))) (moveRowUp index rows) = true /\
      forallb (fun r => negb (zeroOrNaN (precoMin r))) (moveRowDown index rows) = true) /\
  (forall rowId text,
      forallb (fun r => negb (zeroOrNaN (precoMin r))) (quantidadeInput rowId text rows)
      = true) /\
  (forall rowId preco,
      forallb (fun r => negb (zeroOrNaN (precoMin r))) (onPrecoUnitChange rowId preco rows)
      = true) /\
  (forall rowId pid nome pm,
      forallb (fun r => negb (zeroOrNaN (precoMin r))) (selectProduct rowId pid nome pm rows)
      = true) /\
  (forall rowId,
      forallb (fun r => negb (zeroOrNaN (precoMin r))) (clearProduct rowId rows) = true).
Proof.
  intros H. split; [| split; [| split; [| split; [| split; [| split]]]]].
  - intros newId. unfold addRowDefault, addRow. rewrite forallb_app, H. reflexivity.
  - intros rowId. unfold removeRow. rewrite forallb_forall in *.
    intros r Hr. apply List.filter_In in Hr as [Hr _]. auto.
  - intros index. apply moveRow_forallb. exact H.
  - intros rowId text. apply map_update_minimum_ok; [| exact H].
    intros r. right. destruct (String.eqb (id r) rowId); reflexivity.
  - intros rowId preco. apply map_update_minimum_ok; [| exact H].
    intros r. right. destruct (String.eqb (id r) rowId); reflexivity.
  - intros rowId pid nome pm. apply map_update_minimum_ok; [| exact H].
    intros r. destruct (String.eqb (id r) rowId); [left | right; reflexivity].
    apply guardPrecoMin_nonzero.
  - intros rowId. apply map_update_minimum_ok; [| exact H].
    intros r. destruct (String.eqb (id r) rowId); [left | right]; reflexivity.
Qed.

(** C9. A line is created with quantity 1, but the quantity update does
    not keep the quantity at 1 or more: typing [0] (or [-2]) into the
    quantity field of a fresh line stores that number in the line. *)
Theorem quantity_update_breaks_invariant :
  forallb quantityOk (addRowDefault "l1" []) = true /\
  map quantidade (quantidadeInput "l1" "0" (addRowDefault "l1" [])) = [Fin 0] /\
  forallb quantityOk (quantidadeInput "l1" "0" (addRowDefault "l1" [])) = false /\
  map quantidade (quantidadeInput "l1" "-2" (addRowDefault "l1" [])) = [Fin (-2)] /\
  forallb quantityOk (onQuantidadeChange "l1" (Fin (-2)) (addRowDefault "l1" [])) = false.
Proof.
  split; [| split; [| split; [| split]]]; vm_compute; reflexivity.
Qed.

End OrderLines.

(** ** The gate on the drafts of the form *)

Section FormDrafts.

(** No draft of the form stores a minimum that is 0 or [NaN]. *)
Lemma formDraft_minimum_nonzero (rows : list Row) :
  formDraft rows -> forallb (fun r => negb (zeroOrNaN (precoMin r))) rows = true.
Proof.
  induction 1 as [| newId rows _ IH | rowId rows _ IH | index rows _ _ IH
                  | index rows _ _ IH | rowId text rows _ IH | rowId preco rows _ IH
                  | rowId pid nomeProduto c rows _ IH | rowId rows _ IH
                  | rowId optionValue selectedText rows _ IH];
    [reflexivity | ..];
    try (destruct (operations_keep_minimum_nonzero rows IH)
           as (Hadd & Hrem & Hmove & Hq & Hp & Hsel & Hclr)).
  - apply Hadd.
  - apply Hrem.
  - apply Hmove.
  - apply Hmove.
  - apply Hq.
  - apply Hp.
  - apply Hsel.
  - apply Hclr.
  - apply map_update_minimum_ok; [| exact IH].
    intros r. right. destruct (String.eqb (id r) rowId); reflexivity.
Qed.

Lemma effectiveMin_stored (r : Row) :
  zeroOrNaN (precoMin r) = false -> effectiveMin r = precoMin r.
Proof.
  unfold effectiveMin, zeroOrNaN, truthyNumber. destruct (precoMin r) as [| neg | q]; try easy.
  intros ->. reflexivity.
Qed.

(** The line of the examples, as the form builds it: a line is added, a
    product with minimum 15 is selected and the price is typed. *)
Lemma formDraft_example (entered : string) : formDraft [lineWith entered (Fin 15)].
Proof.
  change [lineWith entered (Fin 15)]
    with (onPrecoUnitChange "l1" entered
            (selectProduct "l1" "7" "MILHO 48 KG" (Some (Fin 15)) (addRowDefault "l1" []))).
  apply draft_precoUnit, draft_select, draft_addRow, draft_initial.
Qed.

(** C2. On every draft of the form the gate is blocked if and only if
    some line has an entered unit price that parses to a value above 0 and
    below the minimum price stored in that line. The draft of one line with
    price 10 and minimum 15 is a draft of the form and is blocked; after the
    price is set to 20 it is valid; and a line whose price is empty never
    blocks, whatever its minimum. *)
Theorem gate_blocked_iff (rows : list Row) :
  (formDraft rows ->
   (gate rows = blocked <->
    exists r, In r rows /\
              jgt (enteredPrice r) (Fin 0) = true /\
              jlt (enteredPrice r) (precoMin r) = true)) /\
  formDraft [lineWith "10" (Fin 15)] /\
  gate [lineWith "10" (Fin 15)] = blocked /\
  onPrecoUnitChange "l1" "20" [lineWith "10" (Fin 15)] = [lineWith "20" (Fin 15)] /\
  gate (onPrecoUnitChange "l1" "20" [lineWith "10" (Fin 15)]) = valid /\
  (forall (r : Row), precoUnit r = EmptyString ->
      belowMin r = false /\ gate (r :: rows) = gate rows).
Proof.
  split; [| split; [apply formDraft_example | split; [| split; [| split]]]].
  - intros Hd. apply formDraft_minimum_nonzero in Hd. rewrite forallb_forall in Hd.
    rewrite gate_blocked_exists.
    split; intros (r & Hin & Hr); exists r; (split; [exact Hin |]).
    + unfold belowMin in Hr. rewrite effectiveMin_stored in Hr.
      * apply andb_prop in Hr. exact Hr.
      * specialize (Hd r Hin). apply negb_true_iff in Hd. exact Hd.
    + unfold belowMin. rewrite effectiveMin_stored.
      * destruct Hr as [-> ->]. reflexivity.
      * specialize (Hd r Hin). apply negb_true_iff in Hd. exact Hd.
  - vm_compute. reflexivity.
  - reflexivity.
  - vm_compute. reflexivity.
  - intros r Hr. pose proof (empty_price_not_below r Hr) as Hb. split; [exact Hb |].
    unfold gate, priceBelowMinExists. cbn [existsb]. rewrite Hb. reflexivity.
Qed.

End FormDrafts.

(** Witness of C2: the draft of one line with price 10 and minimum 15, which
    the form reaches by adding a line, selecting a product and typing the
    price. *)
Lemma gate_blocked_iff_witness :
  gate [lineWith "10" (Fin 15)] = blocked <->
  exists r, In r [lineWith "10" (Fin 15)] /\
            jgt (enteredPrice r) (Fin 0) = true /\
            jlt (enteredPrice r) (precoMin r) = true.
Proof.
  apply (proj1 (gate_blocked_iff [lineWith "10" (Fin 15)])).
  change [lineWith "10" (Fin 15)]
    with (onPrecoUnitChange "l1" "10"
            (selectProduct "l1" "7" "MILHO 48 KG" (Some (Fin 15)) (addRowDefault "l1" []))).
  apply draft_precoUnit, draft_select, draft_addRow, draft_initial.
Defined.

(** ** The field locator *)

Section Locator.

Implicit Types (h : heap) (seen enclosing : gset ref) (names path : list string).

Lemma elem_of_heapRefs h (r : ref) : r ∈ heapRefs h <-> is_Some (h !! r).
Proof.
  unfold heapRefs. rewrite elem_of_list_to_set, elem_of_seq, lookup_lt_is_Some. lia.
Qed.

Lemma unseen_mono h seen seen' : seen ⊆ seen' -> (unseen h seen' <= unseen h seen)%nat.
Proof. intros Hs. unfold unseen. apply subseteq_size. set_solver. Qed.

Lemma unseen_add h (r : ref) (o : object) seen :
  h !! r = Some o -> r ∉ seen -> (unseen h ({[r]} ∪ seen) < unseen h seen)%nat.
Proof.
  intros Hr Hn. unfold unseen. apply subset_size.
  assert (r ∈ heapRefs h) by (apply elem_of_heapRefs; eauto).
  set_solver.
Qed.

Lemma unseen_empty h : unseen h ∅ = length h.
Proof.
  unfold unseen, heapRefs. rewrite difference_empty_L.
  rewrite size_list_to_set; [apply length_seq | apply NoDup_seq].
Qed.

(** A loop returns when its body does, and keeps what the body keeps. *)
Lemma firstHit_returns {A B} (P : gset ref -> Prop) (body : A -> Search (option B))
    (l : list A) :
  (forall x s, In x l -> P s -> exists r s', body x s = Some (r, s') /\ s ⊆ s' /\ P s') ->
  forall s, P s -> exists r s', firstHit body l s = Some (r, s') /\ s ⊆ s' /\ P s'.
Proof.
  induction l as [| x l IH]; intros Hbody s Hs.
  - exists None, s. split; [reflexivity | split; [set_solver | exact Hs]].
  - destruct (Hbody x s (or_introl eq_refl) Hs) as (r & s1 & E & Hsub & Hs1).
    cbn [firstHit]. unfold bind. rewrite E. destruct r as [b |].
    + exists (Some b), s1. split; [reflexivity | split; assumption].
    + destruct (IH (fun y t Hy => Hbody y t (or_intror Hy)) s1 Hs1)
        as (r & s2 & E2 & Hsub2 & Hs2).
      exists r, s2. split; [exact E2 | split; [set_solver | exact Hs2]].
Qed.

Lemma firstHit_ext {A B} (f g : A -> Search (option B)) (l : list A) seen :
  (forall x s, In x l -> f x s = g x s) -> firstHit f l seen = firstHit g l seen.
Proof.
  revert seen. induction l as [| x l IH]; intros seen H; [reflexivity |].
  cbn [firstHit]. unfold bind. rewrite (H x seen (or_introl eq_refl)).
  destruct (g x seen) as [[[b |] s1] |]; try reflexivity.
  apply IH. intros y t Hy. apply H. right. exact Hy.
Qed.

Lemma firstHit_none {A B} (body : A -> Search (option B)) (l : list A) :
  (forall x s r s', In x l -> body x s = Some (r, s') -> r = None) ->
  forall s r s', firstHit body l s = Some (r, s') -> r = None.
Proof.
  induction l as [| x l IH]; intros Hbody s r s' E.
  - cbn in E. unfold ret in E. congruence.
  - cbn [firstHit] in E. unfold bind in E.
    destruct (body x s) as [[rx s1] |] eqn:Ex; [| discriminate].
    pose proof (Hbody x s rx s1 (or_introl eq_refl) Ex) as ->.
    eapply IH; [| exact E]. intros y t ry ty Hy. apply Hbody. right. exact Hy.
Qed.

(** The recursive call of the locator on a container of the heap. *)
Lemma findFieldRecursive_eq (fuel : nat) h (r : ref) (o : object) names path seen :
  h !! r = Some o ->
  findFieldRecursive (S fuel) h (VRef r) names path seen =
    if bool_decide (r ∈ seen) then Some (None, seen) else
    match levelScan o (map normalizeKey names) path (objectKeys o) with
    | Some found => Some (Some found, {[r]} ∪ seen)
    | None =>
        firstHit (fun k =>
          if isContainer (getProp o k)
          then findFieldRecursive fuel h (getProp o k) names (path ++ [k])
          else ret None) (objectKeys o) ({[r]} ∪ seen)
    end.
Proof.
  intros Hr. cbn [findFieldRecursive]. rewrite Hr. unfold bind, seenHas, seenAdd.
  destruct (bool_decide (r ∈ seen)); [reflexivity |].
  destruct (levelScan _ _ _ _); reflexivity.
Qed.

Lemma findFieldRecursive_scalar (fuel : nat) h (v : jsvalue) names path seen :
  isContainer v = false -> findFieldRecursive fuel h v names path seen = Some (None, seen).
Proof. destruct v, fuel; intros H; try discriminate H; reflexivity. Qed.

Lemma findFieldRecursive_dangling (fuel : nat) h (r : ref) names path seen :
  h !! r = None -> findFieldRecursive fuel h (VRef r) names path seen = Some (None, seen).
Proof. intros H. destruct fuel; cbn [findFieldRecursive]; rewrite H; reflexivity. Qed.

(** With more steps than unvisited containers the locator returns. *)
Lemma findFieldRecursive_returns (fuel : nat) h names :
  forall (v : jsvalue) path seen,
    (unseen h seen < fuel)%nat ->
    exists res seen',
      findFieldRecursive fuel h v names path seen = Some (res, seen') /\ seen ⊆ seen'.
Proof.
  induction fuel as [| fuel IH]; intros v path seen Hfuel; [lia |].
  destruct (isContainer v) eqn:Hv.
  2:{ rewrite findFieldRecursive_scalar by exact Hv. exists None, seen. split; [reflexivity | set_solver]. }
  destruct v as [| | | | | r]; try discriminate Hv.
  destruct (h !! r) as [o |] eqn:Hr.
  2:{ rewrite findFieldRecursive_dangling by exact Hr. exists None, seen. split; [reflexivity | set_solver]. }
  rewrite (findFieldRecursive_eq fuel h r o) by exact Hr.
  case_bool_decide as Hseen.
  { exists None, seen. split; [reflexivity | set_solver]. }
  destruct (levelScan _ _ _ _) as [found |].
  { exists (Some found), ({[r]} ∪ seen). split; [reflexivity | set_solver]. }
  pose proof (unseen_add h r o seen Hr Hseen) as Hlt.
  destruct (firstHit_returns (fun s => (unseen h s < fuel)%nat)
              (fun k => if isContainer (getProp o k)
                        then findFieldRecursive fuel h (getProp o k) names (path ++ [k])
                        else ret None) (objectKeys o)) with (s := {[r]} ∪ seen)
    as (res & s' & E & Hsub & _).
  - intros k s _ Hs. destruct (isContainer (getProp o k)).
    + destruct (IH (getProp o k) (path ++ [k]) s Hs) as (res & s' & E & Hsub).
      exists res, s'. split; [exact E | split; [exact Hsub |]].
      pose proof (unseen_mono h s s' Hsub). lia.
    + exists None, s. split; [reflexivity | split; [set_solver | exact Hs]].
  - lia.
  - exists res, s'. split; [exact E | set_solver].
Qed.

Lemma levelScan_passed o (targetNorms : list string) path (keys : list string) :
  (forall k, In k keys -> passedOver targetNorms (k, getProp o k) = true) ->
  levelScan o targetNorms path keys = None.
Proof.
  induction keys as [| k keys IH]; intros H; [reflexivity |].
  cbn [levelScan]. pose proof (H k (or_introl eq_refl)) as Hk.
  unfold passedOver in Hk. cbn [fst snd] in Hk.
  destruct (isEmptyValue (getProp o k)); [apply IH; intros; apply H; right; assumption |].
  cbn in Hk. destruct (keyMatches targetNorms k); [discriminate |].
  apply IH. intros. apply H. right. assumption.
Qed.

Lemma levelScan_first o (targetNorms : list string) path (pre post : list string) (k : string) :
  (forall k', In k' pre -> passedOver targetNorms (k', getProp o k') = true) ->
  isEmptyValue (getProp o k) = false ->
  keyMatches targetNorms k = true ->
  levelScan o targetNorms path (pre ++ k :: post)
  = Some {| key := k; value := getProp o k; path := path ++ [k] |}.
Proof.
  intros Hpre He Hm. induction pre as [| k' pre IH].
  - cbn [app levelScan]. rewrite He, Hm. reflexivity.
  - cbn [app levelScan]. pose proof (Hpre k' (or_introl eq_refl)) as Hk.
    unfold passedOver in Hk. cbn [fst snd] in Hk.
    destruct (isEmptyValue (getProp o k')); [apply IH; intros; apply Hpre; right; assumption |].
    cbn in Hk. destruct (keyMatches targetNorms k'); [discriminate |].
    apply IH. intros. apply Hpre. right. assumption.
Qed.

(** No matching key at any depth: the locator finds nothing. *)
Lemma findFieldRecursive_no_match (fuel : nat) h names :
  forall (v : jsvalue) path seen res seen',
    (forall r o k, reachable h v r -> h !! r = Some o -> In k (objectKeys o) ->
                   keyMatches (map normalizeKey names) k = false) ->
    findFieldRecursive fuel h v names path seen = Some (res, seen') ->
    res = None.
Proof.
  induction fuel as [| fuel IH]; intros v path seen res seen' Hno E.
  - destruct v as [| | | | | r]; try (cbn in E; unfold ret in E; congruence).
    cbn in E. destruct (h !! r); [discriminate | unfold ret in E; congruence].
  - destruct (isContainer v) eqn:Hv.
    2:{ rewrite findFieldRecursive_scalar in E by exact Hv. congruence. }
    destruct v as [| | | | | r]; try discriminate Hv.
    destruct (h !! r) as [o |] eqn:Hr.
    2:{ rewrite findFieldRecursive_dangling in E by exact Hr. congruence. }
    rewrite (findFieldRecursive_eq fuel h r o) in E by exact Hr.
    case_bool_decide; [congruence |].
    rewrite levelScan_passed in E.
    2:{ intros k Hk. unfold passedOver. cbn [fst snd].
        rewrite (Hno r o k (reach_here h r) Hr Hk). apply orb_true_r. }
    eapply firstHit_none; [| exact E].
    intros k s rk sk Hk Ek. cbv beta in Ek. destruct (isContainer (getProp o k)).
    + eapply IH; [| exact Ek]. intros r' o' k' Hreach. apply Hno.
      eapply reach_step; eauto.
    + unfold ret in Ek. congruence.
Qed.

Lemma keyMatches_perm (l l' : list string) (k : string) :
  Permutation l l' -> keyMatches l k = keyMatches l' k.
Proof.
  intros Hp. unfold keyMatches. apply Bool.eq_iff_eq_true.
  rewrite !existsb_exists.
  split; intros (x & Hin & Hx); exists x; (split; [| exact Hx]).
  - eapply Permutation_in; eauto.
  - eapply Permutation_in; [apply Permutation_sym |]; eauto.
Qed.

Lemma levelScan_perm o (l l' : list string) path (keys : list string) :
  Permutation l l' -> levelScan o l path keys = levelScan o l' path keys.
Proof.
  intros Hp. induction keys as [| k keys IH]; [reflexivity |].
  cbn [levelScan]. rewrite (keyMatches_perm l l' k Hp), IH. reflexivity.
Qed.

(** The order of the candidate list does not change the result. *)
Lemma findFieldRecursive_perm (fuel : nat) h names names' :
  Permutation names names' ->
  forall (v : jsvalue) path seen,
    findFieldRecursive fuel h v names path seen = findFieldRecursive fuel h v names' path seen.
Proof.
  intros Hp. induction fuel as [| fuel IH]; intros v path seen.
  - destruct v; reflexivity.
  - destruct v as [| | | | | r]; try reflexivity.
    destruct (h !! r) as [o |] eqn:Hr.
    2:{ rewrite !findFieldRecursive_dangling by exact Hr. reflexivity. }
    rewrite !(findFieldRecursive_eq fuel h r o) by exact Hr.
    rewrite (levelScan_perm o _ (map normalizeKey names')) by (apply Permutation_map; exact Hp).
    destruct (bool_decide _); [reflexivity |].
    destruct (levelScan _ _ _ _); [reflexivity |].
    apply firstHit_ext. intros k s _. destruct (isContainer _); [apply IH | reflexivity].
Qed.

Lemma run_findField_some h (v : jsvalue) names path (res : option Located) seen' :
  findFieldRecursive (searchFuel h) h v names path ∅ = Some (res, seen') ->
  run (findFieldRecursive (searchFuel h) h v names path) = Some res.
Proof. intros E. unfold run. rewrite E. reflexivity. Qed.

Lemma findField_first_level h (r : ref) (o : object) names (pre post : list string)
    (k : string) :
  h !! r = Some o ->
  objectKeys o = pre ++ k :: post ->
  (forall k', In k' pre -> passedOver (map normalizeKey names) (k', getProp o k') = true) ->
  isEmptyValue (getProp o k) = false ->
  keyMatches (map normalizeKey names) k = true ->
  run (findFieldRecursive (searchFuel h) h (VRef r) names [])
  = Some (Some {| key := k; value := getProp o k; path := [k] |}).
Proof.
  intros Hr Hkeys Hpre He Hm. eapply run_findField_some. unfold searchFuel.
  rewrite (findFieldRecursive_eq _ h r o) by exact Hr.
  rewrite bool_decide_eq_false_2 by set_solver.
  rewrite Hkeys, (levelScan_first o _ [] pre post k Hpre He Hm). reflexivity.
Qed.

(** C7 (amended). The locator checks all keys of the current level before
    it recurses: the first key of the first level whose value is not
    [undefined], [null] or the empty string and that matches a candidate
    is returned with path [[k]], whatever lies deeper, and the result is
    the same for every order of the candidate list. For
    [{a: {b: {Preco_ens: "50,00"}}}] and the candidate ["Preco_ens"] it
    returns the value ["50,00"] with path [a.b.Preco_ens]. For a record
    in which no key of any depth matches a candidate it returns
    not-found. *)
Theorem findFieldRecursive_level_first h names names' :
  (forall (r : ref) (o : object) (pre post : list string) (k : string),
      h !! r = Some o ->
      objectKeys o = pre ++ k :: post ->
      (forall k', In k' pre ->
                  passedOver (map normalizeKey names) (k', getProp o k') = true) ->
      isEmptyValue (getProp o k) = false ->
      keyMatches (map normalizeKey names) k = true ->
      Permutation names names' ->
      run (findFieldRecursive (searchFuel h) h (VRef r) names [])
      = Some (Some {| key := k; value := getProp o k; path := [k] |}) /\
      run (findFieldRecursive (searchFuel h) h (VRef r) names' [])
      = Some (Some {| key := k; value := getProp o k; path := [k] |})) /\
  run (findFieldRecursive (searchFuel nestedEns) nestedEns (VRef 0%nat) ["Preco_ens"] [])
  = Some (Some {| key := "Preco_ens"; value := VStr "50,00";
                  path := ["a"; "b"; "Preco_ens"] |}) /\
  (forall v : jsvalue,
      (forall r o k, reachable h v r -> h !! r = Some o -> In k (objectKeys o) ->
                     keyMatches (map normalizeKey names) k = false) ->
      run (findFieldRecursive (searchFuel h) h v names []) = Some None).
Proof.
  split; [| split].
  - intros r o pre post k Hr Hkeys Hpre He Hm Hp.
    pose proof (findField_first_level h r o names pre post k Hr Hkeys Hpre He Hm) as H1.
    split; [exact H1 |]. unfold run in *.
    rewrite <- (findFieldRecursive_perm _ h names names' Hp). exact H1.
  - vm_compute. reflexivity.
  - intros v Hno.
    destruct (findFieldRecursive_returns (searchFuel h) h names v [] ∅)
      as (res & seen' & E & _).
    { rewrite unseen_empty. unfold searchFuel. lia. }
    rewrite (run_findField_some _ _ _ _ _ _ E). f_equal.
    eapply findFieldRecursive_no_match; eauto.
Qed.

(** Witness of C7: in [{a: {b: {Preco_ens: "50,00"}}}] the first-level key
    [a] wins for the candidates [["b"; "a"]], and nothing is found for
    ["zzz"]. *)
Lemma findFieldRecursive_level_first_witness :
  run (findFieldRecursive (searchFuel nestedEns) nestedEns (VRef 0%nat) ["b"; "a"] [])
  = Some (Some {| key := "a"; value := VRef 1%nat; path := ["a"] |}) /\
  run (findFieldRecursive (searchFuel nestedEns) nestedEns (VRef 0%nat) ["zzz"] [])
  = Some None.
Proof.
  split.
  - refine (proj1 (proj1 (findFieldRecursive_level_first nestedEns ["b"; "a"] ["a"; "b"])
                     0%nat (Obj [("a", VRef 1%nat)]) [] [] "a" _ _ _ _ _ _)).
    + reflexivity.
    + reflexivity.
    + intros k' [].
    + reflexivity.
    + vm_compute. reflexivity.
    + apply perm_swap.
  - refine (proj2 (proj2 (findFieldRecursive_level_first nestedEns ["zzz"] ["zzz"]))
              (VRef 0%nat) _).
    intros r o k _ Hr Hk.
    destruct r as [| [| [| r]]]; cbn in Hr; try discriminate Hr;
      injection Hr as <-; cbn in Hk;
      destruct Hk as [<- | []]; vm_compute; reflexivity.
Defined.

(** Counterexample to C7 as stated: in
    [{Preco_ens: "", a: {Preco_ens: "50,00"}}] the first-level key
    [Preco_ens] matches the candidate, yet the deeper field is returned,
    because the first-level value is empty. *)
Lemma findFieldRecursive_empty_first_level_loses :
  In "Preco_ens" (objectKeys (Obj [("Preco_ens", VStr ""); ("a", VRef 1%nat)])) /\
  emptyFirstLevel !! 0%nat = Some (Obj [("Preco_ens", VStr ""); ("a", VRef 1%nat)]) /\
  keyMatches (map normalizeKey ["Preco_ens"]) "Preco_ens" = true /\
  run (findFieldRecursive (searchFuel emptyFirstLevel) emptyFirstLevel (VRef 0%nat)
         ["Preco_ens"] [])
  = Some (Some {| key := "Preco_ens"; value := VStr "50,00";
                  path := ["a"; "Preco_ens"] |}).
Proof.
  split; [left; reflexivity |]. split; [reflexivity |].
  split; vm_compute; reflexivity.
Qed.

Lemma levelScan_sound o (targetNorms : list string) path (keys : list string) (f : Located) :
  levelScan o targetNorms path keys = Some f ->
  exists k, In k keys /\
            f = {| key := k; value := getProp o k; path := path ++ [k] |} /\
            isEmptyValue (getProp o k) = false /\
            keyMatches targetNorms k = true.
Proof.
  induction keys as [| k keys IH]; [discriminate |]. cbn [levelScan].
  destruct (isEmptyValue (getProp o k)) eqn:He.
  { intros H. destruct (IH H) as (k' & Hin & Hrest). exists k'. split; [right; exact Hin | exact Hrest]. }
  destruct (keyMatches targetNorms k) eqn:Hm.
  { intros [= <-]. exists k. split; [left; reflexivity |]. auto. }
  intros H. destruct (IH H) as (k' & Hin & Hrest). exists k'. split; [right; exact Hin | exact Hrest].
Qed.

Lemma levelScan_complete o (targetNorms : list string) path (keys : list string) (k : string) :
  In k keys -> isEmptyValue (getProp o k) = false -> keyMatches targetNorms k = true ->
  exists k', In k' keys /\
             levelScan o targetNorms path keys
             = Some {| key := k'; value := getProp o k'; path := path ++ [k'] |}.
Proof.
  intros Hin He Hm. induction keys as [| k0 keys IH]; [destruct Hin |]. cbn [levelScan].
  destruct (isEmptyValue (getProp o k0)) eqn:He0.
  { destruct Hin as [-> | Hin]; [congruence |].
    destruct (IH Hin) as (k' & Hin' & E). exists k'. split; [right; exact Hin' | exact E]. }
  destruct (keyMatches targetNorms k0) eqn:Hm0.
  { exists k0. split; [left; reflexivity | reflexivity]. }
  destruct Hin as [-> | Hin]; [congruence |].
  destruct (IH Hin) as (k' & Hin' & E). exists k'. split; [right; exact Hin' | exact E].
Qed.

Lemma firstHit_some {A B} (body : A -> Search (option B)) (l : list A) seen (b : B) seen' :
  firstHit body l seen = Some (Some b, seen') ->
  exists x s1 s2, In x l /\ body x s1 = Some (Some b, s2).
Proof.
  revert seen. induction l as [| x l IH]; intros seen E.
  - cbn in E. unfold ret in E. discriminate.
  - cbn [firstHit] in E. unfold bind in E.
    destruct (body x seen) as [[[c |] s1] |] eqn:Ex; [| | discriminate].
    + unfold ret in E. injection E as <- <-. exists x, seen, s1. split; [left; reflexivity | exact Ex].
    + destruct (IH s1 E) as (y & t1 & t2 & Hin & Ey). exists y, t1, t2.
      split; [right; exact Hin | exact Ey].
Qed.

End Locator.

(** ** The price extractor *)

Section Extractor.

Variable containerToString : ref -> string.
Let parse := parseToNumber containerToString.

Implicit Types (h : heap) (props pre post : list (string * jsvalue)).

Lemma positive_some (x : option number) (p : number) :
  positive x = Some p -> x = Some p /\ truthyNumber p = true /\ jgt p (Fin 0) = true.
Proof.
  destruct x as [n |]; [| discriminate]. cbn [positive].
  destruct (truthyNumber n) eqn:Ht; [| discriminate].
  destruct (jgt n (Fin 0)) eqn:Hg; [| discriminate].
  cbn. intros [= <-]. auto.
Qed.



Lemma getProp_in props (k : string) :
  In k (map fst props) -> In (k, getProp (Obj props) k) props.
Proof.
  unfold getProp. cbn [entries]. induction props as [| [k' v'] props IH]; [intros [] |].
  cbn [map fst List.find In]. destruct (String.eqb k' k) eqn:E.
  - apply String.eqb_eq in E as ->. intros _. left. reflexivity.
  - intros [-> | Hin]; [rewrite String.eqb_refl in E; discriminate |].
    right. apply IH. exact Hin.
Qed.

Lemma getProp_prefix pre post (k : string) :
  In k (map fst pre) -> getProp (Obj (pre ++ post)) k = getProp (Obj pre) k.
Proof.
  unfold getProp. cbn [entries]. induction pre as [| [k' v'] pre IH]; [intros [] |].
  cbn [app map fst List.find In]. destruct (String.eqb k' k) eqn:E; [reflexivity |].
  intros [-> | Hin]; [rewrite String.eqb_refl in E; discriminate |].
  apply IH. exact Hin.
Qed.

Lemma getProp_middle pre post (k : string) (v : jsvalue) :
  ~ In k (map fst pre) -> getProp (Obj (pre ++ (k, v) :: post)) k = v.
Proof.
  unfold getProp. cbn [entries]. induction pre as [| [k' v'] pre IH]; intros Hn.
  - cbn. rewrite String.eqb_refl. reflexivity.
  - cbn [app map fst List.find In] in *. destruct (String.eqb k' k) eqn:E.
    + apply String.eqb_eq in E. tauto.
    + apply IH. tauto.
Qed.

Lemma NoDup_middle pre post (k : string) (v : jsvalue) :
  List.NoDup (map fst (pre ++ (k, v) :: post)) -> ~ In k (map fst pre).
Proof.
  rewrite map_app. cbn [map fst]. intros H Hin.
  apply List.NoDup_remove_2 in H. apply H. apply in_or_app. left. exact Hin.
Qed.

Lemma passedOver_prefix (targetNorms : list string) pre post :
  forallb (passedOver targetNorms) pre = true ->
  forall k, In k (map fst pre) ->
            passedOver targetNorms (k, getProp (Obj (pre ++ post)) k) = true.
Proof.
  intros H k Hk. rewrite getProp_prefix by exact Hk.
  rewrite forallb_forall in H. apply H. apply getProp_in. exact Hk.
Qed.



Lemma firstHit_skip {A B} (body : A -> Search (option B)) (pre post : list A) (x : A)
    (seen : gset ref) :
  (forall y, In y pre -> body y seen = Some (None, seen)) ->
  firstHit body (pre ++ x :: post) seen
  = match body x seen with
    | Some (Some b, s) => Some (Some b, s)
    | Some (None, s) => firstHit body post s
    | None => None
    end.
Proof.
  induction pre as [| y pre IH]; intros H.
  - cbn [app firstHit]. unfold bind. destruct (body x seen) as [[[b |] s] |]; reflexivity.
  - cbn [app firstHit]. unfold bind. rewrite (H y (or_introl eq_refl)).
    apply IH. intros z Hz. apply H. right. exact Hz.
Qed.

(** The locator on a record with no usable tabela-like key at the first
    level, whose first nested container has [k] as its first such key. *)
Lemma locate_nested h (r r' : ref) (tpre tpost : list (string * jsvalue)) (ksub : string)
    pre post (k : string) (v : jsvalue) :
  h !! r = Some (Obj (tpre ++ (ksub, VRef r') :: tpost)) ->
  List.NoDup (map fst (tpre ++ (ksub, VRef r') :: tpost)) ->
  forallb (passedOver tabelaNorms) (tpre ++ (ksub, VRef r') :: tpost) = true ->
  forallb (fun kv => negb (isContainer (snd kv))) tpre = true ->
  r' <> r ->
  h !! r' = Some (Obj (pre ++ (k, v) :: post)) ->
  List.NoDup (map fst (pre ++ (k, v) :: post)) ->
  forallb (passedOver tabelaNorms) pre = true ->
  isEmptyValue v = false ->
  keyMatches tabelaNorms k = true ->
  run (findFieldRecursive (searchFuel h) h (VRef r) tabelaFields [])
  = Some (Some {| key := k; value := v; path := [ksub; k] |}).
Proof.
  intros Hr Hnd Htop Hscalar Hne Hr' Hnd' Hpre He Hm.
  assert (Hlen : exists f, length h = S f).
  { destruct h as [| o0 h0]; [discriminate Hr | eexists; reflexivity]. }
  destruct Hlen as [f Hf].
  unfold run, searchFuel. rewrite Hf.
  rewrite (findFieldRecursive_eq _ h r _) by exact Hr.
  rewrite bool_decide_eq_false_2 by set_solver.
  rewrite levelScan_passed.
  2:{ intros k' Hk'. unfold objectKeys in Hk'. cbn [entries] in Hk'.
      pose proof (passedOver_prefix tabelaNorms _ [] Htop k' Hk') as Hp.
      rewrite app_nil_r in Hp. exact Hp. }
  unfold objectKeys. cbn [entries]. rewrite map_app. cbn [map fst].
  rewrite firstHit_skip.
  2:{ intros y Hy. rewrite getProp_prefix by exact Hy.
      pose proof (getProp_in tpre y Hy) as Hin.
      rewrite forallb_forall in Hscalar. apply Hscalar in Hin. cbn [snd] in Hin.
      destruct (isContainer (getProp (Obj tpre) y)); [discriminate | reflexivity]. }
  rewrite (getProp_middle tpre tpost ksub (VRef r') (NoDup_middle _ _ _ _ Hnd)).
  cbn [isContainer].
  rewrite (findFieldRecursive_eq _ h r' _) by exact Hr'.
  rewrite bool_decide_eq_false_2 by set_solver.
  unfold objectKeys. cbn [entries]. rewrite map_app. cbn [map fst].
  rewrite (levelScan_first _ _ _ (map fst pre) (map fst post) k).
  - rewrite (getProp_middle pre post k v (NoDup_middle _ _ _ _ Hnd')). reflexivity.
  - apply passedOver_prefix. exact Hpre.
  - rewrite (getProp_middle pre post k v (NoDup_middle _ _ _ _ Hnd')). exact He.
  - exact Hm.
Qed.


End Extractor.


(** ** Termination of the two searches and the unfolded record *)

Section Cycles.

Variable containerToString : ref -> string.
Let parse := parseToNumber containerToString.

Implicit Types (h : heap) (seen enclosing : gset ref) (names path : list string).

Lemma findFieldRecursive_seen (fuel : nat) h (r : ref) names path seen :
  r ∈ seen -> findFieldRecursive (S fuel) h (VRef r) names path seen = Some (None, seen).
Proof.
  intros Hin. destruct (h !! r) as [o |] eqn:Hr.
  - rewrite (findFieldRecursive_eq fuel h r o) by exact Hr.
    rewrite bool_decide_eq_true_2 by exact Hin. reflexivity.
  - apply findFieldRecursive_dangling. exact Hr.
Qed.

Lemma findPriceInObject_scalar (fuel : nat) h (v : jsvalue) seen :
  isContainer v = false ->
  findPriceInObject containerToString fuel h v seen
  = Some (scalarPrice containerToString v, seen).
Proof. destruct v, fuel; intros H; try discriminate H; reflexivity. Qed.

Lemma findPriceInObject_dangling (fuel : nat) h (r : ref) seen :
  h !! r = None -> findPriceInObject containerToString fuel h (VRef r) seen = Some (None, seen).
Proof. intros H. destruct fuel; cbn [findPriceInObject]; rewrite H; reflexivity. Qed.

(** The recursive call of the price search on a container of the heap;
    step 1 finds nothing, because the container is already in [seen] when
    the locator is called on it. *)
Lemma findPriceInObject_eq (fuel : nat) h (r : ref) (o : object) seen :
  h !! r = Some o ->
  findPriceInObject containerToString (S fuel) h (VRef r) seen =
    if bool_decide (r ∈ seen) then Some (None, seen) else
    match firstSome (priorityLookup containerToString o) priorityKeys with
    | Some parsed => Some (Some parsed, {[r]} ∪ seen)
    | None =>
    match firstSome (priceLikeLookup containerToString o) (objectKeys o) with
    | Some parsed => Some (Some parsed, {[r]} ∪ seen)
    | None =>
        match (if isArray o
               then firstHit (fun el =>
                      nested <- findPriceInObject containerToString fuel h el ;;
                      ret (positive nested)) (arrayElems o)
               else ret None) ({[r]} ∪ seen) with
        | None => None
        | Some (Some nested, s) => Some (Some nested, s)
        | Some (None, s) =>
            firstHit (fun k =>
              if isContainer (getProp o k) then
                nested <- findPriceInObject containerToString fuel h (getProp o k) ;;
                ret (positive nested)
              else ret (positive (parse (getProp o k)))) (objectKeys o) s
        end
    end
    end.
Proof.
  intros Hr. cbn [findPriceInObject]. rewrite Hr. unfold bind at 1. unfold seenHas.
  destruct (bool_decide (r ∈ seen)); [reflexivity |].
  unfold bind at 1. unfold seenAdd. unfold bind at 1.
  rewrite findFieldRecursive_seen by set_solver. cbn [positive].
  destruct (firstSome (priorityLookup _ _) _); [reflexivity |].
  destruct (firstSome (priceLikeLookup _ _) _); [reflexivity |].
  unfold bind at 1. destruct (isArray o).
  - destruct (firstHit _ (arrayElems o) _) as [[[nested |] s] |]; reflexivity.
  - reflexivity.
Qed.

Lemma findFieldUnfolded_eq (fuel : nat) h (r : ref) (o : object) names path enclosing :
  h !! r = Some o ->
  findFieldUnfolded (S fuel) h (VRef r) names path enclosing =
    if bool_decide (r ∈ enclosing) then Some None else
    match levelScan o (map normalizeKey names) path (objectKeys o) with
    | Some found => Some (Some found)
    | None =>
        firstOf (fun k =>
          if isContainer (getProp o k)
          then findFieldUnfolded fuel h (getProp o k) names (path ++ [k]) ({[r]} ∪ enclosing)
          else Some None) (objectKeys o)
    end.
Proof. intros Hr. cbn [findFieldUnfolded]. rewrite Hr. reflexivity. Qed.

Lemma findFieldUnfolded_other (fuel : nat) h (v : jsvalue) names path enclosing :
  match v with VRef r => h !! r = None | _ => True end ->
  findFieldUnfolded fuel h v names path enclosing = Some None.
Proof. destruct v, fuel; intros H; try reflexivity; cbn [findFieldUnfolded]; rewrite H; reflexivity. Qed.

Lemma findPriceUnfolded_scalar (fuel : nat) h (v : jsvalue) enclosing :
  isContainer v = false ->
  findPriceUnfolded containerToString fuel h v enclosing
  = Some (scalarPrice containerToString v).
Proof. destruct v, fuel; intros H; try discriminate H; reflexivity. Qed.

Lemma findPriceUnfolded_dangling (fuel : nat) h (r : ref) enclosing :
  h !! r = None -> findPriceUnfolded containerToString fuel h (VRef r) enclosing = Some None.
Proof. intros H. destruct fuel; cbn [findPriceUnfolded]; rewrite H; reflexivity. Qed.

Lemma findPriceUnfolded_eq (fuel : nat) h (r : ref) (o : object) enclosing :
  h !! r = Some o ->
  findPriceUnfolded containerToString (S fuel) h (VRef r) enclosing =
    if bool_decide (r ∈ enclosing) then Some None else
    match firstSome (priorityLookup containerToString o) priorityKeys with
    | Some parsed => Some (Some parsed)
    | None =>
    match firstSome (priceLikeLookup containerToString o) (objectKeys o) with
    | Some parsed => Some (Some parsed)
    | None =>
        match (if isArray o
               then firstOf (fun el =>
                      positive <$> findPriceUnfolded containerToString fuel h el
                                     ({[r]} ∪ enclosing)) (arrayElems o)
               else Some None) with
        | None => None
        | Some (Some nested) => Some (Some nested)
        | Some None =>
            firstOf (fun k =>
              if isContainer (getProp o k)
              then positive <$> findPriceUnfolded containerToString fuel h (getProp o k)
                                  ({[r]} ∪ enclosing)
              else Some (positive (parse (getProp o k)))) (objectKeys o)
        end
    end
    end.
Proof.
  intros Hr. cbn [findPriceUnfolded]. rewrite Hr.
  destruct (bool_decide (r ∈ enclosing)); [reflexivity |].
  rewrite (findFieldUnfolded_eq fuel h r o) by exact Hr.
  rewrite bool_decide_eq_true_2 by set_solver. reflexivity.
Qed.

(** With more steps than unvisited containers the price search returns. *)
Lemma findPriceInObject_returns (fuel : nat) h :
  forall (v : jsvalue) seen,
    (unseen h seen < fuel)%nat ->
    exists res seen',
      findPriceInObject containerToString fuel h v seen = Some (res, seen') /\ seen ⊆ seen'.
Proof.
  induction fuel as [| fuel IH]; intros v seen Hfuel; [lia |].
  destruct (isContainer v) eqn:Hv.
  2:{ rewrite findPriceInObject_scalar by exact Hv. eexists _, seen. split; [reflexivity | set_solver]. }
  destruct v as [| | | | | r]; try discriminate Hv.
  destruct (h !! r) as [o |] eqn:Hr.
  2:{ rewrite findPriceInObject_dangling by exact Hr. exists None, seen. split; [reflexivity | set_solver]. }
  rewrite (findPriceInObject_eq fuel h r o) by exact Hr.
  case_bool_decide as Hseen.
  { exists None, seen. split; [reflexivity | set_solver]. }
  destruct (firstSome (priorityLookup _ _) _) as [p |].
  { exists (Some p), ({[r]} ∪ seen). split; [reflexivity | set_solver]. }
  destruct (firstSome (priceLikeLookup _ _) _) as [p |].
  { exists (Some p), ({[r]} ∪ seen). split; [reflexivity | set_solver]. }
  pose proof (unseen_add h r o seen Hr Hseen) as Hlt.
  assert (Hbody : forall (w : jsvalue) s,
             (unseen h s < fuel)%nat ->
             exists res s',
               (nested <- findPriceInObject containerToString fuel h w ;;
                ret (positive nested)) s = Some (res, s') /\ s ⊆ s' /\ (unseen h s' < fuel)%nat).
  { intros w s Hs. destruct (IH w s Hs) as (res & s' & E & Hsub).
    exists (positive res), s'. unfold bind. rewrite E.
    split; [reflexivity | split; [exact Hsub |]].
    pose proof (unseen_mono h s s' Hsub). lia. }
  assert (Harr : exists res s1,
             (if isArray o
              then firstHit (fun el =>
                     nested <- findPriceInObject containerToString fuel h el ;;
                     ret (positive nested)) (arrayElems o)
              else ret None) ({[r]} ∪ seen) = Some (res, s1)
             /\ {[r]} ∪ seen ⊆ s1 /\ (unseen h s1 < fuel)%nat).
  { destruct (isArray o).
    - apply (firstHit_returns (fun s => (unseen h s < fuel)%nat)); [| lia].
      intros el s _ Hs. apply Hbody. exact Hs.
    - exists None, ({[r]} ∪ seen). split; [reflexivity | split; [set_solver | lia]]. }
  destruct Harr as (res1 & s1 & E1 & Hsub1 & Hs1). rewrite E1.
  destruct res1 as [nested |].
  { exists (Some nested), s1. split; [reflexivity | set_solver]. }
  destruct (firstHit_returns (fun s => (unseen h s < fuel)%nat)
              (fun k => if isContainer (getProp o k) then
                          nested <- findPriceInObject containerToString fuel h (getProp o k) ;;
                          ret (positive nested)
                        else ret (positive (parse (getProp o k)))) (objectKeys o))
    with (s := s1) as (res & s' & E & Hsub & _).
  - intros k s _ Hs. destruct (isContainer (getProp o k)).
    + apply Hbody. exact Hs.
    + eexists _, s. split; [reflexivity | split; [set_solver | exact Hs]].
  - exact Hs1.
  - exists res, s'. split; [exact E | set_solver].
Qed.

Lemma levelScan_none_path (o : object) (targetNorms : list string) path path'
    (keys : list string) :
  levelScan o targetNorms path keys = None -> levelScan o targetNorms path' keys = None.
Proof.
  induction keys as [| k keys IH]; [reflexivity |]. cbn [levelScan].
  destruct (isEmptyValue (getProp o k)); [exact IH |].
  destruct (keyMatches targetNorms k); [discriminate | exact IH].
Qed.

Lemma firstOf_none {A B} (body : A -> option (option B)) (l : list A) :
  (forall x, In x l -> body x = Some None) -> firstOf body l = Some (@None B).
Proof.
  induction l as [| x l IH]; intros H; [reflexivity |].
  cbn [firstOf]. rewrite (H x (or_introl eq_refl)). apply IH.
  intros y Hy. apply H. right. exact Hy.
Qed.

(** A loop of the search and the same loop on the unfolded record agree,
    and a loop that ends without a hit leaves every item done. *)
Lemma loop_agrees {A B} (Inv : gset ref -> Prop) (Post : A -> gset ref -> Prop)
    (body : A -> Search (option B)) (bodyU : A -> option (option B)) (l : list A) :
  (forall x s s', Post x s -> s ⊆ s' -> Post x s') ->
  (forall x s r s', In x l -> Inv s -> body x s = Some (r, s') ->
                    s ⊆ s' /\ bodyU x = Some r /\ (r = None -> Inv s' /\ Post x s')) ->
  forall s r s', Inv s -> firstHit body l s = Some (r, s') ->
    s ⊆ s' /\ firstOf bodyU l = Some r /\
    (r = None -> Inv s' /\ forall x, In x l -> Post x s').
Proof.
  intros Hmono. induction l as [| a l IH]; intros Hbody s r s' HI E.
  - cbn in E. unfold ret in E. injection E as <- <-.
    split; [set_solver |]. split; [reflexivity |]. intros _. split; [exact HI |].
    intros x [].
  - cbn [firstHit] in E. unfold bind in E.
    destruct (body a s) as [[ra s1] |] eqn:Ea; [| discriminate].
    destruct (Hbody a s ra s1 (or_introl eq_refl) HI Ea) as (Hsub & HU & Hpost).
    cbn [firstOf]. rewrite HU. destruct ra as [b |].
    + unfold ret in E. injection E as <- <-.
      split; [exact Hsub |]. split; [reflexivity |]. discriminate.
    + destruct (Hpost eq_refl) as [HI1 HP1].
      destruct (IH (fun x t rx tx Hx => Hbody x t rx tx (or_intror Hx)) s1 r s' HI1 E)
        as (Hsub2 & HU2 & Hpost2).
      split; [set_solver |]. split; [exact HU2 |].
      intros Hr. destruct (Hpost2 Hr) as [HI' HP']. split; [exact HI' |].
      intros x [<- | Hx]; [eapply Hmono; eauto | auto].
Qed.

Lemma childDone_mono h seen seen' (v : jsvalue) (x : option number) :
  childDone h seen v x -> seen ⊆ seen' -> childDone h seen' v x.
Proof. destruct v; cbn; auto; intros H Hsub Hv; apply Hsub; auto. Qed.

Lemma childDone_scalar h seen (v : jsvalue) (x : option number) :
  isContainer v = false -> childDone h seen v x -> x = None.
Proof. destruct v; intros Hv H; try exact H. discriminate Hv. Qed.

Lemma fieldDone_enter h names seen enclosing (r : ref) :
  r ∉ seen -> fieldDone h names seen enclosing ->
  fieldDone h names ({[r]} ∪ seen) ({[r]} ∪ enclosing).
Proof.
  intros Hr Hd b o Hb Hnb Hob.
  destruct (Hd b o) as [Hl Hc]; [set_solver | set_solver | exact Hob |].
  split; [exact Hl |]. intros k Hk. eapply childDone_mono; [apply Hc; exact Hk | set_solver].
Qed.

Lemma fieldDone_leave h names seen' enclosing (r : ref) (o : object) path :
  h !! r = Some o ->
  levelScan o (map normalizeKey names) path (objectKeys o) = None ->
  (forall k, In k (objectKeys o) -> childDone h seen' (getProp o k) None) ->
  fieldDone h names seen' ({[r]} ∪ enclosing) ->
  fieldDone h names seen' enclosing.
Proof.
  intros Hr Hl Hc Hd b ob Hb Hnb Hob.
  destruct (decide (b = r)) as [-> |].
  - rewrite Hr in Hob. injection Hob as <-.
    split; [eapply levelScan_none_path; exact Hl | exact Hc].
  - apply (Hd b ob); [exact Hb | set_solver | exact Hob].
Qed.

(** The unfolded search finds nothing below a container that the search
    has visited: it has been searched to the end without a hit, or it
    encloses the current container. *)
Lemma findFieldUnfolded_done (fuel : nat) h names :
  forall (r : ref) path seen enclosing,
    enclosing ⊆ seen -> fieldDone h names seen enclosing ->
    (is_Some (h !! r) -> r ∈ seen) ->
    (unseen h enclosing < fuel)%nat ->
    findFieldUnfolded fuel h (VRef r) names path enclosing = Some None.
Proof.
  induction fuel as [| fuel IH]; intros r path seen enclosing Hsub Hd Hr Hfuel; [lia |].
  destruct (h !! r) as [o |] eqn:Ho.
  2:{ apply findFieldUnfolded_other. exact Ho. }
  rewrite (findFieldUnfolded_eq fuel h r o) by exact Ho.
  case_bool_decide as Henc; [reflexivity |].
  destruct (Hd r o) as [Hl Hc]; [apply Hr; eauto | exact Henc | exact Ho |].
  rewrite (levelScan_none_path o _ [] path _ Hl).
  apply firstOf_none. intros k Hk. specialize (Hc k Hk).
  destruct (getProp o k) as [| | | | | r'] eqn:Hv; try reflexivity.
  cbn [isContainer]. apply (IH r' _ seen).
  - set_solver.
  - intros b ob Hb Hnb Hob. apply (Hd b ob); [exact Hb | set_solver | exact Hob].
  - exact Hc.
  - pose proof (unseen_add h r o enclosing Ho Henc). lia.
Qed.

(** The locator and the search of the unfolded record agree. *)
Lemma findFieldRecursive_agrees (fuel : nat) h names :
  forall (v : jsvalue) path seen res seen' enclosing,
    findFieldRecursive fuel h v names path seen = Some (res, seen') ->
    enclosing ⊆ seen -> fieldDone h names seen enclosing ->
    seen ⊆ seen' /\
    (forall fuelU, (unseen h enclosing < fuelU)%nat ->
                   findFieldUnfolded fuelU h v names path enclosing = Some res) /\
    (res = None -> fieldDone h names seen' enclosing /\ childDone h seen' v None).
Proof.
  induction fuel as [| fuel IH]; intros v path seen res seen' enclosing E Hsub Hd.
  - destruct v as [| | | | | r];
      try (cbn in E; unfold ret in E; injection E as <- <-;
           split; [set_solver |]; split;
           [intros; apply findFieldUnfolded_other; exact I | intros _; split; [exact Hd | reflexivity]]).
    cbn in E. destruct (h !! r) eqn:Hr; [discriminate |].
    unfold ret in E. injection E as <- <-.
    split; [set_solver |]. split.
    + intros. apply findFieldUnfolded_other. exact Hr.
    + intros _. split; [exact Hd |]. cbn. rewrite Hr. intros [? [=]].
  - destruct (isContainer v) eqn:Hv.
    2:{ rewrite findFieldRecursive_scalar in E by exact Hv. injection E as <- <-.
        split; [set_solver |]. split.
        - intros. apply findFieldUnfolded_other. destruct v; try exact I. discriminate Hv.
        - intros _. split; [exact Hd |]. destruct v; try reflexivity. discriminate Hv. }
    destruct v as [| | | | | r]; try discriminate Hv.
    destruct (h !! r) as [o |] eqn:Hr.
    2:{ rewrite findFieldRecursive_dangling in E by exact Hr. injection E as <- <-.
        split; [set_solver |]. split.
        - intros. apply findFieldUnfolded_other. exact Hr.
        - intros _. split; [exact Hd |]. cbn. rewrite Hr. intros [? [=]]. }
    rewrite (findFieldRecursive_eq fuel h r o) in E by exact Hr.
    case_bool_decide as Hseen.
    { injection E as <- <-. split; [set_solver |]. split.
      - intros fuelU HfU. apply (findFieldUnfolded_done fuelU h names r path seen); auto.
      - intros _. split; [exact Hd |]. cbn. auto. }
    assert (Henc : r ∉ enclosing) by set_solver.
    destruct (levelScan o (map normalizeKey names) path (objectKeys o)) as [found |] eqn:Hl.
    { injection E as <- <-. split; [set_solver |]. split; [| discriminate].
      intros [| fuelU] HfU; [lia |].
      rewrite (findFieldUnfolded_eq fuelU h r o) by exact Hr.
      rewrite bool_decide_eq_false_2 by exact Henc. rewrite Hl. reflexivity. }
    pose proof (unseen_add h r o enclosing Hr Henc) as Hlt.
    assert (Hloop : forall fuelU, (unseen h ({[r]} ∪ enclosing) < fuelU)%nat ->
      {[r]} ∪ seen ⊆ seen' /\
      firstOf (fun k =>
        if isContainer (getProp o k)
        then findFieldUnfolded fuelU h (getProp o k) names (path ++ [k]) ({[r]} ∪ enclosing)
        else Some None) (objectKeys o) = Some res /\
      (res = None ->
       ({[r]} ∪ enclosing ⊆ seen' /\ fieldDone h names seen' ({[r]} ∪ enclosing)) /\
       forall k, In k (objectKeys o) -> childDone h seen' (getProp o k) None)).
    { intros fuelU HfU.
      refine (loop_agrees
                (fun s => {[r]} ∪ enclosing ⊆ s /\ fieldDone h names s ({[r]} ∪ enclosing))
                (fun k s => childDone h s (getProp o k) None)
                _ _ (objectKeys o) _ _ ({[r]} ∪ seen) res seen' _ E).
      - intros k s s0. apply childDone_mono.
      - intros k s rk sk _ [HsubI HdI] Ek. cbv beta in Ek.
        destruct (isContainer (getProp o k)) eqn:Hck.
        + destruct (IH _ _ _ _ _ _ Ek HsubI HdI) as (Hs1 & HU & Hpost).
          split; [exact Hs1 |]. split; [apply HU; exact HfU |].
          intros Hn. destruct (Hpost Hn) as [Hd' Hc']. split; [| exact Hc'].
          split; [set_solver | exact Hd'].
        + unfold ret in Ek. injection Ek as <- <-.
          split; [set_solver |]. split; [reflexivity |]. intros _.
          split; [split; assumption |].
          destruct (getProp o k); try reflexivity. discriminate Hck.
      - split; [set_solver | apply fieldDone_enter; assumption]. }
    split; [| split].
    + destruct (Hloop (S (unseen h ({[r]} ∪ enclosing)))) as [Hs _]; [lia |]. set_solver.
    + intros [| fuelU] HfU; [lia |].
      rewrite (findFieldUnfolded_eq fuelU h r o) by exact Hr.
      rewrite bool_decide_eq_false_2 by exact Henc. rewrite Hl.
      apply Hloop. lia.
    + intros Hn.
      destruct (Hloop (S (unseen h ({[r]} ∪ enclosing)))) as (Hs & _ & Hpost); [lia |].
      destruct (Hpost Hn) as [[HsubE HdE] Hc].
      split; [| cbn; intros _; set_solver].
      eapply fieldDone_leave; eauto.
Qed.

Lemma jgt_truthy (n : number) : jgt n (Fin 0) = true -> truthyNumber n = true.
Proof.
  unfold jgt. destruct n as [| [|] | q]; try discriminate; try reflexivity.
  intros H. apply jlt_Fin in H. cbn. rewrite (Qeq_bool_pos q H). reflexivity.
Qed.

Lemma positive_fixed (x : option number) (b : number) :
  positive x = Some b -> positive (Some b) = Some b.
Proof.
  intros H. apply positive_some in H as (_ & Ht & Hg). cbn [positive].
  rewrite Ht, Hg. reflexivity.
Qed.

Lemma firstSome_fixed {A} (body : A -> option number) (l : list A) (b : number) :
  (forall x c, body x = Some c -> positive (Some c) = Some c) ->
  firstSome body l = Some b -> positive (Some b) = Some b.
Proof.
  intros H. induction l as [| x l IH]; [discriminate |]. cbn [firstSome].
  destruct (body x) as [c |] eqn:E; [| exact IH]. intros [= <-]. eapply H. exact E.
Qed.

Lemma firstHit_fixed {A} (body : A -> Search (option number)) (l : list A) :
  (forall x s c s', body x s = Some (Some c, s') -> positive (Some c) = Some c) ->
  forall s b s', firstHit body l s = Some (Some b, s') -> positive (Some b) = Some b.
Proof.
  intros H. induction l as [| x l IH]; intros s b s' E.
  - cbn in E. unfold ret in E. discriminate.
  - cbn [firstHit] in E. unfold bind in E.
    destruct (body x s) as [[[c |] s1] |] eqn:Ex; [| eapply IH; exact E | discriminate].
    unfold ret in E. injection E as <- <-. eapply H. exact Ex.
Qed.

Lemma scalarPrice_fixed (v : jsvalue) (b : number) :
  scalarPrice containerToString v = Some b -> positive (Some b) = Some b.
Proof.
  destruct v as [| | | n | s | r]; try discriminate; cbn [scalarPrice].
  - destruct (jgt n (Fin 0)) eqn:Hg; [| discriminate]. intros [= <-].
    cbn [positive]. rewrite (jgt_truthy n Hg), Hg. reflexivity.
  - apply positive_fixed.
Qed.

(** Whatever the price search returns is a strictly positive number. *)
Lemma findPriceInObject_fixed (fuel : nat) h (v : jsvalue) seen (b : number) seen' :
  findPriceInObject containerToString fuel h v seen = Some (Some b, seen') ->
  positive (Some b) = Some b.
Proof.
  assert (Hbind : forall f (w : jsvalue) s c s',
             (nested <- findPriceInObject containerToString f h w ;;
              ret (positive nested)) s = Some (Some c, s') -> positive (Some c) = Some c).
  { intros f w s c s' E. unfold bind in E.
    destruct (findPriceInObject containerToString f h w s) as [[rc s1] |]; [| discriminate].
    unfold ret in E. injection E as E _. eapply positive_fixed. exact E. }
  destruct (isContainer v) eqn:Hv.
  2:{ rewrite findPriceInObject_scalar by exact Hv. intros [= E _].
      eapply scalarPrice_fixed. exact E. }
  destruct v as [| | | | | r]; try discriminate Hv.
  destruct (h !! r) as [o |] eqn:Hr.
  2:{ rewrite findPriceInObject_dangling by exact Hr. discriminate. }
  destruct fuel as [| fuel]; [cbn; rewrite Hr; discriminate |].
  rewrite (findPriceInObject_eq fuel h r o) by exact Hr.
  case_bool_decide; [discriminate |].
  destruct (firstSome (priorityLookup _ _) _) as [p |] eqn:E2.
  { intros [= <- _]. eapply firstSome_fixed; [| exact E2].
    intros k c. unfold priorityLookup. destruct (List.find _ _); [| discriminate].
    destruct (_ && _); [apply positive_fixed | discriminate]. }
  destruct (firstSome (priceLikeLookup _ _) _) as [p |] eqn:E3.
  { intros [= <- _]. eapply firstSome_fixed; [| exact E3].
    intros k c. unfold priceLikeLookup. destruct (priceLike k); [apply positive_fixed | discriminate]. }
  destruct (isArray o).
  - destruct (firstHit _ (arrayElems o) _) as [[[nested |] s1] |] eqn:E4; [| | discriminate].
    + intros [= <- _]. eapply firstHit_fixed; [| exact E4]. intros el. apply Hbind.
    + apply firstHit_fixed. intros k s c s'. destruct (isContainer (getProp o k)); [apply Hbind |].
      unfold ret. intros [= E _]. eapply positive_fixed. exact E.
  - cbn. apply firstHit_fixed. intros k s c s'. destruct (isContainer (getProp o k)); [apply Hbind |].
    unfold ret. intros [= E _]. eapply positive_fixed. exact E.
Qed.

Lemma findPriceInObject_positive_none (fuel : nat) h (v : jsvalue) seen
    (res : option number) seen' :
  findPriceInObject containerToString fuel h v seen = Some (res, seen') ->
  positive res = None -> res = None.
Proof.
  intros E Hp. destruct res as [b |]; [| reflexivity].
  rewrite (findPriceInObject_fixed fuel h v seen b seen' E) in Hp. discriminate.
Qed.

Lemma priceDone_enter h seen enclosing (r : ref) :
  r ∉ seen -> priceDone containerToString h seen enclosing ->
  priceDone containerToString h ({[r]} ∪ seen) ({[r]} ∪ enclosing).
Proof.
  intros Hr Hd b o Hb Hnb Hob.
  destruct (Hd b o) as (H2 & H3 & H4 & H5); [set_solver | set_solver | exact Hob |].
  split; [exact H2 |]. split; [exact H3 |]. split.
  - intros Ha el Hel. eapply childDone_mono; [apply H4; assumption | set_solver].
  - intros k Hk. eapply childDone_mono; [apply H5; assumption | set_solver].
Qed.

Lemma priceDone_weaken h seen enclosing (r : ref) :
  priceDone containerToString h seen enclosing ->
  priceDone containerToString h seen ({[r]} ∪ enclosing).
Proof. intros Hd b o Hb Hnb Hob. apply (Hd b o); [exact Hb | set_solver | exact Hob]. Qed.

Lemma priceDone_leave h seen' enclosing (r : ref) (o : object) :
  h !! r = Some o ->
  firstSome (priorityLookup containerToString o) priorityKeys = None ->
  firstSome (priceLikeLookup containerToString o) (objectKeys o) = None ->
  (isArray o = true ->
   forall el, In el (arrayElems o) ->
              childDone h seen' el (positive (scalarPrice containerToString el))) ->
  (forall k, In k (objectKeys o) ->
             childDone h seen' (getProp o k) (positive (parse (getProp o k)))) ->
  priceDone containerToString h seen' ({[r]} ∪ enclosing) ->
  priceDone containerToString h seen' enclosing.
Proof.
  intros Hr H2 H3 H4 H5 Hd b ob Hb Hnb Hob.
  destruct (decide (b = r)) as [-> |].
  - rewrite Hr in Hob. injection Hob as <-. auto.
  - apply (Hd b ob); [exact Hb | set_solver | exact Hob].
Qed.

(** The unfolded price search finds nothing below a container that the
    search has visited. *)
Lemma findPriceUnfolded_done (fuel : nat) h :
  forall (r : ref) seen enclosing,
    enclosing ⊆ seen -> priceDone containerToString h seen enclosing ->
    (is_Some (h !! r) -> r ∈ seen) ->
    (unseen h enclosing < fuel)%nat ->
    findPriceUnfolded containerToString fuel h (VRef r) enclosing = Some None.
Proof.
  induction fuel as [| fuel IH]; intros r seen enclosing Hsub Hd Hr Hfuel; [lia |].
  destruct (h !! r) as [o |] eqn:Ho.
  2:{ apply findPriceUnfolded_dangling. exact Ho. }
  rewrite (findPriceUnfolded_eq fuel h r o) by exact Ho.
  case_bool_decide as Henc; [reflexivity |].
  destruct (Hd r o) as (H2 & H3 & H4 & H5); [apply Hr; eauto | exact Henc | exact Ho |].
  rewrite H2, H3.
  pose proof (unseen_add h r o enclosing Ho Henc) as Hlt.
  assert (Hchild : forall (w : jsvalue) (x : option number),
             childDone h seen w (positive x) ->
             (isContainer w = false -> scalarPrice containerToString w = x) ->
             positive <$> findPriceUnfolded containerToString fuel h w ({[r]} ∪ enclosing)
             = Some None).
  { intros w x Hw Hx. destruct (isContainer w) eqn:Hcw.
    - destruct w as [| | | | | r']; try discriminate Hcw.
      rewrite (IH r' seen); [reflexivity | set_solver | | exact Hw | lia].
      apply priceDone_weaken. exact Hd.
    - rewrite findPriceUnfolded_scalar by exact Hcw. rewrite (Hx eq_refl).
      cbn [fmap option_fmap option_map].
      rewrite (childDone_scalar h seen w _ Hcw Hw). reflexivity. }
  assert (Harr : (if isArray o
                  then firstOf (fun el =>
                         positive <$> findPriceUnfolded containerToString fuel h el
                                        ({[r]} ∪ enclosing)) (arrayElems o)
                  else Some None) = Some (@None number)).
  { destruct (isArray o); [| reflexivity]. apply firstOf_none.
    intros el Hel. apply (Hchild el (scalarPrice containerToString el)); [| reflexivity].
    apply H4; [reflexivity | exact Hel]. }
  rewrite Harr. apply firstOf_none. intros k Hk. specialize (H5 k Hk).
  destruct (isContainer (getProp o k)) eqn:Hck.
  - destruct (getProp o k) as [| | | | | r']; try discriminate Hck.
    rewrite (IH r' seen); [reflexivity | set_solver | | exact H5 | lia].
    apply priceDone_weaken. exact Hd.
  - unfold parse. rewrite (childDone_scalar h seen _ _ Hck H5). reflexivity.
Qed.

Lemma findPriceInObject_agrees_leaf (fuel : nat) h (v : jsvalue) seen
    (res : option number) seen' enclosing :
  match v with VRef r => h !! r = None | _ => True end ->
  findPriceInObject containerToString fuel h v seen = Some (res, seen') ->
  priceDone containerToString h seen enclosing ->
  seen ⊆ seen' /\
  (forall fuelU, findPriceUnfolded containerToString fuelU h v enclosing = Some res) /\
  (res = None -> priceDone containerToString h seen' enclosing /\ childDone h seen' v None).
Proof.
  intros Hv E Hd. destruct (isContainer v) eqn:Hc.
  - destruct v as [| | | | | r]; try discriminate Hc.
    rewrite findPriceInObject_dangling in E by exact Hv. injection E as <- <-.
    split; [set_solver |]. split.
    + intros. apply findPriceUnfolded_dangling. exact Hv.
    + intros _. split; [exact Hd |]. cbn. rewrite Hv. intros [? [=]].
  - rewrite findPriceInObject_scalar in E by exact Hc. injection E as <- <-.
    split; [set_solver |]. split.
    + intros. apply findPriceUnfolded_scalar. exact Hc.
    + intros _. split; [exact Hd |]. destruct v; try reflexivity. discriminate Hc.
Qed.

(** The price search and the search of the unfolded record agree. *)
Lemma findPriceInObject_agrees (fuel : nat) h :
  forall (v : jsvalue) seen res seen' enclosing,
    findPriceInObject containerToString fuel h v seen = Some (res, seen') ->
    enclosing ⊆ seen -> priceDone containerToString h seen enclosing ->
    seen ⊆ seen' /\
    (forall fuelU, (unseen h enclosing < fuelU)%nat ->
                   findPriceUnfolded containerToString fuelU h v enclosing = Some res) /\
    (res = None -> priceDone containerToString h seen' enclosing /\ childDone h seen' v None).
Proof.
  induction fuel as [| fuel IH]; intros v seen res seen' enclosing E Hsub Hd.
  - assert (Hleaf : match v with VRef r => h !! r = None | _ => True end).
    { destruct v as [| | | | | r]; try exact I.
      cbn in E. destruct (h !! r); [discriminate | reflexivity]. }
    destruct (findPriceInObject_agrees_leaf 0 h v seen res seen' enclosing Hleaf E Hd)
      as (H1 & H2 & H3). split; [exact H1 |]. split; [intros; apply H2 | exact H3].
  - destruct (match v with VRef r => h !! r | _ => None end) as [o |] eqn:Hobj.
    2:{ assert (Hleaf : match v with VRef r => h !! r = None | _ => True end).
        { destruct v; try exact I. exact Hobj. }
        destruct (findPriceInObject_agrees_leaf _ h v seen res seen' enclosing Hleaf E Hd)
          as (H1 & H2 & H3). split; [exact H1 |]. split; [intros; apply H2 | exact H3]. }
    destruct v as [| | | | | r]; try discriminate Hobj. rename Hobj into Hr.
    rewrite (findPriceInObject_eq fuel h r o) in E by exact Hr.
    case_bool_decide as Hseen.
    { injection E as <- <-. split; [set_solver |]. split.
      - intros fuelU HfU. apply (findPriceUnfolded_done fuelU h r seen); auto.
      - intros _. split; [exact Hd |]. cbn. auto. }
    assert (Henc : r ∉ enclosing) by set_solver.
    destruct (firstSome (priorityLookup containerToString o) priorityKeys) as [p |] eqn:E2.
    { injection E as <- <-. split; [set_solver |]. split; [| discriminate].
      intros [| fuelU] HfU; [lia |].
      rewrite (findPriceUnfolded_eq fuelU h r o) by exact Hr.
      rewrite bool_decide_eq_false_2 by exact Henc. rewrite E2. reflexivity. }
    destruct (firstSome (priceLikeLookup containerToString o) (objectKeys o)) as [p |] eqn:E3.
    { injection E as <- <-. split; [set_solver |]. split; [| discriminate].
      intros [| fuelU] HfU; [lia |].
      rewrite (findPriceUnfolded_eq fuelU h r o) by exact Hr.
      rewrite bool_decide_eq_false_2 by exact Henc. rewrite E2, E3. reflexivity. }
    pose proof (unseen_add h r o enclosing Hr Henc) as Hlt.
    set (enc1 := {[r]} ∪ enclosing) in *.
    set (Inv := fun s : gset ref => enc1 ⊆ s /\ priceDone containerToString h s enc1).
    assert (Hbody : forall fuelU, (unseen h enc1 < fuelU)%nat ->
      forall (w : jsvalue) s rw s', Inv s ->
        (nested <- findPriceInObject containerToString fuel h w ;;
         ret (positive nested)) s = Some (rw, s') ->
        s ⊆ s' /\
        positive <$> findPriceUnfolded containerToString fuelU h w enc1 = Some rw /\
        (rw = None -> Inv s' /\
                      childDone h s' w (positive (scalarPrice containerToString w)))).
    { intros fuelU HfU w s rw s' [HsubI HdI] Ew. unfold bind in Ew.
      destruct (findPriceInObject containerToString fuel h w s) as [[rc s1] |] eqn:Ec;
        [| discriminate].
      unfold ret in Ew. injection Ew as <- <-.
      destruct (IH _ _ _ _ _ Ec HsubI HdI) as (Hs1 & HU & Hpost).
      split; [exact Hs1 |]. split; [rewrite (HU fuelU HfU); reflexivity |].
      intros Hn. pose proof (findPriceInObject_positive_none _ _ _ _ _ _ Ec Hn) as ->.
      destruct (Hpost eq_refl) as [Hd1 Hc1]. split; [split; [set_solver | exact Hd1] |].
      destruct (isContainer w) eqn:Hcw.
      - destruct w; try discriminate Hcw. exact Hc1.
      - rewrite findPriceInObject_scalar in Ec by exact Hcw. injection Ec as Ec _.
        rewrite Ec. destruct w; try reflexivity. discriminate Hcw. }
    assert (Hinit : Inv ({[r]} ∪ seen)).
    { split; [unfold enc1; set_solver | apply priceDone_enter; assumption]. }
    destruct ((if isArray o
               then firstHit (fun el =>
                      nested <- findPriceInObject containerToString fuel h el ;;
                      ret (positive nested)) (arrayElems o)
               else ret None) ({[r]} ∪ seen)) as [[ra s1] |] eqn:Ea; [| discriminate].
    assert (Harr : forall fuelU, (unseen h enc1 < fuelU)%nat ->
      {[r]} ∪ seen ⊆ s1 /\
      (if isArray o
       then firstOf (fun el =>
              positive <$> findPriceUnfolded containerToString fuelU h el enc1) (arrayElems o)
       else Some None) = Some ra /\
      (ra = None -> Inv s1 /\
         (isArray o = true -> forall el, In el (arrayElems o) ->
            childDone h s1 el (positive (scalarPrice containerToString el))))).
    { intros fuelU HfU. destruct (isArray o).
      - destruct (loop_agrees Inv
                    (fun el s => childDone h s el (positive (scalarPrice containerToString el)))
                    _ (fun el => positive <$> findPriceUnfolded containerToString fuelU h el enc1)
                    (arrayElems o)
                    (fun el s s0 => childDone_mono h s s0 el _)
                    (fun el s rw s' _ => Hbody fuelU HfU el s rw s')
                    _ ra s1 Hinit Ea)
          as (Hs & HU & Hpost).
        split; [exact Hs |]. split; [exact HU |]. intros Hn.
        destruct (Hpost Hn). split; auto.
      - unfold ret in Ea. injection Ea as <- <-.
        split; [set_solver |]. split; [reflexivity |]. intros _. split; [exact Hinit |].
        discriminate. }
    destruct ra as [nested |].
    { injection E as <- <-.
      split; [destruct (Harr (S (unseen h enc1))) as [Hs _]; [lia | set_solver] |].
      split; [| discriminate].
      intros [| fuelU] HfU; [lia |].
      rewrite (findPriceUnfolded_eq fuelU h r o) by exact Hr.
      rewrite bool_decide_eq_false_2 by exact Henc. rewrite E2, E3. fold enc1.
      destruct (Harr fuelU) as (_ & -> & _); [lia | reflexivity]. }
    assert (Hkeys : forall fuelU, (unseen h enc1 < fuelU)%nat ->
      s1 ⊆ seen' /\
      firstOf (fun k =>
        if isContainer (getProp o k)
        then positive <$> findPriceUnfolded containerToString fuelU h (getProp o k) enc1
        else Some (positive (parse (getProp o k)))) (objectKeys o) = Some res /\
      (res = None -> Inv seen' /\
         forall k, In k (objectKeys o) ->
           childDone h seen' (getProp o k) (positive (parse (getProp o k))))).
    { intros fuelU HfU.
      destruct (Harr fuelU HfU) as (_ & _ & Hpa). destruct (Hpa eq_refl) as [Hinv1 _].
      refine (loop_agrees Inv
                (fun k s => childDone h s (getProp o k) (positive (parse (getProp o k))))
                _ _ (objectKeys o) _ _ s1 res seen' Hinv1 E).
      - intros k s s0. apply childDone_mono.
      - intros k s rk sk _ HI Ek. cbv beta in Ek.
        destruct (isContainer (getProp o k)) eqn:Hck.
        + destruct (Hbody fuelU HfU _ _ _ _ HI Ek) as (Hs & HU & Hpost).
          split; [exact Hs |]. split; [exact HU |]. intros Hn.
          destruct (Hpost Hn) as [HI' Hc']. split; [exact HI' |].
          destruct (getProp o k); try discriminate Hck. exact Hc'.
        + unfold ret in Ek. injection Ek as <- <-.
          split; [set_solver |]. split; [reflexivity |]. intros Hn.
          split; [exact HI |].
          destruct (getProp o k); try discriminate Hck; exact Hn. }
    split; [| split].
    + destruct (Harr (S (unseen h enc1))) as [Hs _]; [lia |].
      destruct (Hkeys (S (unseen h enc1))) as [Hs' _]; [lia |]. set_solver.
    + intros [| fuelU] HfU; [lia |].
      rewrite (findPriceUnfolded_eq fuelU h r o) by exact Hr.
      rewrite bool_decide_eq_false_2 by exact Henc. rewrite E2, E3. fold enc1.
      destruct (Harr fuelU) as (_ & -> & _); [lia |].
      apply Hkeys. lia.
    + intros Hn.
      destruct (Harr (S (unseen h enc1))) as (Hs & _ & Hpa); [lia |].
      destruct (Hpa eq_refl) as [_ Harrdone].
      destruct (Hkeys (S (unseen h enc1))) as (Hs' & _ & Hpk); [lia |].
      destruct (Hpk Hn) as [[HsubE HdE] Hkdone].
      split; [| cbn; intros _; set_solver].
      eapply priceDone_leave; eauto.
      intros Ha el Hel. eapply childDone_mono; [apply Harrdone; assumption | exact Hs'].
Qed.

Lemma findPriceInObject_seen (fuel : nat) h (r : ref) seen :
  r ∈ seen ->
  findPriceInObject containerToString (S fuel) h (VRef r) seen = Some (None, seen).
Proof.
  intros Hin. destruct (h !! r) as [o |] eqn:Hr.
  - rewrite (findPriceInObject_eq fuel h r o) by exact Hr.
    rewrite bool_decide_eq_true_2 by exact Hin. reflexivity.
  - apply findPriceInObject_dangling. exact Hr.
Qed.

Lemma fieldDone_empty h names : fieldDone h names ∅ ∅.
Proof. intros b o Hb. set_solver. Qed.

Lemma priceDone_empty h : priceDone containerToString h ∅ ∅.
Proof. intros b o Hb. set_solver. Qed.

(** C8. The field locator and the price search return on every record,
    cyclic or not: with as many steps as there are unvisited containers
    (plus one) they return, and [seen] only grows; a container that is in
    [seen] is never entered again; and started with an empty [seen] set,
    each returns what the same search returns on the unfolding of the
    record, in which only the references to an enclosing container are
    cut. *)
Theorem searches_terminate_on_cycles h (v : jsvalue) names path :
  (forall seen, exists res seen',
      findFieldRecursive (S (unseen h seen)) h v names path seen = Some (res, seen') /\
      seen ⊆ seen') /\
  (forall seen, exists res seen',
      findPriceInObject containerToString (S (unseen h seen)) h v seen = Some (res, seen') /\
      seen ⊆ seen') /\
  (forall (fuel : nat) (r : ref) seen,
      r ∈ seen ->
      findFieldRecursive (S fuel) h (VRef r) names path seen = Some (None, seen) /\
      findPriceInObject containerToString (S fuel) h (VRef r) seen = Some (None, seen)) /\
  (exists res,
      run (findFieldRecursive (searchFuel h) h v names path) = Some res /\
      findFieldUnfolded (searchFuel h) h v names path ∅ = Some res) /\
  (exists res,
      run (findPriceInObject containerToString (searchFuel h) h v) = Some res /\
      findPriceUnfolded containerToString (searchFuel h) h v ∅ = Some res).
Proof.
  assert (Hfuel : (unseen h ∅ < searchFuel h)%nat).
  { rewrite unseen_empty. unfold searchFuel. lia. }
  split; [| split; [| split; [| split]]].
  - intros seen. apply findFieldRecursive_returns. lia.
  - intros seen. apply findPriceInObject_returns. lia.
  - intros fuel r seen Hin.
    split; [apply findFieldRecursive_seen | apply findPriceInObject_seen]; exact Hin.
  - destruct (findFieldRecursive_returns (searchFuel h) h names v path ∅ Hfuel)
      as (res & seen' & E & _).
    exists res. split; [unfold run; rewrite E; reflexivity |].
    destruct (findFieldRecursive_agrees _ h names v path ∅ res seen' ∅ E)
      as (_ & HU & _); [set_solver | apply fieldDone_empty |].
    apply HU. exact Hfuel.
  - destruct (findPriceInObject_returns (searchFuel h) h v ∅ Hfuel)
      as (res & seen' & E & _).
    exists res. split; [unfold run; rewrite E; reflexivity |].
    destruct (findPriceInObject_agrees _ h v ∅ res seen' ∅ E)
      as (_ & HU & _); [set_solver | apply priceDone_empty |].
    apply HU. exact Hfuel.
Qed.

(** [normalize] returns on every record, cyclic or not. *)
Lemma normalize_returns h (it : jsvalue) :
  isNullish it = false -> exists product, normalize containerToString h it = Some product.
Proof.
  intros Hn.
  assert (Hfuel : (unseen h ∅ < searchFuel h)%nat).
  { rewrite unseen_empty. unfold searchFuel. lia. }
  destruct (findFieldRecursive_returns (searchFuel h) h tabelaFields it [] ∅ Hfuel)
    as (found & s1 & E1 & _).
  destruct (findPriceInObject_returns (searchFuel h) h it ∅ Hfuel)
    as (nested & s2 & E2 & _).
  unfold normalize, run. rewrite Hn, E1, E2. cbn [fmap option_fmap option_map fst].
  destruct (needsGenericSearch _); [| eexists; reflexivity].
  destruct nested as [n |]; [| eexists; reflexivity].
  destruct (truthyNumber n); eexists; reflexivity.
Qed.

End Cycles.

(** Witness of C8: in the record [o = {self: o, itens: [o, {valor: "12,50",
    dono: o}]}] the container [o], once in [seen], is not entered again. *)
Lemma searches_terminate_on_cycles_witness :
  findFieldRecursive 1 cyclicRecord (VRef 0%nat) ["valor"] [] {[0%nat]}
  = Some (None, {[0%nat]}) /\
  findPriceInObject plainHost 1 cyclicRecord (VRef 0%nat) {[0%nat]}
  = Some (None, {[0%nat]}).
Proof.
  apply (proj1 (proj2 (proj2
           (searches_terminate_on_cycles plainHost cyclicRecord (VRef 0%nat) ["valor"] [])))
           0%nat 0%nat {[0%nat]}).
  apply elem_of_singleton. reflexivity.
Defined.

(** The two searches on the cyclic record of the witness, and on the record
    without its cycles. *)
Lemma searches_on_cyclicRecord :
  run (findFieldRecursive (searchFuel cyclicRecord) cyclicRecord (VRef 0%nat) ["valor"] [])
  = Some (Some {| key := "valor"; value := VStr "12,50"; path := ["itens"; "1"; "valor"] |}) /\
  run (findPriceInObject plainHost (searchFuel cyclicRecord) cyclicRecord (VRef 0%nat))
  = Some (Some (Fin (25 # 2))) /\
  run (findFieldRecursive (searchFuel cyclicRecordCut) cyclicRecordCut (VRef 0%nat)
         ["valor"] [])
  = Some (Some {| key := "valor"; value := VStr "12,50"; path := ["itens"; "1"; "valor"] |}) /\
  run (findPriceInObject plainHost (searchFuel cyclicRecordCut) cyclicRecordCut (VRef 0%nat))
  = Some (Some (Fin (25 # 2))).
Proof. split; [| split; [| split]]; vm_compute; reflexivity. Qed.

(** ** The policy of the price extractor *)

Section ExtractorPolicy.

Variable containerToString : ref -> string.
Let parse := parseToNumber containerToString.

Implicit Types (h : heap) (seen : gset ref) (names : list string).






End ExtractorPolicy.


(** ** Reordering, adding and removing lines *)

Section Reordering.

Lemma moveRowDown_swap (index : nat) (rows : list Row) (a b : Row) :
  rows !! index = Some a -> rows !! S index = Some b ->
  moveRowDown index rows = <[S index := a]> (<[index := b]> rows).
Proof.
  intros Ha Hb. unfold moveRowDown.
  apply lookup_lt_Some in Hb as Hlen.
  destruct (Nat.leb_spec (length rows - 1) index) as [Hle |]; [lia |].
  rewrite Ha, Hb. reflexivity.
Qed.

Lemma moveRowUp_swap (index : nat) (rows : list Row) (a b : Row) :
  rows !! index = Some a -> rows !! S index = Some b ->
  moveRowUp (S index) rows = <[S index := a]> (<[index := b]> rows).
Proof.
  intros Ha Hb. cbn [moveRowUp]. rewrite Ha, Hb.
  apply list_insert_insert_ne. lia.
Qed.

Lemma swapped_lookups (index : nat) (rows : list Row) (a b : Row) :
  rows !! index = Some a -> rows !! S index = Some b ->
  <[S index := a]> (<[index := b]> rows) !! index = Some b /\
  <[S index := a]> (<[index := b]> rows) !! S index = Some a.
Proof.
  intros Ha Hb. apply lookup_lt_Some in Ha as Hla. apply lookup_lt_Some in Hb as Hlb.
  split.
  - rewrite list_lookup_insert_ne by lia. apply list_lookup_insert_eq. exact Hla.
  - apply list_lookup_insert_eq. rewrite length_insert. exact Hlb.
Qed.

Lemma swapped_back (index : nat) (rows : list Row) (a b : Row) :
  rows !! index = Some a -> rows !! S index = Some b ->
  <[S index := b]> (<[index := a]> (<[S index := a]> (<[index := b]> rows))) = rows.
Proof.
  intros Ha Hb.
  rewrite (list_insert_insert_ne _ index (S index)) by lia.
  rewrite !list_insert_insert_eq.
  rewrite (list_insert_id rows index a Ha).
  apply list_insert_id. exact Hb.
Qed.

(** X1. Moving a line down and then the same line up again, or up and
    then down again, restores the order of the lines; between two
    adjacent lines the two buttons do the same exchange. *)
Theorem moveRowDown_moveRowUp_restores (index : nat) (rows : list Row) :
  (S index < length rows)%nat ->
  moveRowUp (S index) (moveRowDown index rows) = rows /\
  moveRowDown index (moveRowUp (S index) rows) = rows /\
  moveRowUp (S index) rows = moveRowDown index rows.
Proof.
  intros Hlen.
  destruct (lookup_lt_is_Some_2 rows index) as [a Ha]; [lia |].
  destruct (lookup_lt_is_Some_2 rows (S index)) as [b Hb]; [lia |].
  destruct (swapped_lookups index rows a b Ha Hb) as [Hb' Ha'].
  rewrite (moveRowUp_swap index rows a b Ha Hb), (moveRowDown_swap index rows a b Ha Hb).
  split; [| split; [| reflexivity]].
  - rewrite (moveRowUp_swap index _ b a Hb' Ha'). apply swapped_back; assumption.
  - rewrite (moveRowDown_swap index _ b a Hb' Ha'). apply swapped_back; assumption.
Qed.

(** X2. Moving a line never loses, duplicates or alters a line: the
    lines after the move are a permutation of the lines before it. *)
Theorem moveRow_permutation (index : nat) (rows : list Row) :
  Permutation (moveRowDown index rows) rows /\
  ((index < length rows)%nat -> Permutation (moveRowUp index rows) rows).
Proof.
  split.
  - unfold moveRowDown. destruct (_ <=? _)%nat; [reflexivity |].
    destruct (rows !! index) as [a |] eqn:Ea; [| reflexivity].
    destruct (rows !! S index) as [b |] eqn:Eb; [| reflexivity].
    apply Permutation_insert_swap; assumption.
  - intros _. destruct index as [| i]; [reflexivity |]. cbn [moveRowUp].
    destruct (rows !! i) as [a |] eqn:Ea; [| reflexivity].
    destruct (rows !! S i) as [b |] eqn:Eb; [| reflexivity].
    apply Permutation_insert_swap; assumption.
Qed.

Lemma filter_all (P : Row -> bool) (rows : list Row) :
  forallb P rows = true -> List.filter P rows = rows.
Proof.
  induction rows as [| r rows IH]; [reflexivity |]. cbn [forallb List.filter].
  intros H. apply andb_prop in H as [Hr Hrest]. rewrite Hr, IH by exact Hrest. reflexivity.
Qed.

Lemma map_unchanged (f : Row -> Row) (rowId : string) (rows : list Row) :
  (forall r, String.eqb (id r) rowId = false -> f r = r) ->
  forallb (fun r => negb (String.eqb (id r) rowId)) rows = true -> map f rows = rows.
Proof.
  intros Hf. induction rows as [| r rows IH]; [reflexivity |]. cbn [forallb map].
  intros H. apply andb_prop in H as [Hr Hrest]. apply negb_true_iff in Hr.
  rewrite (Hf r Hr), IH by exact Hrest. reflexivity.
Qed.

(** X3. Removing the line that was just added gives back the draft, when
    no other line carries the identifier of the new line. *)
Theorem removeRow_addRow (newId : string) (selectedProduct : option (string * string * number))
    (qty : number) (rows : list Row) :
  forallb (fun r => negb (String.eqb (id r) newId)) rows = true ->
  removeRow newId (addRow newId selectedProduct qty rows) = rows.
Proof.
  intros H. unfold removeRow, addRow. rewrite List.filter_app, (filter_all _ rows H).
  cbn [List.filter id]. rewrite String.eqb_refl. cbn [negb]. apply app_nil_r.
Qed.

(** X4. An identifier that no line carries: removing it and every update
    addressed to it leave the draft as it is. *)
Theorem unknown_row_changes_nothing (rowId : string) (rows : list Row) :
  forallb (fun r => negb (String.eqb (id r) rowId)) rows = true ->
  removeRow rowId rows = rows /\
  (forall q, onQuantidadeChange rowId q rows = rows) /\
  (forall preco, onPrecoUnitChange rowId preco rows = rows) /\
  (forall produtoIdStr nomeProduto precoMinCalc,
      selectProduct rowId produtoIdStr nomeProduto precoMinCalc rows = rows) /\
  clearProduct rowId rows = rows.
Proof.
  intros H. split; [apply filter_all; exact H |].
  split; [| split; [| split]]; intros; (apply (map_unchanged _ rowId); [| exact H]);
    intros r Hr; rewrite Hr; reflexivity.
Qed.

(** X5. Quantity and price edits do not interfere: in either order they
    give the same draft, and of two price edits of a line the later one
    stands. *)
Theorem quantity_and_price_edits_commute (a b : string) (q : number) (p1 p2 : string)
    (rows : list Row) :
  onQuantidadeChange a q (onPrecoUnitChange b p1 rows)
  = onPrecoUnitChange b p1 (onQuantidadeChange a q rows) /\
  onPrecoUnitChange b p2 (onPrecoUnitChange b p1 rows) = onPrecoUnitChange b p2 rows.
Proof.
  unfold onQuantidadeChange, onPrecoUnitChange. rewrite !map_map.
  split; apply map_ext; intros r;
    destruct (String.eqb (id r) a) eqn:Ea, (String.eqb (id r) b) eqn:Eb; cbn [id];
    rewrite ?Ea, ?Eb; reflexivity.
Qed.

End Reordering.

(** Witness of X1: two fresh lines, the first moved down and up again. *)
Lemma moveRowDown_moveRowUp_restores_witness :
  moveRowUp 1 (moveRowDown 0 (addRowDefault "b" (addRowDefault "a" [])))
  = addRowDefault "b" (addRowDefault "a" []) /\
  moveRowDown 0 (moveRowUp 1 (addRowDefault "b" (addRowDefault "a" [])))
  = addRowDefault "b" (addRowDefault "a" []) /\
  moveRowUp 1 (addRowDefault "b" (addRowDefault "a" []))
  = moveRowDown 0 (addRowDefault "b" (addRowDefault "a" [])).
Proof.
  apply (moveRowDown_moveRowUp_restores 0 (addRowDefault "b" (addRowDefault "a" []))).
  simpl. lia.
Defined.

(** Witness of X2: the second of two fresh lines moved up. *)
Lemma moveRow_permutation_witness :
  Permutation (moveRowUp 1 (addRowDefault "b" (addRowDefault "a" [])))
              (addRowDefault "b" (addRowDefault "a" [])).
Proof.
  apply (proj2 (moveRow_permutation 1 (addRowDefault "b" (addRowDefault "a" [])))).
  simpl. lia.
Defined.

(** Witness of X3: a line added to a draft of one line and removed again. *)
Lemma removeRow_addRow_witness :
  removeRow "b" (addRow "b" None (Fin 1) (addRowDefault "a" [])) = addRowDefault "a" [].
Proof.
  apply (removeRow_addRow "b" None (Fin 1) (addRowDefault "a" [])). reflexivity.
Defined.

(** Witness of X4: a draft of one line, addressed by another identifier. *)
Lemma unknown_row_changes_nothing_witness :
  removeRow "z" (addRowDefault "a" []) = addRowDefault "a" [] /\
  (forall q, onQuantidadeChange "z" q (addRowDefault "a" []) = addRowDefault "a" []) /\
  (forall preco, onPrecoUnitChange "z" preco (addRowDefault "a" []) = addRowDefault "a" []) /\
  (forall produtoIdStr nomeProduto precoMinCalc,
      selectProduct "z" produtoIdStr nomeProduto precoMinCalc (addRowDefault "a" [])
      = addRowDefault "a" []) /\
  clearProduct "z" (addRowDefault "a" []) = addRowDefault "a" [].
Proof.
  apply (unknown_row_changes_nothing "z" (addRowDefault "a" [])). reflexivity.
Defined.

(** ** The gate under the operations of the form *)

Section GateOperations.

Lemma existsb_Permutation (P : Row -> bool) (l l' : list Row) :
  Permutation l l' -> existsb P l = existsb P l'.
Proof.
  intros Hp. apply Bool.eq_iff_eq_true. rewrite !existsb_exists.
  split; intros (x & Hin & Hx); exists x; (split; [| exact Hx]).
  - eapply Permutation_in; eauto.
  - eapply Permutation_in; [apply Permutation_sym |]; eauto.
Qed.

Lemma existsb_map_same (P : Row -> bool) (f : Row -> Row) (rows : list Row) :
  (forall r, P (f r) = P r) -> existsb P (map f rows) = existsb P rows.
Proof.
  intros Hf. induction rows as [| r rows IH]; [reflexivity |].
  cbn [map existsb]. rewrite Hf, IH. reflexivity.
Qed.

Lemma belowMin_fields (r r' : Row) :
  precoUnit r' = precoUnit r -> precoMin r' = precoMin r -> belowMin r' = belowMin r.
Proof.
  intros Hu Hm. unfold belowMin, enteredPrice, effectiveMin. rewrite Hu, Hm. reflexivity.
Qed.

(** X6. The gate looks only at prices and minima: a quantity edit, a
    move of a line and a fresh line never change its state. *)
Theorem gate_ignores_quantity_order_and_fresh_lines (rows : list Row) :
  (forall rowId q, gate (onQuantidadeChange rowId q rows) = gate rows) /\
  (forall index, gate (moveRowDown index rows) = gate rows) /\
  (forall index, (index < length rows)%nat -> gate (moveRowUp index rows) = gate rows) /\
  (forall newId, gate (addRowDefault newId rows) = gate rows).
Proof.
  unfold gate, priceBelowMinExists. split; [| split; [| split]].
  - intros rowId q. unfold onQuantidadeChange. rewrite existsb_map_same; [reflexivity |].
    intros r. destruct (String.eqb (id r) rowId); [| reflexivity].
    apply belowMin_fields; reflexivity.
  - intros index. rewrite (existsb_Permutation belowMin (moveRowDown index rows) rows);
      [reflexivity |].
    unfold moveRowDown. destruct (_ <=? _)%nat; [reflexivity |].
    destruct (rows !! index) as [a |] eqn:Ea; [| reflexivity].
    destruct (rows !! S index) as [b |] eqn:Eb; [| reflexivity].
    apply Permutation_insert_swap; assumption.
  - intros index _. rewrite (existsb_Permutation belowMin (moveRowUp index rows) rows);
      [reflexivity |].
    destruct index as [| i]; [reflexivity |]. cbn [moveRowUp].
    destruct (rows !! i) as [a |] eqn:Ea; [| reflexivity].
    destruct (rows !! S i) as [b |] eqn:Eb; [| reflexivity].
    apply Permutation_insert_swap; assumption.
  - intros newId. unfold addRowDefault, addRow. rewrite existsb_app. cbn [existsb].
    rewrite !orb_false_r. reflexivity.
Qed.

Lemma removed_not_below (rowId : string) (rows : list Row) :
  forallb (fun r => negb (belowMin r) || String.eqb (id r) rowId) rows = true ->
  priceBelowMinExists (removeRow rowId rows) = false.
Proof.
  unfold priceBelowMinExists, removeRow.
  induction rows as [| r rows IH]; [reflexivity |]. cbn [forallb]. intros H.
  apply andb_prop in H as [Hr Hrest]. cbn [List.filter].
  destruct (String.eqb (id r) rowId); cbn [negb]; [apply IH; exact Hrest |].
  cbn [existsb]. rewrite orb_false_r in Hr. apply negb_true_iff in Hr.
  rewrite Hr. apply IH. exact Hrest.
Qed.

Lemma emptied_not_below (rowId : string) (rows : list Row) :
  forallb (fun r => negb (belowMin r) || String.eqb (id r) rowId) rows = true ->
  priceBelowMinExists (onPrecoUnitChange rowId EmptyString rows) = false.
Proof.
  unfold priceBelowMinExists, onPrecoUnitChange.
  induction rows as [| r rows IH]; [reflexivity |]. cbn [forallb]. intros H.
  apply andb_prop in H as [Hr Hrest]. cbn [map existsb]. rewrite (IH Hrest), orb_false_r.
  destruct (String.eqb (id r) rowId); [reflexivity |].
  rewrite orb_false_r in Hr. apply negb_true_iff in Hr. exact Hr.
Qed.

(** X7. When every line whose price is below its minimum carries the
    identifier [rowId], removing that line, or emptying its price field,
    makes the draft valid. *)
Theorem removing_or_emptying_the_offending_line_unblocks (rowId : string) (rows : list Row) :
  forallb (fun r => negb (belowMin r) || String.eqb (id r) rowId) rows = true ->
  gate (removeRow rowId rows) = valid /\
  gate (onPrecoUnitChange rowId EmptyString rows) = valid.
Proof.
  intros H. unfold gate.
  rewrite (removed_not_below rowId rows H), (emptied_not_below rowId rows H).
  split; reflexivity.
Qed.

Lemma showsWarning_belowMin (r : Row) : showsWarning r = belowMin r.
Proof.
  unfold showsWarning, belowMin, enteredPrice. destruct (precoUnit r); reflexivity.
Qed.

(** X8. The submit button is disabled exactly when some line shows the
    warning "Preço abaixo do mínimo" under its price field. *)
Theorem gate_blocked_iff_some_warning (rows : list Row) :
  priceBelowMinExists rows = existsb showsWarning rows /\
  (gate rows = blocked <-> exists r, In r rows /\ showsWarning r = true).
Proof.
  assert (E : priceBelowMinExists rows = existsb showsWarning rows).
  { unfold priceBelowMinExists. induction rows as [| r rows IH]; [reflexivity |].
    cbn [existsb]. rewrite IH, showsWarning_belowMin. reflexivity. }
  split; [exact E |]. unfold gate. rewrite E.
  destruct (existsb showsWarning rows) eqn:Ex.
  - apply existsb_exists in Ex. split; [intros _; exact Ex | reflexivity].
  - split; [discriminate |]. intros Hex. apply existsb_exists in Hex. congruence.
Qed.

End GateOperations.

(** Witness of X6: the second of two lines moved up. *)
Lemma gate_ignores_quantity_order_and_fresh_lines_witness :
  gate (moveRowUp 1 [lineWith "10" (Fin 15); lineWith "" (Fin 15)])
  = gate [lineWith "10" (Fin 15); lineWith "" (Fin 15)].
Proof.
  apply (proj1 (proj2 (proj2 (gate_ignores_quantity_order_and_fresh_lines
                                [lineWith "10" (Fin 15); lineWith "" (Fin 15)]))) 1%nat).
  simpl. lia.
Defined.

(** Witness of X7: one line with price 10 and minimum 15. *)
Lemma removing_or_emptying_the_offending_line_unblocks_witness :
  gate (removeRow "l1" [lineWith "10" (Fin 15)]) = valid /\
  gate (onPrecoUnitChange "l1" EmptyString [lineWith "10" (Fin 15)]) = valid.
Proof.
  apply (removing_or_emptying_the_offending_line_unblocks "l1" [lineWith "10" (Fin 15)]).
  reflexivity.
Defined.

(** ** The total of the draft *)

Section Total.

Lemma fold_addLine_filter (rows : list Row) (acc : number) :
  fold_left addLine (List.filter (fun r => jgt (enteredPrice r) (Fin 0)) rows) acc
  = fold_left addLine rows acc.
Proof.
  revert acc. induction rows as [| r rows IH]; intros acc; [reflexivity |].
  cbn [List.filter fold_left]. destruct (jgt (enteredPrice r) (Fin 0)) eqn:E.
  - cbn [fold_left]. apply IH.
  - rewrite IH. unfold addLine. rewrite E. reflexivity.
Qed.

(** X9. The total counts only the lines whose entered price parses to a
    positive number: leaving the other lines out does not change it, and a
    draft without such a line totals 0. *)
Theorem calcularTotal_counts_priced_lines (rows : list Row) :
  calcularTotal (List.filter (fun r => jgt (enteredPrice r) (Fin 0)) rows) = calcularTotal rows /\
  (existsb (fun r => jgt (enteredPrice r) (Fin 0)) rows = false -> calcularTotal rows = Fin 0).
Proof.
  unfold calcularTotal. split; [apply fold_addLine_filter |].
  intros H. rewrite <- fold_addLine_filter.
  replace (List.filter (fun r => jgt (enteredPrice r) (Fin 0)) rows) with (@nil Row);
    [reflexivity |].
  induction rows as [| r rows IH]; [reflexivity |]. cbn [existsb] in H.
  apply orb_false_elim in H as [Hr Hrest]. cbn [List.filter]. rewrite Hr. apply IH. exact Hrest.
Qed.

Lemma fold_addLine_map (f g : Row -> Row) (rows : list Row) (acc : number) :
  (forall a r, addLine a (f r) = addLine a (g r)) ->
  fold_left addLine (map f rows) acc = fold_left addLine (map g rows) acc.
Proof.
  intros H. revert acc. induction rows as [| r rows IH]; intros acc; [reflexivity |].
  cbn [map fold_left]. rewrite H. apply IH.
Qed.

(** X10. A stored quantity of 0, or one that is not a number, is billed
    as quantity 1. *)
Theorem calcularTotal_bills_zero_quantity_as_one (rowId : string) (rows : list Row) :
  calcularTotal (onQuantidadeChange rowId (Fin 0) rows)
  = calcularTotal (onQuantidadeChange rowId (Fin 1) rows) /\
  calcularTotal (onQuantidadeChange rowId NaN rows)
  = calcularTotal (onQuantidadeChange rowId (Fin 1) rows).
Proof.
  unfold calcularTotal, onQuantidadeChange.
  split; apply fold_addLine_map; intros a r;
    destruct (String.eqb (id r) rowId); reflexivity.
Qed.

Lemma jadd_nonneg (a b : number) :
  jle (Fin 0) a = true -> jle (Fin 0) b = true -> jle (Fin 0) (jadd a b) = true.
Proof.
  destruct a as [| [|] | x], b as [| [|] | y]; try discriminate; try reflexivity.
  intros Hx Hy. apply jle_Fin in Hx, Hy. cbn [jadd]. apply jle_Fin.
  rewrite Qred_correct. lra.
Qed.

Lemma jmul_nonneg (p q : number) :
  jgt p (Fin 0) = true -> jle (Fin 1) q = true -> jle (Fin 0) (jmul p q) = true.
Proof.
  unfold jgt.
  destruct p as [| [|] | x], q as [| [|] | y]; try discriminate; try reflexivity.
  - intros _ Hy. apply jle_Fin in Hy. cbn [jmul].
    rewrite Qeq_bool_pos by lra. destruct (Qlt_le_dec y 0); [exfalso; lra | reflexivity].
  - intros Hx _. apply jlt_Fin in Hx. cbn [jmul].
    rewrite Qeq_bool_pos by lra. destruct (Qlt_le_dec x 0); [exfalso; lra | reflexivity].
  - intros Hx Hy. apply jlt_Fin in Hx. apply jle_Fin in Hy. cbn [jmul]. apply jle_Fin.
    rewrite Qred_correct. nra.
Qed.

Lemma billedQuantity_ok (r : Row) : quantityOk r = true -> billedQuantity r = quantidade r.
Proof.
  unfold quantityOk, billedQuantity. destruct (quantidade r) as [| [|] | y]; try discriminate;
    try reflexivity.
  intros Hy. apply jle_Fin in Hy. cbn [truthyNumber]. rewrite Qeq_bool_pos by lra. reflexivity.
Qed.

Lemma fold_addLine_nonneg (rows : list Row) (acc : number) :
  forallb quantityOk rows = true -> jle (Fin 0) acc = true ->
  jle (Fin 0) (fold_left addLine rows acc) = true.
Proof.
  revert acc. induction rows as [| r rows IH]; intros acc H Hacc; [exact Hacc |].
  cbn [forallb] in H. apply andb_prop in H as [Hr Hrest]. cbn [fold_left].
  apply IH; [exact Hrest |]. unfold addLine.
  destruct (jgt (enteredPrice r) (Fin 0)) eqn:E; [| exact Hacc].
  apply jadd_nonneg; [exact Hacc |]. apply jmul_nonneg; [exact E |].
  rewrite (billedQuantity_ok r Hr). exact Hr.
Qed.

(** X11. When every line has a quantity of at least 1, the total is a
    number that is not negative. *)
Theorem calcularTotal_not_negative (rows : list Row) :
  forallb quantityOk rows = true -> jle (Fin 0) (calcularTotal rows) = true.
Proof. intros H. apply fold_addLine_nonneg; [exact H | reflexivity]. Qed.

End Total.

(** Witness of X11: a priced and an unpriced line of quantity 1. *)
Lemma calcularTotal_not_negative_witness :
  jle (Fin 0) (calcularTotal [lineWith "10" (Fin 15); lineWith "" (Fin 15)]) = true.
Proof.
  apply (calcularTotal_not_negative [lineWith "10" (Fin 15); lineWith "" (Fin 15)]).
  reflexivity.
Defined.

(** ** The message and the posted order *)

Section Message.

Variable toLocaleString : number -> string.
Variable numberToString : number -> string.

Lemma itemLines_from (idx : nat) (rows : list Row) :
  itemLines toLocaleString numberToString idx rows
  = imap (fun i r => itemLine toLocaleString numberToString (idx + i) r)
         (List.filter hasProduct rows).
Proof.
  revert idx. induction rows as [| r rows IH]; intros idx; [reflexivity |].
  cbn [itemLines List.filter]. destruct (hasProduct r).
  - rewrite imap_cons, Nat.add_0_r, IH. f_equal. apply imap_ext. intros i x _.
    cbn. f_equal. lia.
  - apply IH.
Qed.

(** X12. The item lines of the message are the lines of the rows that
    have a product, in their order and numbered 1, 2, 3, ...: a row without
    a product prints nothing and takes no number. *)
Theorem itemLines_numbered (rows : list Row) :
  itemLines toLocaleString numberToString 1 rows
  = imap (fun i r => itemLine toLocaleString numberToString (S i) r)
         (List.filter hasProduct rows).
Proof. apply itemLines_from. Qed.

(** X13. The order posted to the API has one item for each numbered line
    of the message, in the same order and with the same product names. *)
Theorem payloadItens_match_message (rows : list Row) :
  length (payloadItens rows) = length (itemLines toLocaleString numberToString 1 rows) /\
  map Pedido.produtoNome (payloadItens rows) = map produtoNome (List.filter hasProduct rows) /\
  map Pedido.quantidade (payloadItens rows) = map billedQuantity (List.filter hasProduct rows).
Proof.
  rewrite itemLines_from, length_imap. unfold payloadItens.
  rewrite length_map, !map_map. split; [reflexivity | split; reflexivity].
Qed.

Lemma itemLines_fresh (idx : nat) (newId : string) (rows : list Row) :
  itemLines toLocaleString numberToString idx (addRowDefault newId rows)
  = itemLines toLocaleString numberToString idx rows.
Proof.
  unfold addRowDefault, addRow. revert idx.
  induction rows as [| r rows IH]; intros idx; [reflexivity |].
  cbn [app itemLines]. rewrite !IH. reflexivity.
Qed.

(** X14. A fresh line, which has no product and no price, is invisible:
    added to a draft that has a line already, it changes neither the
    message, nor the total, nor the items of the posted order. Added to the
    empty draft, it replaces the line "Item: [não informado]" of the message
    by the bare heading "Itens:". *)
Theorem fresh_line_is_invisible (f : Form) (newId : string) (rows : list Row) :
  (rows <> [] ->
   montarMensagem toLocaleString numberToString f (addRowDefault newId rows)
   = montarMensagem toLocaleString numberToString f rows) /\
  calcularTotal (addRowDefault newId rows) = calcularTotal rows /\
  payloadItens (addRowDefault newId rows) = payloadItens rows /\
  messageLines toLocaleString numberToString f []
  = ["*Novo pedido*"; ("Nome: " ++ orElse (nome f) "[não informado]")%string;
     "Item: [não informado]"; ("Endereço: " ++ endereco f)%string] ++
    pushIf "CEP: " (cep f) ++
    [("Método de pagamento: " ++ orElse (pagamento f) "[não informado]")%string] /\
  messageLines toLocaleString numberToString f (addRowDefault newId [])
  = ["*Novo pedido*"; ("Nome: " ++ orElse (nome f) "[não informado]")%string;
     "Itens:"; ("Endereço: " ++ endereco f)%string] ++
    pushIf "CEP: " (cep f) ++
    [("Método de pagamento: " ++ orElse (pagamento f) "[não informado]")%string].
Proof.
  split; [| split; [| split; [| split; reflexivity]]].
  - intros Hne. unfold montarMensagem, messageLines. rewrite itemLines_fresh.
    destruct rows as [| r rows]; [contradiction | reflexivity].
  - unfold calcularTotal, addRowDefault, addRow. rewrite fold_left_app. reflexivity.
  - unfold payloadItens, addRowDefault, addRow. rewrite List.filter_app.
    cbn [List.filter hasProduct produtoNome String.eqb negb]. rewrite app_nil_r. reflexivity.
Qed.

End Message.

(** Witness of X14: a fresh line added to a draft of one line. *)
Lemma fresh_line_is_invisible_witness :
  montarMensagem (fun _ => EmptyString) (fun _ => EmptyString)
    {| nome := "Ana"; cep := ""; rua := ""; numero := ""; bairro := ""; cidade := "";
       complemento := ""; pagamento := "PIX" |}
    (addRowDefault "b" [lineWith "10" (Fin 15)])
  = montarMensagem (fun _ => EmptyString) (fun _ => EmptyString)
      {| nome := "Ana"; cep := ""; rua := ""; numero := ""; bairro := ""; cidade := "";
         complemento := ""; pagamento := "PIX" |}
      [lineWith "10" (Fin 15)].
Proof.
  apply (proj1 (fresh_line_is_invisible (fun _ => EmptyString) (fun _ => EmptyString)
                  {| nome := "Ana"; cep := ""; rua := ""; numero := ""; bairro := "";
                     cidade := ""; complemento := ""; pagamento := "PIX" |}
                  "b" [lineWith "10" (Fin 15)])).
  discriminate.
Defined.

(** ** The postal-code lookup *)

Section Cep.

Lemma filterChars_all (p : ascii -> bool) (s : string) : allChars p (filterChars p s) = true.
Proof.
  induction s as [| c s IH]; [reflexivity |]. cbn [filterChars].
  destruct (p c) eqn:E; [cbn [allChars]; rewrite E, IH; reflexivity | exact IH].
Qed.

Lemma filterChars_idem (p : ascii -> bool) (s : string) :
  filterChars p (filterChars p s) = filterChars p s.
Proof.
  induction s as [| c s IH]; [reflexivity |]. cbn [filterChars].
  destruct (p c) eqn:E; [cbn [filterChars]; rewrite E, IH; reflexivity | exact IH].
Qed.

(** X15. The address is requested exactly when the text of the field
    holds eight digits, whatever else is typed between them; the request
    then carries those eight digits and nothing else of the text. *)
Theorem buscarCep_requests_eight_digits (cepText : string) :
  (forall url,
      buscarCep cepText = FetchCep url <->
      String.length (filterChars isDigit cepText) = 8%nat /\
      url = ("https://viacep.com.br/ws/" ++ filterChars isDigit cepText ++ "/json/")%string) /\
  allChars isDigit (filterChars isDigit cepText) = true /\
  buscarCep (filterChars isDigit cepText) = buscarCep cepText.
Proof.
  split; [| split; [apply filterChars_all |]].
  - intros url. unfold buscarCep. destruct (filterChars isDigit cepText) as [| c s] eqn:E.
    + split; [discriminate | intros [H _]; discriminate H].
    + destruct (Nat.eqb_spec (String.length (String c s)) 8) as [Hl | Hl]; cbn [negb].
      * split; [intros [= <-]; split; [exact Hl | reflexivity] | intros [_ ->]; reflexivity].
      * split; [discriminate | intros [H _]; contradiction].
  - unfold buscarCep. rewrite filterChars_idem. reflexivity.
Qed.

End Cep.

(** ** The two versions of the price search *)

Section Versions.

Variable containerToString : ref -> string.

Implicit Types (h : heap) (seen : gset ref).

Lemma previous_findPriceInObject_eq (fuel : nat) h (r : ref) (o : object) seen :
  h !! r = Some o ->
  Previous.findPriceInObject containerToString (S fuel) h (VRef r) seen =
    if bool_decide (r ∈ seen) then Some (None, seen) else
    match firstSome (priorityLookup containerToString o) priorityKeys with
    | Some parsed => Some (Some parsed, {[r]} ∪ seen)
    | None =>
    match firstSome (priceLikeLookup containerToString o) (objectKeys o) with
    | Some parsed => Some (Some parsed, {[r]} ∪ seen)
    | None =>
        match (if isArray o
               then firstHit (fun el =>
                      nested <- Previous.findPriceInObject containerToString fuel h el ;;
                      ret (positive nested)) (arrayElems o)
               else ret None) ({[r]} ∪ seen) with
        | None => None
        | Some (Some nested, s) => Some (Some nested, s)
        | Some (None, s) =>
            firstHit (fun k =>
              if isContainer (getProp o k) then
                nested <- Previous.findPriceInObject containerToString fuel h (getProp o k) ;;
                ret (positive nested)
              else ret (positive (parseToNumber containerToString (getProp o k))))
              (objectKeys o) s
        end
    end
    end.
Proof.
  intros Hr. cbn [Previous.findPriceInObject]. rewrite Hr. unfold bind at 1. unfold seenHas.
  destruct (bool_decide (r ∈ seen)); [reflexivity |].
  unfold bind at 1. unfold seenAdd.
  destruct (firstSome (priorityLookup _ _) _); [reflexivity |].
  destruct (firstSome (priceLikeLookup _ _) _); [reflexivity |].
  unfold bind at 1. destruct (isArray o).
  - destruct (firstHit _ (arrayElems o) _) as [[[nested |] s] |]; reflexivity.
  - reflexivity.
Qed.

(** X16. The tabela step that the current [findPriceInObject] has before
    the priority keys never contributes: the container is already in
    [seen] when the locator is called on it, so on every value, with every
    [seen] set, the current version returns what the previous version
    (without that step) returns. *)
Theorem findPriceInObject_tabela_step_is_dead (fuel : nat) h (v : jsvalue) seen :
  findPriceInObject containerToString fuel h v seen
  = Previous.findPriceInObject containerToString fuel h v seen.
Proof.
  revert v seen. induction fuel as [| fuel IH]; intros v seen.
  - destruct v; reflexivity.
  - destruct v as [| | | | | r]; try reflexivity.
    destruct (h !! r) as [o |] eqn:Hr.
    2:{ rewrite findPriceInObject_dangling by exact Hr.
        cbn [Previous.findPriceInObject]. rewrite Hr. reflexivity. }
    rewrite (findPriceInObject_eq containerToString fuel h r o) by exact Hr.
    rewrite (previous_findPriceInObject_eq fuel h r o) by exact Hr.
    destruct (bool_decide (r ∈ seen)); [reflexivity |].
    destruct (firstSome (priorityLookup _ _) _); [reflexivity |].
    destruct (firstSome (priceLikeLookup _ _) _); [reflexivity |].
    assert (Hbody : forall k t,
               (if isContainer (getProp o k) then
                  nested <- findPriceInObject containerToString fuel h (getProp o k) ;;
                  ret (positive nested)
                else ret (positive (parseToNumber containerToString (getProp o k)))) t
               = (if isContainer (getProp o k) then
                    nested <- Previous.findPriceInObject containerToString fuel h (getProp o k) ;;
                    ret (positive nested)
                  else ret (positive (parseToNumber containerToString (getProp o k)))) t).
    { intros k t. destruct (isContainer (getProp o k)); [| reflexivity].
      unfold bind. rewrite IH. reflexivity. }
    destruct (isArray o).
    + rewrite (firstHit_ext
                 (fun el => nested <- findPriceInObject containerToString fuel h el ;;
                            ret (positive nested))
                 (fun el => nested <- Previous.findPriceInObject containerToString fuel h el ;;
                            ret (positive nested))).
      2:{ intros el t _. unfold bind. rewrite IH. reflexivity. }
      destruct (firstHit _ (arrayElems o) _) as [[[nested |] s] |]; try reflexivity.
      apply firstHit_ext. intros k t _. apply Hbody.
    + cbn. apply firstHit_ext. intros k t _. apply Hbody.
Qed.

(** X17. The price search returns on every record, and what it returns
    is no price or a number that is strictly positive, never 0, a negative
    number or [NaN]. *)
Theorem findPriceInObject_returns_positive h (v : jsvalue) :
  exists res,
    run (findPriceInObject containerToString (searchFuel h) h v) = Some res /\
    forall b, res = Some b -> truthyNumber b = true /\ jgt b (Fin 0) = true.
Proof.
  destruct (findPriceInObject_returns containerToString (searchFuel h) h v ∅)
    as (res & seen' & E & _).
  { rewrite unseen_empty. unfold searchFuel. lia. }
  exists res. split; [unfold run; rewrite E; reflexivity |].
  intros b ->.
  pose proof (findPriceInObject_fixed containerToString _ h v ∅ b seen' E) as Hfix.
  apply positive_some in Hfix as (_ & Ht & Hg). split; assumption.
Qed.

End Versions.

(** X30. Called on its own, [findPriceInObject] does not give a nested
    tabela field precedence over a generic field, although its tabela step
    comes first: on [{valor: "999", sub: {Preco_med_prod: "80"}}] it returns
    999, as the previous version does, while the locator finds
    [Preco_med_prod] at [sub.Preco_med_prod] and the extractor of
    [normalize], which calls the locator before [findPriceInObject],
    extracts 80. *)
Theorem findPriceInObject_alone_prefers_generic :
  run (findPriceInObject plainHost (searchFuel valorAboveTabela) valorAboveTabela (VRef 0%nat))
  = Some (Some (Fin 999)) /\
  run (Previous.findPriceInObject plainHost (searchFuel valorAboveTabela) valorAboveTabela
         (VRef 0%nat))
  = Some (Some (Fin 999)) /\
  run (findFieldRecursive (searchFuel valorAboveTabela) valorAboveTabela (VRef 0%nat)
         tabelaFields [])
  = Some (Some {| key := "Preco_med_prod"; value := VStr "80";
                  path := ["sub"; "Preco_med_prod"] |}) /\
  extractBasePrice plainHost valorAboveTabela (VRef 0%nat) = Some (Some (Fin 80)).
Proof. split; [| split; [| split]]; vm_compute; reflexivity. Qed.

(** ** What the locator returns *)

Section LocatorResult.

Implicit Types (h : heap) (seen : gset ref) (names path : list string).

Lemma findFieldRecursive_sound (fuel : nat) h names :
  forall (v : jsvalue) (prefix : list string) seen (f : Located) seen',
    findFieldRecursive fuel h v names prefix seen = Some (Some f, seen') ->
    exists suffix,
      path f = prefix ++ suffix /\
      followPath h v suffix = Some (value f) /\
      last suffix = Some (key f) /\
      isEmptyValue (value f) = false /\
      keyMatches (map normalizeKey names) (key f) = true.
Proof.
  induction fuel as [| fuel IH]; intros v prefix seen f seen' E.
  - destruct v as [| | | | | r]; try (cbn in E; unfold ret in E; discriminate).
    cbn in E. destruct (h !! r); [discriminate | unfold ret in E; discriminate].
  - destruct (isContainer v) eqn:Hv.
    2:{ rewrite findFieldRecursive_scalar in E by exact Hv. discriminate. }
    destruct v as [| | | | | r]; try discriminate Hv.
    destruct (h !! r) as [o |] eqn:Hr.
    2:{ rewrite findFieldRecursive_dangling in E by exact Hr. discriminate. }
    rewrite (findFieldRecursive_eq fuel h r o) in E by exact Hr.
    case_bool_decide; [discriminate |].
    destruct (levelScan o (map normalizeKey names) prefix (objectKeys o)) as [found |] eqn:El.
    + injection E as <- _.
      destruct (levelScan_sound _ _ _ _ _ El) as (k & _ & -> & He & Hm).
      exists [k]. cbn [path value key followPath]. rewrite Hr. auto.
    + apply firstHit_some in E as (k & s1 & s2 & _ & Ek). cbv beta in Ek.
      destruct (isContainer (getProp o k)); [| unfold ret in Ek; discriminate].
      destruct (IH _ _ _ _ _ Ek) as (suffix & Hp & Hf & Hl & He & Hm).
      exists (k :: suffix). cbn [followPath]. rewrite Hr.
      split; [rewrite Hp, <- app_assoc; reflexivity |].
      split; [exact Hf |]. split; [| auto].
      destruct suffix as [| k' suffix]; [discriminate Hl | exact Hl].
Qed.

(** X18. What the locator returns can be read back from the record: the
    returned path leads from the record to the returned value, it ends in
    the returned key, the value is not [undefined], [null] or the empty
    string, and the key matches one of the candidates. *)
Theorem findFieldRecursive_path_leads_to_value h (v : jsvalue) names (f : Located) :
  run (findFieldRecursive (searchFuel h) h v names []) = Some (Some f) ->
  followPath h v (path f) = Some (value f) /\
  last (path f) = Some (key f) /\
  isEmptyValue (value f) = false /\
  keyMatches (map normalizeKey names) (key f) = true.
Proof.
  unfold run. intros E.
  destruct (findFieldRecursive (searchFuel h) h v names [] ∅) as [[res seen'] |] eqn:Ef;
    [| discriminate].
  cbn in E. injection E as ->.
  destruct (findFieldRecursive_sound _ h names v [] ∅ f seen' Ef) as (suffix & Hp & Hrest).
  cbn [app] in Hp. rewrite Hp. exact Hrest.
Qed.

Lemma keyMatches_self names (k : string) :
  In k names -> keyMatches (map normalizeKey names) k = true.
Proof.
  intros Hin. unfold keyMatches. apply existsb_exists. exists (normalizeKey k).
  split; [apply in_map; exact Hin |]. rewrite String.eqb_refl. reflexivity.
Qed.

(** X19. A candidate name that is a key of the first level, with a value
    that is not empty, is never missed: the locator then returns a field of
    the first level, with a path of one key. *)
Theorem findFieldRecursive_finds_first_level_candidate h (r : ref) (o : object) names
    (k : string) :
  h !! r = Some o -> In k (objectKeys o) -> In k names ->
  isEmptyValue (getProp o k) = false ->
  exists k', In k' (objectKeys o) /\
             run (findFieldRecursive (searchFuel h) h (VRef r) names [])
             = Some (Some {| key := k'; value := getProp o k'; path := [k'] |}).
Proof.
  intros Hr Hk Hn He.
  destruct (levelScan_complete o (map normalizeKey names) [] (objectKeys o) k Hk He
              (keyMatches_self names k Hn)) as (k' & Hin & El).
  exists k'. split; [exact Hin |]. eapply run_findField_some. unfold searchFuel.
  rewrite (findFieldRecursive_eq _ h r o) by exact Hr.
  rewrite bool_decide_eq_false_2 by set_solver. rewrite El. reflexivity.
Qed.

Lemma includes_empty (s : string) : includes s EmptyString = true.
Proof. destruct s; reflexivity. Qed.

(** X20. A key without a letter or a digit (the empty key, ["_"], ["-"])
    normalises to the empty string, which every candidate contains: it
    matches every non-empty candidate list, and as the first key of a
    record, with a value that is not empty, it is the field that the
    locator returns. *)
Theorem key_without_letters_or_digits_matches names (k : string) :
  normalizeKey k = EmptyString -> names <> [] ->
  keyMatches (map normalizeKey names) k = true /\
  (forall h (r : ref) (o : object) (rest : list string),
      h !! r = Some o -> objectKeys o = k :: rest ->
      isEmptyValue (getProp o k) = false ->
      run (findFieldRecursive (searchFuel h) h (VRef r) names [])
      = Some (Some {| key := k; value := getProp o k; path := [k] |})).
Proof.
  intros Hk Hn.
  assert (Hm : keyMatches (map normalizeKey names) k = true).
  { unfold keyMatches. rewrite Hk. destruct names as [| n names]; [contradiction |].
    cbn [map existsb]. rewrite includes_empty, orb_true_r. reflexivity. }
  split; [exact Hm |]. intros h r o rest Hr Hkeys He.
  apply (findField_first_level h r o names [] rest k Hr Hkeys); [intros k' [] | exact He | exact Hm].
Qed.

End LocatorResult.

(** Witness of X18: the nested field of [{a: {b: {Preco_ens: "50,00"}}}]. *)
Lemma findFieldRecursive_path_leads_to_value_witness :
  followPath nestedEns (VRef 0%nat) ["a"; "b"; "Preco_ens"] = Some (VStr "50,00") /\
  last ["a"; "b"; "Preco_ens"] = Some "Preco_ens" /\
  isEmptyValue (VStr "50,00") = false /\
  keyMatches (map normalizeKey ["Preco_ens"]) "Preco_ens" = true.
Proof.
  apply (findFieldRecursive_path_leads_to_value nestedEns (VRef 0%nat) ["Preco_ens"]
           {| key := "Preco_ens"; value := VStr "50,00"; path := ["a"; "b"; "Preco_ens"] |}).
  vm_compute. reflexivity.
Defined.

(** Witness of X19: [{valor: "999", Preco_med_prod: "80"}] and the tabela candidates. *)
Lemma findFieldRecursive_finds_first_level_candidate_witness :
  exists k', In k' ["valor"; "Preco_med_prod"] /\
             run (findFieldRecursive (searchFuel valorThenTabela) valorThenTabela (VRef 0%nat)
                    tabelaFields [])
             = Some (Some {| key := k';
                             value := getProp (Obj [("valor", VStr "999");
                                                    ("Preco_med_prod", VStr "80")]) k';
                             path := [k'] |}).
Proof.
  apply (findFieldRecursive_finds_first_level_candidate valorThenTabela 0%nat
           (Obj [("valor", VStr "999"); ("Preco_med_prod", VStr "80")]) tabelaFields
           "Preco_med_prod").
  - reflexivity.
  - simpl. auto.
  - simpl. auto.
  - reflexivity.
Defined.

(** Witness of X20: the key ["_"] and the tabela candidates. *)
Lemma key_without_letters_or_digits_matches_witness :
  keyMatches (map normalizeKey tabelaFields) "_" = true /\
  (forall (h : heap) (r : ref) (o : object) (rest : list string),
      h !! r = Some o -> objectKeys o = "_" :: rest ->
      isEmptyValue (getProp o "_") = false ->
      run (findFieldRecursive (searchFuel h) h (VRef r) tabelaFields [])
      = Some (Some {| key := "_"; value := getProp o "_"; path := ["_"] |})).
Proof.
  apply (key_without_letters_or_digits_matches tabelaFields "_").
  - reflexivity.
  - discriminate.
Defined.

(** ** Key normalisation *)

Section KeyNormalisation.

Lemma lowerChar_alnum (c : ascii) :
  isAlnum (lowerChar c) = isAlnum c /\
  lowerChar (lowerChar c) = lowerChar c /\
  (isAlnum c = true ->
   isWhiteSpace (lowerChar c) = false /\ isDigit (lowerChar c) || isLower (lowerChar c) = true).
Proof.
  destruct c as [[] [] [] [] [] [] [] []]; vm_compute;
    (split; [reflexivity | split; [reflexivity |]]); intros H; try discriminate H;
    split; reflexivity.
Qed.

Lemma trim_no_white (s : string) :
  allChars (fun c => negb (isWhiteSpace c)) s = true -> trim s = s.
Proof.
  intros H. unfold trim.
  assert (Hs : trimStart s = s).
  { destruct s as [| c s]; [reflexivity |]. cbn [allChars] in H. cbn [trimStart].
    apply andb_prop in H as [Hc _]. apply negb_true_iff in Hc. rewrite Hc. reflexivity. }
  rewrite Hs. induction s as [| c s IH]; [reflexivity |].
  cbn [allChars] in H. apply andb_prop in H as [Hc Hrest]. apply negb_true_iff in Hc.
  cbn [trimEnd allWhite]. rewrite Hc. cbn [andb]. f_equal. apply IH; [exact Hrest |].
  destruct s as [| d s]; [reflexivity |]. cbn [allChars] in Hrest. cbn [trimStart].
  apply andb_prop in Hrest as [Hd _]. apply negb_true_iff in Hd. rewrite Hd. reflexivity.
Qed.

Lemma lowered_no_white (k : string) :
  allChars (fun c => negb (isWhiteSpace c)) (toLowerCase (filterChars isAlnum k)) = true.
Proof.
  induction k as [| c k IH]; [reflexivity |]. cbn [filterChars].
  destruct (isAlnum c) eqn:E; [| exact IH]. cbn [toLowerCase allChars]. rewrite IH.
  destruct (lowerChar_alnum c) as (_ & _ & H). destruct (H E) as [-> _]. reflexivity.
Qed.

Lemma normalizeKey_canonical (k : string) :
  normalizeKey k = toLowerCase (filterChars isAlnum k).
Proof.
  destruct k as [| c k]; [reflexivity |]. unfold normalizeKey.
  apply trim_no_white. apply lowered_no_white.
Qed.

Lemma canonical_of_lowered (k : string) :
  toLowerCase (filterChars isAlnum (toLowerCase k)) = toLowerCase (filterChars isAlnum k).
Proof.
  induction k as [| c k IH]; [reflexivity |]. cbn [toLowerCase filterChars].
  destruct (lowerChar_alnum c) as (Ha & Hl & _). rewrite Ha.
  destruct (isAlnum c); [| exact IH]. cbn [toLowerCase]. rewrite Hl, IH. reflexivity.
Qed.

Lemma canonical_of_filtered (k : string) :
  filterChars isAlnum (toLowerCase (filterChars isAlnum k))
  = toLowerCase (filterChars isAlnum k).
Proof.
  induction k as [| c k IH]; [reflexivity |]. cbn [filterChars].
  destruct (isAlnum c) eqn:E; [| exact IH]. cbn [toLowerCase filterChars].
  destruct (lowerChar_alnum c) as (Ha & _ & _). rewrite Ha, E, IH. reflexivity.
Qed.

Lemma canonical_alphabet (k : string) :
  allChars (fun c => isDigit c || isLower c) (toLowerCase (filterChars isAlnum k)) = true.
Proof.
  induction k as [| c k IH]; [reflexivity |]. cbn [filterChars].
  destruct (isAlnum c) eqn:E; [| exact IH]. cbn [toLowerCase allChars]. rewrite IH.
  destruct (lowerChar_alnum c) as (_ & _ & H). destruct (H E) as [_ ->]. reflexivity.
Qed.

Lemma toLowerCase_twice (s : string) : toLowerCase (toLowerCase s) = toLowerCase s.
Proof.
  induction s as [| c s IH]; [reflexivity |]. cbn [toLowerCase].
  destruct (lowerChar_alnum c) as (_ & -> & _). rewrite IH. reflexivity.
Qed.

(** X21. [normalizeKey] yields lower-case letters and digits only and is
    idempotent; letter case and every character other than a letter or a
    digit are ignored, so keys that differ only in those match the same
    candidates. *)
Theorem normalizeKey_ignores_case_and_punctuation (k : string) :
  normalizeKey (normalizeKey k) = normalizeKey k /\
  normalizeKey (toLowerCase k) = normalizeKey k /\
  normalizeKey (filterChars isAlnum k) = normalizeKey k /\
  allChars (fun c => isDigit c || isLower c) (normalizeKey k) = true /\
  (forall k' targetNorms,
      toLowerCase (filterChars isAlnum k') = toLowerCase (filterChars isAlnum k) ->
      keyMatches targetNorms k' = keyMatches targetNorms k).
Proof.
  rewrite !normalizeKey_canonical.
  split; [| split; [| split; [| split]]].
  - rewrite canonical_of_filtered. apply toLowerCase_twice.
  - apply canonical_of_lowered.
  - rewrite filterChars_idem. reflexivity.
  - apply canonical_alphabet.
  - intros k' targetNorms H. unfold keyMatches. rewrite !normalizeKey_canonical, H. reflexivity.
Qed.

End KeyNormalisation.

(** ** Prices that the parser and the deriver hand on *)

Section PriceDerivation.

Variable containerToString : ref -> string.

Lemma nonPositive_positive (b : number) :
  negb (truthyNumber b) || jle b (Fin 0) = negb (truthyNumber b && jgt b (Fin 0)).
Proof.
  destruct b as [| [|] | q]; try reflexivity. unfold truthyNumber, jle, jgt, jlt.
  destruct (Qeq_bool q 0); [reflexivity |]. destruct (Qlt_le_dec 0 q); reflexivity.
Qed.

(** The deriver in terms of the positive part of the parsed base price. *)
Lemma calc_as_positive (base : jsvalue) :
  calcPrecoMinFromBase containerToString base
  = match positive (parseToNumber containerToString base) with
    | Some b => roundCents (jmul b (Fin 1.15))
    | None => PRECO_MIN_FALLBACK
    end.
Proof.
  unfold calcPrecoMinFromBase. destruct (parseToNumber containerToString base) as [b |];
    [| reflexivity].
  cbn [positive]. rewrite nonPositive_positive.
  destruct (truthyNumber b && jgt b (Fin 0)); reflexivity.
Qed.

(** X22. That a text with a decimal comma which converts to 0 is parsed
    to no value, where the other texts give the number, is invisible to the
    price functions, which keep positive numbers only: with the [NaN] test
    of the last branch in all three branches, the positive part of the
    parsed number and the derived minimum are the same. *)
Theorem comma_zero_is_invisible_to_prices (text : string) :
  positive (parseText text) = positive (parseTextAsDescribed text) /\
  calcPrecoMinFromBase containerToString (VStr text)
  = match positive (parseTextAsDescribed text) with
    | Some b => roundCents (jmul b (Fin 1.15))
    | None => PRECO_MIN_FALLBACK
    end.
Proof.
  assert (H : positive (parseText text) = positive (parseTextAsDescribed text)).
  { destruct (parseText_as_described text) as [-> | (q & Hd & Hq & Hn)]; [reflexivity |].
    rewrite Hd, Hn. cbn [positive truthyNumber]. apply Qeq_bool_iff in Hq. rewrite Hq.
    reflexivity. }
  split; [exact H |]. rewrite calc_as_positive. cbn [parseToNumber]. rewrite H. reflexivity.
Qed.

(** X23. A text that is not blank but consists only of the characters
    that the parser strips (the letter R, the dollar sign, white space in
    between) is parsed to the number 0, not to no value. *)
Theorem stripped_to_nothing_parses_to_zero (text : string) :
  trim text <> EmptyString ->
  filterChars (fun c => negb (Ascii.eqb c "R" || Ascii.eqb c "$" || isWhiteSpace c)) (trim text)
  = EmptyString ->
  parseToNumber containerToString (VStr text) = Some (Fin 0).
Proof.
  intros Ht Hc. cbn [parseToNumber]. unfold parseText.
  destruct (trim text) as [| c s] eqn:E; [contradiction |].
  cbv zeta. rewrite Hc. reflexivity.
Qed.

(** X24. Whatever double the base price is, the derived minimum is a number
    that is not negative: never [NaN], never below 0. *)
Theorem calcPrecoMinFromBase_binary64_never_negative (b : spec_float) :
  valid_binary prec64 emax64 b = true ->
  calcPrecoMinFromBase_binary64 b <> S754_nan /\
  SFleb (S754_zero false) (calcPrecoMinFromBase_binary64 b) = true.
Proof.
  intros Hv. pose proof (derived_not_negative b Hv) as H. split; [| exact H].
  intros Hn. rewrite Hn in H. discriminate H.
Qed.

(** X25. A positive base price of at most the double [0.004] derives the
    minimum 0: the double product [b * 1.15 * 100] is below one half and
    [Math.round] takes it to 0. *)
Theorem calcPrecoMinFromBase_binary64_of_tiny_base (b : spec_float) :
  valid_binary prec64 emax64 b = true ->
  SFltb (S754_zero false) b = true ->
  SFleb b (doubleDiv (doubleOfInt 4) (doubleOfInt 1000)) = true ->
  calcPrecoMinFromBase_binary64 b = S754_zero false.
Proof.
  intros Hv Hp Hle. destruct (positive_double b Hv Hp) as [Hnn ->].
  assert (Hb : nonNegative (doubleDiv (doubleOfInt 4) (doubleOfInt 1000))).
  { right. left. exists 4611686018427388%positive, (-60). split; [| split]; vm_compute; auto. }
  destruct (scaledPrice_mono _ _ Hnn Hb Hle) as (H1 & _ & H3).
  change (doubleMul (doubleMul (doubleDiv (doubleOfInt 4) (doubleOfInt 1000)) double_1_15)
                    (doubleOfInt 100))
    with (S754_finite false 8286623314361712 (-54)) in H3.
  destruct H1 as [H1 | [(m & e & H1 & B & _) | H1]]; rewrite H1 in H3 |- *.
  - vm_compute. reflexivity.
  - apply SFleb_finite in H3; [| exact B | reflexivity].
    assert (Hhalf : (scaled (Z.pos 8286623314361712) (-54) < 1 # 2)%Q) by (vm_compute; reflexivity).
    pose proof (scaled_pos m e) as Hpos.
    destruct (doubleRound_finite m e B) as [[_ ->] | [Hn _]].
    + rewrite doubleOfInt_100. reflexivity.
    + exfalso. pose proof (Qfloor_le (scaled (Z.pos m) e + (1 # 2))) as Hfl.
      assert (Hone : (inject_Z 1 <= inject_Z (Qfloor (scaled (Z.pos m) e + (1 # 2))))%Q).
      { rewrite <- Zle_Qle. lia. }
      change (inject_Z 1) with 1%Q in Hone. lra.
  - discriminate H3.
Qed.

Implicit Types (h : heap).

(** X26. [normalize] throws exactly on [null] and [undefined] (at
    [it.id]) and builds a product from every other value, cyclic records
    included. The base price of the product is absent or not positive
    exactly when the value that the locator returns for the tabela names
    does not parse to a positive number and the generic search finds
    nothing; the minimum of the product is then the fallback. *)
Theorem normalize_returns_unless_nullish h (it : jsvalue) :
  (normalize containerToString h it = None <-> isNullish it = true) /\
  (forall p, normalize containerToString h it = Some p ->
     exists tabelaFound nested,
       run (findFieldRecursive (searchFuel h) h it tabelaFields []) = Some tabelaFound /\
       run (findPriceInObject containerToString (searchFuel h) h it) = Some nested /\
       (positive (precoBase p) = None <->
        positive (match tabelaFound with
                  | Some found => parseToNumber containerToString (value found)
                  | None => None
                  end) = None /\ nested = None) /\
       (positive (precoBase p) = None -> productPrecoMin p = PRECO_MIN_FALLBACK)).
Proof.
  assert (Hfuel : (unseen h ∅ < searchFuel h)%nat).
  { rewrite unseen_empty. unfold searchFuel. lia. }
  destruct (findFieldRecursive_returns (searchFuel h) h tabelaFields it [] ∅ Hfuel)
    as (found & s1 & E1 & _).
  destruct (findPriceInObject_returns containerToString (searchFuel h) h it ∅ Hfuel)
    as (nested & s2 & E2 & _).
  assert (Hnested : forall n, nested = Some n -> positive nested = Some n).
  { intros n ->. apply (findPriceInObject_fixed containerToString _ h it ∅ n s2 E2). }
  unfold normalize, run. rewrite E1, E2. cbn [fmap option_fmap option_map fst].
  set (located := match found with
                  | Some f => parseToNumber containerToString (value f)
                  | None => None
                  end).
  assert (Hneeds : needsGenericSearch located
                   = match positive located with Some _ => false | None => true end).
  { unfold needsGenericSearch. destruct located as [n |]; [| reflexivity].
    rewrite nonPositive_positive. cbn [positive].
    destruct (truthyNumber n && jgt n (Fin 0)); reflexivity. }
  rewrite Hneeds. split.
  - destruct (isNullish it); [split; reflexivity |].
    split; [| discriminate].
    destruct (positive located); [discriminate |].
    destruct nested as [n |]; [| discriminate].
    destruct (truthyNumber n); discriminate.
  - intros p. destruct (isNullish it); [discriminate |].
    intros Hp. exists found, nested. split; [reflexivity |]. split; [reflexivity |].
    fold located.
    destruct (positive located) as [b |] eqn:Eg.
    + injection Hp as <-. cbn [precoBase productPrecoMin]. rewrite Eg.
      split; [split; [discriminate | intros [H _]; discriminate H] | discriminate].
    + destruct nested as [n |].
      * pose proof (Hnested n eq_refl) as Hpos.
        apply positive_some in Hpos as Hparts. destruct Hparts as (_ & Ht & _).
        rewrite Ht in Hp. injection Hp as <-. cbn [precoBase productPrecoMin].
        rewrite Hpos. split; [split; [discriminate | intros [_ [=]]] | discriminate].
      * injection Hp as <-. cbn [precoBase productPrecoMin]. rewrite Eg.
        split; [split; [intros _; split; reflexivity | reflexivity] | reflexivity].
Qed.

End PriceDerivation.

(** Witness of X23: the text ["R$ "]. *)
Lemma stripped_to_nothing_parses_to_zero_witness :
  parseToNumber plainHost (VStr "R$ ") = Some (Fin 0).
Proof.
  apply (stripped_to_nothing_parses_to_zero plainHost "R$ ").
  - vm_compute. discriminate.
  - vm_compute. reflexivity.
Defined.

(** Witness of X24: the base price [NaN]. *)
Lemma calcPrecoMinFromBase_binary64_never_negative_witness :
  calcPrecoMinFromBase_binary64 S754_nan <> S754_nan /\
  SFleb (S754_zero false) (calcPrecoMinFromBase_binary64 S754_nan) = true.
Proof.
  apply (calcPrecoMinFromBase_binary64_never_negative S754_nan). reflexivity.
Defined.

(** Witness of X25: the base price 0.001. *)
Lemma calcPrecoMinFromBase_binary64_of_tiny_base_witness :
  calcPrecoMinFromBase_binary64 (doubleDiv (doubleOfInt 1) (doubleOfInt 1000)) = S754_zero false.
Proof.
  apply (calcPrecoMinFromBase_binary64_of_tiny_base (doubleDiv (doubleOfInt 1) (doubleOfInt 1000))).
  - reflexivity.
  - reflexivity.
  - reflexivity.
Defined.

(** ** The minimum that a selection stores *)

Section SelectionResult.

Variable containerToString : ref -> string.
Variable numberToString : number -> string.
Variable encodeURIComponent : string -> string.
Variable apiGet : string -> option jsvalue.

Implicit Types (h : heap).

Lemma guardPrecoMin_positive (c : option number) :
  truthyNumber (guardPrecoMin c) = true /\ jgt (guardPrecoMin c) (Fin 0) = true.
Proof.
  destruct c as [n |]; [| split; reflexivity]. unfold guardPrecoMin.
  rewrite nonPositive_positive.
  destruct (truthyNumber n && jgt n (Fin 0)) eqn:E; [| split; reflexivity].
  apply andb_prop in E. exact E.
Qed.

Lemma rawPrecoMin_returns h (p : CatalogueProduct) (c : option number) :
  exists c', rawPrecoMin containerToString h p c = Some c'.
Proof.
  assert (Hfuel : (unseen h ∅ < searchFuel h)%nat).
  { rewrite unseen_empty. unfold searchFuel. lia. }
  destruct (findFieldRecursive_returns (searchFuel h) h tabelaFields (raw p) [] ∅ Hfuel)
    as (found & s1 & E1 & _).
  destruct (findPriceInObject_returns containerToString (searchFuel h) h (raw p) ∅ Hfuel)
    as (nested & s2 & E2 & _).
  unfold rawPrecoMin, run. rewrite E1, E2. cbn [fmap option_fmap option_map fst].
  destruct (_ && _); [| eexists; reflexivity].
  destruct (positive (match found with Some f => _ | None => None end));
    [eexists; reflexivity |].
  destruct (positive nested); eexists; reflexivity.
Qed.

Lemma selectProduct_rows (rowId pid nomeProduto : string) (c : option number)
    (rows : list Row) :
  map id (selectProduct rowId pid nomeProduto c rows) = map id rows /\
  map quantidade (selectProduct rowId pid nomeProduto c rows) = map quantidade rows /\
  map precoUnit (selectProduct rowId pid nomeProduto c rows) = map precoUnit rows /\
  (forall r, In r (selectProduct rowId pid nomeProduto c rows) -> id r = rowId ->
             produtoId r = Some pid /\ produtoNome r = nomeProduto /\
             precoMin r = guardPrecoMin c) /\
  (forall r, In r (selectProduct rowId pid nomeProduto c rows) -> id r <> rowId -> In r rows).
Proof.
  unfold selectProduct. rewrite !map_map.
  split; [| split; [| split; [| split]]].
  - apply map_ext. intros r. destruct (String.eqb (id r) rowId); reflexivity.
  - apply map_ext. intros r. destruct (String.eqb (id r) rowId); reflexivity.
  - apply map_ext. intros r. destruct (String.eqb (id r) rowId); reflexivity.
  - intros r Hin Hid. apply in_map_iff in Hin as (r0 & <- & _).
    destruct (String.eqb (id r0) rowId) eqn:E; [cbn; auto |].
    apply String.eqb_neq in E. contradiction.
  - intros r Hin Hid. apply in_map_iff in Hin as (r0 & <- & Hin0).
    destruct (String.eqb (id r0) rowId) eqn:E; [| exact Hin0].
    cbn [id] in Hid. apply String.eqb_eq in E. contradiction.
Qed.

(** X27. Selecting a product always completes, whatever the record of
    the product and the answers of the backend, and the minimum it stores in
    the line is a number strictly above 0; the identifiers, quantities and
    entered prices of all lines stay as they are, and the other lines are
    not touched. *)
Theorem onSelectSuggestion_stores_positive_minimum h (rowId : string) (p : CatalogueProduct)
    (rows : list Row) :
  exists rows',
    onSelectSuggestion containerToString numberToString encodeURIComponent apiGet h rowId p rows
    = Some rows' /\
    map id rows' = map id rows /\
    map quantidade rows' = map quantidade rows /\
    map precoUnit rows' = map precoUnit rows /\
    (forall r, In r rows' -> id r = rowId ->
               truthyNumber (precoMin r) = true /\ jgt (precoMin r) (Fin 0) = true) /\
    (forall r, In r rows' -> id r <> rowId -> In r rows).
Proof.
  unfold onSelectSuggestion.
  destruct (rawPrecoMin_returns h p (storedPrecoMin containerToString p)) as (c & ->).
  eexists. split; [reflexivity |].
  destruct (selectProduct_rows rowId (produtoIdStr containerToString numberToString p)
              (productNome p)
              (lookupPrecoMin containerToString numberToString encodeURIComponent apiGet h p c)
              rows) as (H1 & H2 & H3 & H4 & H5).
  split; [exact H1 |]. split; [exact H2 |]. split; [exact H3 |]. split; [| exact H5].
  intros r Hin Hid. destruct (H4 r Hin Hid) as (_ & _ & ->). apply guardPrecoMin_positive.
Qed.

(** X28. A positive catalogue minimum settles the selection locally:
    when the minimum of the product, rounded to cents again as step 1 does,
    is positive and is not the fallback 15, the line stores that rounded
    minimum, and neither the base price, nor the raw record, nor the backend
    is consulted. *)
Theorem onSelectSuggestion_settles_locally h (rowId : string) (p : CatalogueProduct)
    (rows : list Row) :
  positive (Some (productPrecoMin (price p))) = Some (productPrecoMin (price p)) ->
  unsetOrNonPositive (Some (roundCents (productPrecoMin (price p)))) = false ->
  unsetOrFallback (Some (roundCents (productPrecoMin (price p)))) = false ->
  onSelectSuggestion containerToString numberToString encodeURIComponent apiGet h rowId p rows
  = Some (selectProduct rowId (produtoIdStr containerToString numberToString p) (productNome p)
            (Some (roundCents (productPrecoMin (price p)))) rows) /\
  guardPrecoMin (Some (roundCents (productPrecoMin (price p))))
  = roundCents (productPrecoMin (price p)).
Proof.
  intros Hpos Hnp Hnf.
  assert (Hstored : storedPrecoMin containerToString p
                    = Some (roundCents (productPrecoMin (price p)))).
  { unfold storedPrecoMin. cbn [parseToNumber]. rewrite Hpos, Hnp. reflexivity. }
  split.
  - unfold onSelectSuggestion, rawPrecoMin, lookupPrecoMin.
    rewrite Hstored, Hnp. cbn [andb]. rewrite Hnf. cbn [andb]. rewrite Hnf. reflexivity.
  - unfold guardPrecoMin. cbn [unsetOrNonPositive] in Hnp. rewrite Hnp. reflexivity.
Qed.

(** X29. The fallback 15 doubles as the mark of a missing minimum: a
    catalogue minimum that is exactly 15, derived or not, is treated as
    missing. For a product with such a minimum and an identifier, a
    positive minimum that the backend returns for the identifier, and that
    is itself not 15 after rounding to cents, replaces it in the line. *)
Theorem onSelectSuggestion_replaces_minimum_of_15 h (rowId : string) (p : CatalogueProduct)
    (rows : list Row) (data : jsvalue) (n : number) :
  productPrecoMin (price p) = Fin 15 ->
  String.eqb (productId p) EmptyString = false ->
  apiGet ("/precomin?produtoId=" ++ encodeURIComponent (productId p))%string = Some data ->
  truthy data = true ->
  positive (parseToNumber containerToString
              (firstDefined h data ["precoMin"; "Preco_min"; "precomin"; "PrecoMin"]))
  = Some n ->
  unsetOrFallback (Some (roundCents n)) = false ->
  onSelectSuggestion containerToString numberToString encodeURIComponent apiGet h rowId p rows
  = Some (selectProduct rowId (productId p) (productNome p) (Some (roundCents n)) rows).
Proof.
  intros Hpm Hid Hget Hdata Hn Hnf.
  assert (Hstr : produtoIdStr containerToString numberToString p = productId p).
  { unfold produtoIdStr. destruct (productId p); [discriminate Hid | reflexivity]. }
  assert (Hstored : storedPrecoMin containerToString p = Some (Fin 15)).
  { unfold storedPrecoMin. rewrite Hpm. reflexivity. }
  unfold onSelectSuggestion, rawPrecoMin, lookupPrecoMin. rewrite Hstored, Hstr, Hid.
  cbn [unsetOrNonPositive truthyNumber jle negb orb andb].
  change (Qeq_bool 15 0) with false. cbn [negb orb andb].
  destruct (Qlt_le_dec 0 15) as [_ | Hle]; [| exfalso; revert Hle; apply Qlt_not_le; reflexivity].
  cbn [andb]. change (unsetOrFallback (Some (Fin 15))) with true. cbn [andb].
  assert (Hb : backendPrecoMin containerToString apiGet h
                 ("/precomin?produtoId=" ++ encodeURIComponent (productId p))%string
                 ["precoMin"; "Preco_min"; "precomin"; "PrecoMin"] (Some (Fin 15))
               = Some (roundCents n)).
  { unfold backendPrecoMin. rewrite Hget, Hdata, Hn. reflexivity. }
  rewrite Hb, Hnf. reflexivity.
Qed.

End SelectionResult.

(** Witness of X28: a product with minimum 115 and a backend that answers 1. *)
Lemma onSelectSuggestion_settles_locally_witness :
  onSelectSuggestion plainHost (fun _ => EmptyString) (fun s => s) (fun _ => Some (VNum (Fin 1)))
    valorThenTabela "l1"
    {| productId := "7"; productNome := "MILHO 48 KG"; productCodigo := VNull;
       price := {| precoBase := Some (Fin 100); productPrecoMin := Fin 115;
                   precoBaseSource := Some "Preco_ens"; precoBasePath := Some ["Preco_ens"] |};
       raw := VRef 0%nat |}
    [lineWith "" (Fin 15)]
  = Some (selectProduct "l1" "7" "MILHO 48 KG" (Some (roundCents (Fin 115)))
            [lineWith "" (Fin 15)]) /\
  guardPrecoMin (Some (roundCents (Fin 115))) = roundCents (Fin 115).
Proof.
  apply (onSelectSuggestion_settles_locally plainHost (fun _ => EmptyString)
           (fun s => s) (fun _ => Some (VNum (Fin 1))) valorThenTabela "l1"
           {| productId := "7"; productNome := "MILHO 48 KG"; productCodigo := VNull;
              price := {| precoBase := Some (Fin 100); productPrecoMin := Fin 115;
                          precoBaseSource := Some "Preco_ens";
                          precoBasePath := Some ["Preco_ens"] |};
              raw := VRef 0%nat |}
           [lineWith "" (Fin 15)]).
  - reflexivity.
  - reflexivity.
  - reflexivity.
Defined.

(** Witness of X29: a product with minimum 15 and a backend that answers
    [{precoMin: "9,00"}]. *)
Lemma onSelectSuggestion_replaces_minimum_of_15_witness :
  onSelectSuggestion plainHost (fun _ => EmptyString) (fun s => s) (fun _ => Some (VRef 0%nat))
    [Obj [("precoMin", VStr "9,00")]] "l1"
    {| productId := "7"; productNome := "MILHO 48 KG"; productCodigo := VNull;
       price := {| precoBase := Some (Fin (326 # 25)); productPrecoMin := Fin 15;
                   precoBaseSource := Some "Preco_ens"; precoBasePath := Some ["Preco_ens"] |};
       raw := VNull |}
    [lineWith "" (Fin 15)]
  = Some (selectProduct "l1" "7" "MILHO 48 KG" (Some (roundCents (Fin 9)))
            [lineWith "" (Fin 15)]).
Proof.
  apply (onSelectSuggestion_replaces_minimum_of_15 plainHost (fun _ => EmptyString)
           (fun s => s) (fun _ => Some (VRef 0%nat)) [Obj [("precoMin", VStr "9,00")]] "l1"
           {| productId := "7"; productNome := "MILHO 48 KG"; productCodigo := VNull;
              price := {| precoBase := Some (Fin (326 # 25)); productPrecoMin := Fin 15;
                          precoBaseSource := Some "Preco_ens";
                          precoBasePath := Some ["Preco_ens"] |};
              raw := VNull |}
           [lineWith "" (Fin 15)] (VRef 0%nat) (Fin 9)).
  - reflexivity.
  - reflexivity.
  - reflexivity.
  - reflexivity.
  - reflexivity.
  - reflexivity.
Defined.
